(** * Rubik's cube solver ([app.py]): cube engine, validator, solver, optimizer

    A shallow embedding of the Python module.  A cube is the dictionary the
    code receives: face name to a list of rows, each row a list of colour
    tokens.  Every subscript of the source is written with the exception it
    raises when the key or index is missing. *)

From stdpp Require Import base option list gmap strings fin_maps fin_sets.
From Stdlib Require Import Permutation Lia.

Open Scope string_scope.
Open Scope list_scope.
Open Scope nat_scope.
Open Scope stdpp_scope.

(** ** Exceptions and the error monad *)

Inductive exn : Type :=
  | ValueError (msg : string)
  | KeyError (key : string)
  | IndexError
  | NameError (name : string)
  | TypeError (msg : string)
  | Exception (msg : string).

Inductive result (A : Type) : Type :=
  | Ok (a : A)
  | Raise (e : exn).
Arguments Ok {A} a.
Arguments Raise {A} e.

#[global] Instance result_ret : MRet result := fun A a => Ok a.
#[global] Instance result_bind : MBind result := fun A B f r =>
  match r with
  | Ok a => f a
  | Raise e => Raise e
  end.

Definition is_ok {A} (r : result A) : bool :=
  match r with Ok _ => true | Raise _ => false end.

(** [for x in l: s = body(x, s)] *)
Fixpoint for_each {A S : Type} (l : list A) (body : A → S → result S) (s : S)
  : result S :=
  match l with
  | [] => Ok s
  | x :: l' => s' ← body x s; for_each l' body s'
  end.

(** ** Strings the way Python reads them *)

(** [needle in hay] on strings: substring test. *)
Fixpoint py_in (needle hay : string) : bool :=
  String.prefix needle hay ||
  match hay with
  | EmptyString => false
  | String _ hay' => py_in needle hay'
  end.

(** [x in l] on a list of strings. *)
Definition py_in_list (x : string) (l : list string) : bool :=
  existsb (String.eqb x) l.

(** [s[0]] *)
Definition str_head (s : string) : result string :=
  match s with
  | EmptyString => Raise IndexError
  | String c _ => Ok (String c EmptyString)
  end.

(** [s[1:]] *)
Definition str_tail (s : string) : string :=
  match s with
  | EmptyString => EmptyString
  | String _ s' => s'
  end.

(** Equality of two Python sets given by their element lists. *)
Definition pyset_eq (l1 l2 : list string) : bool :=
  forallb (fun x => py_in_list x l2) l1 && forallb (fun x => py_in_list x l1) l2.

(** ** The cube state *)

Abbreviation face := (list (list string)) (only parsing).
Abbreviation cube := (gmap string (list (list string))) (only parsing).

(** [d[k]] on the cube dictionary. *)
Definition getitem (d : cube) (k : string) : result face :=
  match d !! k with
  | Some v => Ok v
  | None => Raise (KeyError k)
  end.

(** [l[i]] on a list. *)
Definition getidx {A} (l : list A) (i : nat) : result A :=
  match l !! i with
  | Some v => Ok v
  | None => Raise IndexError
  end.

(** [l[i] = v] on a list. *)
Definition setidx {A} (l : list A) (i : nat) (v : A) : result (list A) :=
  if decide (i < length l) then Ok (<[i:=v]> l) else Raise IndexError.

(** [cube[f][r]] *)
Definition get_row (c : cube) (f : string) (r : nat) : result (list string) :=
  g ← getitem c f; getidx g r.

(** [cube[f][r][k]] *)
Definition sticker (c : cube) (f : string) (r k : nat) : result string :=
  row ← get_row c f r; getidx row k.

(** [cube[f][r] = row] *)
Definition set_row (c : cube) (f : string) (r : nat) (row : list string)
  : result cube :=
  g ← getitem c f; g' ← setidx g r row; Ok (<[f:=g']> c).

(** [cube[f][r][k] = v] *)
Definition set_sticker (c : cube) (f : string) (r k : nat) (v : string)
  : result cube :=
  g ← getitem c f; row ← getidx g r; row' ← setidx row k v;
  Ok (<[f:=<[r:=row']> g]> c).

(** ** validate_cube

    The types of the embedding make the [isinstance] tests true: the cube is
    a dictionary, a face a list of rows, a row a list of tokens.  What is
    left to test is the key set, the lengths and the number of colours. *)

Definition valid_faces : gset string :=
  {["U"; "D"; "F"; "B"; "L"; "R"]}.

Fixpoint validate_rows (f : string) (rows : face) (colors : gset string)
  : result (gset string) :=
  match rows with
  | [] => Ok colors
  | row :: rows' =>
      if decide (length row ≠ 3)
      then Raise (ValueError ("Face " +:+ f +:+ " rows must contain 3 stickers"))
      else validate_rows f rows' (colors ∪ list_to_set row)
  end.

(** The loop [for face in cube].  The dictionary is a [gmap], which does not
    record insertion order: the order of [map_to_list] only selects which
    face the message names when several are malformed. *)
Fixpoint validate_faces (items : list (string * list (list string)))
    (colors : gset string) : result (gset string) :=
  match items with
  | [] => Ok colors
  | (f, g) :: items' =>
      if decide (length g ≠ 3)
      then Raise (ValueError ("Face " +:+ f +:+ " must be a 3x3 matrix"))
      else colors' ← validate_rows f g colors; validate_faces items' colors'
  end.

Definition validate_cube (c : cube) : result bool :=
  if decide (dom c ≠ valid_faces)
  then Raise (ValueError "Cube must have exactly U, D, F, B, L, R faces")
  else
    colors ← validate_faces (map_to_list c) ∅;
    if decide (6 < size colors)
    then Raise (ValueError "Cube contains more than 6 distinct colors")
    else Ok true.

(** ** rotate_face *)

(** [zip] over the unpacked rows: the columns of [rows], cut at the shortest
    row. *)
Fixpoint zip_star {A} (rows : list (list A)) : list (list A) :=
  match rows with
  | [] => []
  | r :: rows' =>
      match rows' with
      | [] => (λ x, [x]) <$> r
      | _ => zip_with cons r (zip_star rows')
      end
  end.

Definition rotate_face (g : face) : face := zip_star (reverse g).

(** ** apply_move *)

(** One pass of the body of [for _ in range(turns)]. *)
Definition turn_once (face_char : string) (c : cube) : result cube :=
  g ← getitem c face_char;
  let c := <[face_char:=rotate_face g]> c in
  if String.eqb face_char "U" then
    tmp ← get_row c "F" 0;
    r ← get_row c "R" 0; c ← set_row c "F" 0 r;
    r ← get_row c "B" 0; c ← set_row c "R" 0 r;
    r ← get_row c "L" 0; c ← set_row c "B" 0 r;
    set_row c "L" 0 tmp
  else if String.eqb face_char "D" then
    tmp ← get_row c "F" 2;
    r ← get_row c "L" 2; c ← set_row c "F" 2 r;
    r ← get_row c "B" 2; c ← set_row c "L" 2 r;
    r ← get_row c "R" 2; c ← set_row c "B" 2 r;
    set_row c "R" 2 tmp
  else if String.eqb face_char "F" then
    t0 ← sticker c "U" 2 0; t1 ← sticker c "U" 2 1; t2 ← sticker c "U" 2 2;
    let tmp := [t0; t1; t2] in
    for_each [0; 1; 2] (λ i c,
      v ← sticker c "L" (2 - i) 2; c ← set_sticker c "U" 2 i v;
      v ← sticker c "D" 0 (2 - i); c ← set_sticker c "L" (2 - i) 2 v;
      v ← sticker c "R" i 0;       c ← set_sticker c "D" 0 (2 - i) v;
      v ← getidx tmp i;            set_sticker c "R" i 0 v) c
  else if String.eqb face_char "B" then
    t0 ← sticker c "U" 0 0; t1 ← sticker c "U" 0 1; t2 ← sticker c "U" 0 2;
    let tmp := [t0; t1; t2] in
    for_each [0; 1; 2] (λ i c,
      v ← sticker c "R" i 2;       c ← set_sticker c "U" 0 i v;
      v ← sticker c "D" 2 (2 - i); c ← set_sticker c "R" i 2 v;
      v ← sticker c "L" (2 - i) 0; c ← set_sticker c "D" 2 (2 - i) v;
      v ← getidx tmp i;            set_sticker c "L" (2 - i) 0 v) c
  else if String.eqb face_char "L" then
    t0 ← sticker c "U" 0 0; t1 ← sticker c "U" 1 0; t2 ← sticker c "U" 2 0;
    let tmp := [t0; t1; t2] in
    for_each [0; 1; 2] (λ i c,
      v ← sticker c "B" (2 - i) 2; c ← set_sticker c "U" i 0 v;
      v ← sticker c "D" i 0;       c ← set_sticker c "B" (2 - i) 2 v;
      v ← sticker c "F" i 0;       c ← set_sticker c "D" i 0 v;
      v ← getidx tmp i;            set_sticker c "F" i 0 v) c
  else if String.eqb face_char "R" then
    t0 ← sticker c "U" 0 2; t1 ← sticker c "U" 1 2; t2 ← sticker c "U" 2 2;
    let tmp := [t0; t1; t2] in
    for_each [0; 1; 2] (λ i c,
      v ← sticker c "F" i 2;       c ← set_sticker c "U" i 2 v;
      v ← sticker c "D" i 2;       c ← set_sticker c "F" i 2 v;
      v ← sticker c "B" (2 - i) 0; c ← set_sticker c "D" i 2 v;
      v ← getidx tmp i;            set_sticker c "B" (2 - i) 0 v) c
  else Ok c.

Fixpoint repeat_turn (turns : nat) (face_char : string) (c : cube)
  : result cube :=
  match turns with
  | 0 => Ok c
  | S n => c' ← turn_once face_char c; repeat_turn n face_char c'
  end.

(** [turns = 3 if "'" in suffix else (2 if "2" in suffix else 1)] *)
Definition move_turns (suffix : string) : nat :=
  if py_in "'" suffix then 3 else if py_in "2" suffix then 2 else 1.

Definition apply_move (c : cube) (move : string) : result cube :=
  match move with
  | EmptyString => Raise (ValueError ("Invalid move: " +:+ move))
  | String m0 suffix =>
      let face_char := String m0 EmptyString in
      if negb (py_in face_char "UDFBLR")
      then Raise (ValueError ("Invalid move: " +:+ move))
      else if negb (py_in_list suffix [""; "'"; "2"])
      then Raise (ValueError ("Invalid move suffix: " +:+ suffix))
      else
        repeat_turn (move_turns suffix) face_char c
  end.

(** ** is_cube_solved *)

Fixpoint solved_faces (c : cube) (faces : list string) : result bool :=
  match faces with
  | [] => Ok true
  | f :: faces' =>
      center_color ← sticker c f 1 1;
      g ← getitem c f;
      if existsb (λ row, existsb (λ s, negb (String.eqb s center_color)) row) g
      then Ok false
      else solved_faces c faces'
  end.

Definition is_cube_solved (c : cube) : result bool :=
  solved_faces c ["U"; "D"; "F"; "B"; "L"; "R"].

(** ** Concrete cubes *)

Definition mk_cube (u d f b l r : face) : cube :=
  <["U":=u]> (<["D":=d]> (<["F":=f]> (<["B":=b]> (<["L":=l]> (<["R":=r]> ∅))))).

Definition plain (x : string) : face := [[x; x; x]; [x; x; x]; [x; x; x]].

Definition solved_cube : cube :=
  mk_cube (plain "W") (plain "Y") (plain "G") (plain "B") (plain "O") (plain "R").

(** [replay c moves]: apply the moves in order. *)
Fixpoint replay (c : cube) (moves : list string) : result cube :=
  match moves with
  | [] => Ok c
  | m :: moves' => c' ← apply_move c m; replay c' moves'
  end.

Notation "x == y" := (bool_decide (x = y)) (at level 70, no associativity).
Notation "x != y" := (negb (bool_decide (x = y))) (at level 70, no associativity).

(** ** The loop of _optimize_solution *)

Definition opt_turns (move : string) : nat :=
  if negb (py_in "'" move) && negb (py_in "2" move) then 1
  else if py_in "'" move then 3 else 2.

(** The [while i < n] loop: [sol] is [self.solution[i:]]. *)
Fixpoint optimize_from (sol optimized : list string) : result (list string) :=
  match sol with
  | [] => Ok optimized
  | move1 :: rest =>
      match rest with
      | [] => Ok (optimized ++ [move1])
      | move2 :: rest' =>
          h1 ← str_head move1;
          h2 ← str_head move2;
          if h1 == h2 then
            let total_turns := (opt_turns move1 + opt_turns move2) mod 4 in
            if total_turns == 0 then optimize_from rest' optimized
            else
              face ← str_head move1;
              if total_turns == 1 then optimize_from rest' (optimized ++ [face])
              else if total_turns == 2
              then optimize_from rest' (optimized ++ [face +:+ "2"])
              else optimize_from rest' (optimized ++ [face +:+ "'"])
          else optimize_from rest (optimized ++ [move1])
      end
  end.

(** ** CubeSolver

    The methods of the class are written once, over the operations that reach
    the solver object: its attributes, [self.cube] and the log.  Two
    instances of these operations follow: the cube as a value, and the cube
    as objects in a store. *)

Definition edge : Type := string * nat * nat * string * nat * nat.
Definition corner : Type :=
  string * nat * nat * string * nat * nat * string * nat * nat.

Definition edges : list edge :=
  [("U", 0, 1, "B", 0, 1); ("U", 1, 0, "L", 0, 1);
   ("U", 1, 2, "R", 0, 1); ("U", 2, 1, "F", 0, 1);
   ("F", 1, 0, "L", 1, 2); ("F", 1, 2, "R", 1, 0);
   ("F", 2, 1, "D", 0, 1); ("B", 1, 0, "R", 1, 2);
   ("B", 1, 2, "L", 1, 0); ("B", 2, 1, "D", 2, 1);
   ("D", 1, 0, "L", 2, 1); ("D", 1, 2, "R", 2, 1)].

Definition corners : list corner :=
  [("U", 0, 0, "L", 0, 0, "B", 0, 2); ("U", 0, 2, "B", 0, 0, "R", 0, 2);
   ("U", 2, 0, "F", 0, 0, "L", 0, 2); ("U", 2, 2, "R", 0, 0, "F", 0, 2);
   ("D", 0, 0, "L", 2, 2, "F", 2, 0); ("D", 0, 2, "F", 2, 2, "R", 2, 0);
   ("D", 2, 0, "B", 2, 2, "L", 2, 0); ("D", 2, 2, "R", 2, 2, "B", 2, 0)].

Definition budget_message : string :=
  "Maximum moves reached. Cube might be unsolvable.".

Definition failure_entry : string := "Solver failed. Please reset and try again.".

(** The operations of a solver object, in a monad [Mo] of method bodies. *)
Class SolverOps (Mo : Type → Type) : Type := {
  solver_ret :: MRet Mo;
  solver_bind :: MBind Mo;
  (** [raise e] *)
  raise : ∀ {A : Type}, exn → Mo A;
  (** [try: body] with [except Exception as e: handler] *)
  try_except : ∀ {A : Type}, Mo A → (exn → Mo A) → Mo A;
  (** [self.cube[f][r][k]] *)
  cube_at : string → nat → nat → Mo string;
  (** [validate_cube(self.cube)] *)
  validate : Mo bool;
  (** [is_cube_solved(self.cube)] *)
  is_solved : Mo bool;
  (** [self.cube = apply_move(self.cube, move)] *)
  move_cube : string → Mo unit;
  (** [self.face_colors.items()] *)
  face_colors : Mo (list (string * string));
  (** [self.white_color], [self.yellow_color], [self.max_moves] *)
  white_color : Mo string;
  yellow_color : Mo string;
  max_moves : Mo nat;
  (** [self.solution] and [self.solution.append(move)] *)
  solution : Mo (list string);
  log_move : string → Mo unit
}.

Section Methods.

Context {Mo : Type → Type} {ops : SolverOps Mo}.

(** A value or the exception of a call that takes no part in the state. *)
Definition of_result {A} (r : result A) : Mo A :=
  match r with
  | Ok a => mret a
  | Raise e => raise e
  end.

(** [for x in l: body(x)] inside a method. *)
Fixpoint for_each_M {A} (l : list A) (body : A → Mo unit) : Mo unit :=
  match l with
  | [] => mret ()
  | x :: l' => body x;; for_each_M l' body
  end.

(** [self.face_colors[f]] *)
Definition face_color (f : string) : Mo string :=
  items ← face_colors;
  match list_find (λ kv, kv.1 = f) items with
  | Some (_, kv) => mret kv.2
  | None => raise (KeyError f)
  end.

(** The budget is tested once, before the loop over [moves]. *)
Definition _apply (moves : list string) : Mo unit :=
  sol ← solution;
  most ← max_moves;
  if decide (most ≤ length sol)
  then raise (Exception budget_message)
  else for_each_M moves (λ move, move_cube move;; log_move move).

Definition _optimize_solution : Mo (list string) :=
  sol ← solution; of_result (optimize_from sol []).

(** *** _find_edge and _find_corner *)

Fixpoint find_edge_in (es : list edge) (color1 color2 : string)
  : Mo (option edge) :=
  match es with
  | [] => mret None
  | e :: es' =>
      let '(f1, r1, c1, f2, r2, c2) := e in
      a ← cube_at f1 r1 c1;
      b ← cube_at f2 r2 c2;
      if pyset_eq [a; b] [color1; color2] then mret (Some e)
      else find_edge_in es' color1 color2
  end.

Definition _find_edge (color1 color2 : string) : Mo (option edge) :=
  find_edge_in edges color1 color2.

Fixpoint find_corner_in (cs : list corner) (color1 color2 color3 : string)
  : Mo (option corner) :=
  match cs with
  | [] => mret None
  | cn :: cs' =>
      let '(f1, r1, c1, f2, r2, c2, f3, r3, c3) := cn in
      a ← cube_at f1 r1 c1;
      b ← cube_at f2 r2 c2;
      c ← cube_at f3 r3 c3;
      if pyset_eq [a; b; c] [color1; color2; color3] then mret (Some cn)
      else find_corner_in cs' color1 color2 color3
  end.

Definition _find_corner (color1 color2 color3 : string) : Mo (option corner) :=
  find_corner_in corners color1 color2 color3.

(** *** Stage 1: _solve_white_cross *)

(** First inner loop: turn [U] until the edge sits at U[2][1] over F. *)
Fixpoint wc_turn_U (n : nat) (side_color : string) (e : edge) : Mo edge :=
  match n with
  | 0 => mret e
  | S n' =>
      let '(f1, r1, c1, f2, r2, c2) := e in
      if (f1 == "U") && (r1 == 2) && (c1 == 1) && (f2 == "F") then mret e
      else
        _apply ["U"];;
        white ← white_color;
        edge ← _find_edge white side_color;
        match edge with
        | None => mret e
        | Some e' => wc_turn_U n' side_color e'
        end
  end.

(** Second inner loop: turn [D] until the edge's second sticker is on [face]. *)
Fixpoint wc_turn_D (n : nat) (face side_color : string) (e : edge) : Mo edge :=
  match n with
  | 0 => mret e
  | S n' =>
      let '(f1, r1, c1, f2, r2, c2) := e in
      if f2 == face then mret e
      else
        _apply ["D"];;
        white ← white_color;
        edge ← _find_edge white side_color;
        match edge with
        | None => mret e
        | Some e' => wc_turn_D n' face side_color e'
        end
  end.

(** Body of [for face in ['F', 'R', 'B', 'L']]; [mret ()] before the end of
    the body is a [continue]. *)
Definition white_cross_face (face : string) : Mo unit :=
  side_color ← face_color face;
  white ← white_color;
  edge ← _find_edge white side_color;
  match edge with
  | None => mret ()
  | Some e =>
      let '(f1, r1, c1, f2, r2, c2) := e in
      if ((f1 == "U") &&
          (((face == "F") && (r1 == 2) && (c1 == 1)) ||
           ((face == "R") && (r1 == 1) && (c1 == 2)) ||
           ((face == "B") && (r1 == 0) && (c1 == 1)) ||
           ((face == "L") && (r1 == 1) && (c1 == 0)))) &&
         (f2 == face)
      then mret ()
      else
        (* Bring edge to bottom layer *)
        edge ←
          (if (f1 != "D") && (f2 != "D") then
             (if f1 == "U" then
                wc_turn_U 4 side_color e;;
                if face == "F" then _apply ["F"]
                else if face == "R" then _apply ["R"]
                else if face == "B" then _apply ["B"]
                else _apply ["L"]
              else
                if (f1 == "F") && (r1 == 1) && (c1 == 2)
                then _apply ["R"; "U"; "R'"]
                else if (f1 == "F") && (r1 == 1) && (c1 == 0)
                then _apply ["L'"; "U'"; "L"]
                else if (f1 == "B") && (r1 == 1) && (c1 == 2)
                then _apply ["R'"; "U'"; "R"]
                else if (f1 == "B") && (r1 == 1) && (c1 == 0)
                then _apply ["L"; "U"; "L'"]
                else mret ());;
             _find_edge white side_color
           else mret (Some e));
        match edge with
        | None => mret ()
        | Some e =>
            (* Edge is in bottom layer *)
            let '(f1, r1, c1, f2, r2, c2) := e in
            if (f1 == "D") || (f2 == "D") then
              e ← wc_turn_D 4 face side_color e;
              let '(f1, r1, c1, f2, r2, c2) := e in
              if f1 == "D" then _apply [face; face]
              else _apply [face +:+ "'"; "U'"; face +:+ "'"]
            else mret ()
        end
  end.

Definition _solve_white_cross : Mo unit :=
  for_each_M ["F"; "R"; "B"; "L"] white_cross_face.

(** *** Stage 2: _solve_white_corners *)

(** [`L' if face == `F' else `F' if face == `R' else `R' if face == `B' else `B'] *)
Definition prev_face (face : string) : string :=
  if face == "F" then "L" else if face == "R" then "F"
  else if face == "B" then "R" else "B".

Fixpoint wn_turn_U (n : nat) (side_color1 side_color2 : string) (cn : corner)
  : Mo corner :=
  match n with
  | 0 => mret cn
  | S n' =>
      let '(f1, r1, c1, f2, r2, c2, f3, r3, c3) := cn in
      if (f1 == "U") && (r1 == 2) && (c1 == 2) && (f2 == "R") && (f3 == "F")
      then mret cn
      else
        _apply ["U"];;
        white ← white_color;
        corner ← _find_corner white side_color1 side_color2;
        match corner with
        | None => mret cn
        | Some cn' => wn_turn_U n' side_color1 side_color2 cn'
        end
  end.

(** The loop over [D] turns.  Its test [if not edge: break] reads the name
    [edge], which this method never binds and the module does not define:
    evaluating it raises [NameError]. *)
Fixpoint wn_turn_D (n : nat) (face side_color1 side_color2 : string)
    (cn : corner) : Mo corner :=
  match n with
  | 0 => mret cn
  | S n' =>
      let '(f1, r1, c1, f2, r2, c2, f3, r3, c3) := cn in
      if (f2 == face) && (f3 == prev_face face) then mret cn
      else
        _apply ["D"];;
        white ← white_color;
        corner ← _find_corner white side_color1 side_color2;
        edge ← (raise (NameError "edge") : Mo (option edge));
        match edge with
        | None => mret cn
        | Some _ =>
            match corner with
            | None => raise (TypeError "cannot unpack non-iterable NoneType object")
            | Some cn' => wn_turn_D n' face side_color1 side_color2 cn'
            end
        end
  end.

Definition white_corners_face (face : string) : Mo unit :=
  side_color1 ← face_color face;
  side_color2 ← face_color (prev_face face);
  white ← white_color;
  corner ← _find_corner white side_color1 side_color2;
  match corner with
  | None => mret ()
  | Some cn =>
      let '(f1, r1, c1, f2, r2, c2, f3, r3, c3) := cn in
      (* Bring corner to bottom layer *)
      corner ←
        (if (f1 != "D") && (f2 != "D") && (f3 != "D") then
           wn_turn_U 4 side_color1 side_color2 cn;;
           _apply ["R"; "D"; "R'"; "D'"];;
           _find_corner white side_color1 side_color2
         else mret (Some cn));
      match corner with
      | None => mret ()
      | Some cn =>
          (* Corner is in bottom layer *)
          let '(f1, r1, c1, f2, r2, c2, f3, r3, c3) := cn in
          if (f1 == "D") || (f2 == "D") || (f3 == "D") then
            cn ← wn_turn_D 4 face side_color1 side_color2 cn;
            let '(f1, r1, c1, f2, r2, c2, f3, r3, c3) := cn in
            if f1 == "D" then
              if face == "F" then _apply ["F"; "D'"; "F'"]
              else if face == "R" then _apply ["R'"; "D"; "R"]
              else if face == "B" then _apply ["B"; "D2"; "B'"; "D2"]
              else _apply ["L"; "D'"; "L'"]
            else
              if face == "F" then _apply ["F'"; "D'"; "F"]
              else if face == "R" then _apply ["R"; "D"; "R'"]
              else if face == "B" then _apply ["B'"; "D2"; "B"]
              else _apply ["L"; "D'"; "L'"]
          else mret ()
      end
  end.

Definition _solve_white_corners : Mo unit :=
  for_each_M ["F"; "R"; "B"; "L"] white_corners_face.

(** *** Stage 3: _solve_second_layer *)

(** The edge is in neither the [U] nor the [D] layer. *)
Definition in_middle (f1 f2 : string) : bool :=
  negb (py_in "U" f1) && negb (py_in "D" f1) &&
  negb (py_in "U" f2) && negb (py_in "D" f2).

Definition next_face (f : string) : string :=
  if f == "F" then "R" else if f == "R" then "B"
  else if f == "B" then "L" else "F".

(** The search [for f in ['F', 'R', 'B', 'L']]: the first edge found outside
    the middle layer, with the loop variables [f] and [adj_face] as the
    [break] leaves them; [None] when the loop ends with [edge] unset. *)
Fixpoint sl_pick (fs : list string) : Mo (option (edge * string * string)) :=
  match fs with
  | [] => mret None
  | f :: fs' =>
      let adj_face := next_face f in
      cf ← face_color f;
      ca ← face_color adj_face;
      e ← _find_edge cf ca;
      match e with
      | Some (f1, r1, c1, f2, r2, c2) =>
          if in_middle f1 f2 then sl_pick fs'
          else mret (Some ((f1, r1, c1, f2, r2, c2), f, adj_face))
      | None => sl_pick fs'
      end
  end.

Fixpoint sl_turn_U (n : nat) (face f adj_face : string) (e : edge) : Mo edge :=
  match n with
  | 0 => mret e
  | S n' =>
      top ← cube_at face 0 (if py_in_list face ["L"; "R"] then 1 else 1);
      cface ← face_color face;
      if top == cface then mret e
      else
        _apply ["U"];;
        cf ← face_color f;
        ca ← face_color adj_face;
        edge ← _find_edge cf ca;
        match edge with
        | None => mret e
        | Some e' => sl_turn_U n' face f adj_face e'
        end
  end.

Fixpoint sl_turn_D (n : nat) (f adj_face : string) (e : edge) : Mo edge :=
  match n with
  | 0 => mret e
  | S n' =>
      let '(f1, r1, c1, f2, r2, c2) := e in
      if (f1 == "F") && (r1 == 2) && (c1 == 1) then mret e
      else
        _apply ["D"];;
        cf ← face_color f;
        ca ← face_color adj_face;
        edge ← _find_edge cf ca;
        match edge with
        | None => mret e
        | Some e' => sl_turn_D n' f adj_face e'
        end
  end.

(** [[k for k, v in self.face_colors.items() if v == other_color][0]] *)
Definition face_of_color (other_color : string) : Mo string :=
  items ← face_colors;
  of_result (getidx ((filter (λ kv, kv.2 = other_color) items).*1) 0).

Definition second_layer_pass : Mo unit :=
  pick ← sl_pick ["F"; "R"; "B"; "L"];
  match pick with
  | None => mret ()
  | Some (e, f, adj_face) =>
      let '(f1, r1, c1, f2, r2, c2) := e in
      edge ←
        (if in_middle f1 f2 then
           (if (f1 == "F") && (r1 == 1) && (c1 == 2)
            then _apply ["U"; "R"; "U'"; "R'"; "U'"; "F'"; "U"; "F"]
            else if (f1 == "F") && (r1 == 1) && (c1 == 0)
            then _apply ["U'"; "L'"; "U"; "L"; "U"; "F"; "U'"; "F'"]
            else mret ());;
           cf ← face_color f;
           ca ← face_color adj_face;
           _find_edge cf ca
         else mret (Some e));
      match edge with
      | None => mret ()
      | Some e =>
          let '(f1, r1, c1, f2, r2, c2) := e in
          if py_in "U" f1 || py_in "U" f2 || py_in "D" f1 || py_in "D" f2 then
            if py_in "U" f1 || py_in "U" f2 then
              let face := if f1 == "U" then f2 else f1 in
              e ← sl_turn_U 4 face f adj_face e;
              let '(f1, r1, c1, f2, r2, c2) := e in
              other_color ←
                (if f1 != "U" then cube_at f1 r1 c1 else cube_at f2 r2 c2);
              target_face ← face_of_color other_color;
              if target_face == "R"
              then _apply ["U"; "R"; "U'"; "R'"; "U'"; "F'"; "U"; "F"]
              else _apply ["U'"; "L'"; "U"; "L"; "U"; "F"; "U'"; "F'"]
            else
              sl_turn_D 4 f adj_face e;;
              _apply ["F"; "U"; "F'"]
          else mret ()
      end
  end.

Definition _solve_second_layer : Mo unit :=
  for_each_M [0; 1; 2; 3] (λ _, second_layer_pass).

(** *** Stage 4: _solve_yellow_cross *)

Definition yellow_edges : Mo (list bool) :=
  yellow ← yellow_color;
  e0 ← cube_at "D" 0 1;
  e1 ← cube_at "D" 1 0;
  e2 ← cube_at "D" 1 2;
  e3 ← cube_at "D" 2 1;
  mret [e0 == yellow; e1 == yellow; e2 == yellow; e3 == yellow].

(** [sum(edges)] on a list of booleans. *)
Definition py_sum (bs : list bool) : nat :=
  length (filter (λ b, b = true) bs).

(** [edges[i]] on the four-element list built above. *)
Definition flag (bs : list bool) (i : nat) : bool := bs !!! i.

Fixpoint yc_turn_D (n : nat) (edges : list bool) : Mo (list bool) :=
  match n with
  | 0 => mret edges
  | S n' =>
      if flag edges 1 && flag edges 2 then mret edges
      else
        _apply ["D"];;
        edges ← yellow_edges;
        yc_turn_D n' edges
  end.

Definition _solve_yellow_cross : Mo unit :=
  edges ← yellow_edges;
  let count := py_sum edges in
  if count == 4 then mret ()
  else
    ec ← (if count == 0 then
            _apply ["F"; "R"; "U"; "R'"; "U'"; "F'"];;
            edges ← yellow_edges;
            mret (edges, py_sum edges)
          else mret (edges, count));
    let '(edges, count) := ec in
    if count == 2 then
      (if flag edges 0 && flag edges 2 then _apply ["D"]
       else if negb (flag edges 1 && flag edges 3)
       then yc_turn_D 4 edges;; mret ()
       else mret ());;
      _apply ["F"; "U"; "R"; "U'"; "R'"; "F'"]
    else mret ().

(** *** Stage 5: _solve_yellow_face *)

Fixpoint yf_turn_D (n : nat) : Mo unit :=
  match n with
  | 0 => mret ()
  | S n' =>
      yellow ← yellow_color;
      x ← cube_at "D" 2 2;
      if x == yellow then mret ()
      else _apply ["D"];; yf_turn_D n'
  end.

(** The outer loop; [mret ()] on the all-yellow test is the [return]. *)
Fixpoint yf_loop (n : nat) : Mo unit :=
  match n with
  | 0 => mret ()
  | S n' =>
      yellow ← yellow_color;
      k0 ← cube_at "D" 0 0;
      k1 ← cube_at "D" 0 2;
      k2 ← cube_at "D" 2 0;
      k3 ← cube_at "D" 2 2;
      if forallb id [k0 == yellow; k1 == yellow; k2 == yellow; k3 == yellow]
      then mret ()
      else
        yf_turn_D 4;;
        _apply ["R"; "U"; "R'"; "U"; "R"; "U2"; "R'"];;
        yf_loop n'
  end.

Definition _solve_yellow_face : Mo unit := yf_loop 4.

(** *** Stage 6: _solve_final_layer *)

(** The inner [for i in range(4)]: [true] when every top corner holds its
    three expected colours. *)
Fixpoint fc_corners_ok (i : list nat) : Mo bool :=
  match i with
  | [] => mret true
  | i :: rest =>
      let face : string := ["F"; "R"; "B"; "L"] !!! i in
      let next_face : string := ["R"; "B"; "L"; "F"] !!! i in
      a ← cube_at "U" (if py_in_list face ["F"; "R"] then 2 else 0)
                      (if py_in_list face ["R"; "B"] then 2 else 0);
      b ← cube_at face 0 (if py_in_list face ["F"; "B"] then 2 else 0);
      c ← cube_at next_face 0 (if py_in_list next_face ["F"; "B"] then 0 else 2);
      eu ← face_color "U";
      ef ← face_color face;
      en ← face_color next_face;
      if negb (pyset_eq [a; b; c] [eu; ef; en]) then mret false
      else fc_corners_ok rest
  end.

Fixpoint fc_loop (n : nat) (alg : list string) : Mo unit :=
  match n with
  | 0 => mret ()
  | S n' =>
      solved ← fc_corners_ok [0; 1; 2; 3];
      if (solved : bool) then mret ()
      else _apply alg;; _apply ["U"];; fc_loop n' alg
  end.

Definition _position_final_corners : Mo unit :=
  fc_loop 4 ["R'"; "F"; "R'"; "B2"; "R"; "F'"; "R'"; "B2"; "R2"].

Fixpoint fe_edges_ok (faces : list string) : Mo bool :=
  match faces with
  | [] => mret true
  | face :: rest =>
      x ← cube_at face 0 1;
      cf ← face_color face;
      if x != cf then mret false else fe_edges_ok rest
  end.

Fixpoint fe_loop (n : nat) (alg : list string) : Mo unit :=
  match n with
  | 0 => mret ()
  | S n' =>
      solved ← fe_edges_ok ["F"; "R"; "B"; "L"];
      if (solved : bool) then mret ()
      else _apply alg;; _apply ["U"];; fe_loop n' alg
  end.

Definition _position_final_edges : Mo unit :=
  fe_loop 4 ["R2"; "U"; "R"; "U"; "R'"; "U'"; "R'"; "U'"; "R'"; "U"; "R'"].

Definition _solve_final_layer : Mo unit :=
  _position_final_corners;;
  _position_final_edges.

(** *** solve *)

(** The body of the [try] block. *)
Definition solve_stages : Mo (list string) :=
  validate;;
  _solve_white_cross;;
  _solve_white_corners;;
  _solve_second_layer;;
  _solve_yellow_cross;;
  _solve_yellow_face;;
  _solve_final_layer;;
  _optimize_solution.

(** [CubeSolver.solve]: the solved test runs before the [try]; every
    exception raised inside the [try] becomes the failure entry. *)
Definition solve : Mo (list string) :=
  solved ← is_solved;
  if (solved : bool) then mret []
  else try_except solve_stages (λ _, mret [failure_entry]).

End Methods.

(** *** The solver on cube values *)

Record solver : Type := {
  self_cube : cube;
  self_solution : list string;
  self_face_colors : list (string * string);
  self_max_moves : nat;
  self_white_color : string;
  self_yellow_color : string
}.

(** [CubeSolver(cube)]: the constructor works on a deep copy; in the value
    model the copy is the value itself. *)
Definition CubeSolver (c : cube) : result solver :=
  u ← sticker c "U" 1 1;
  d ← sticker c "D" 1 1;
  f ← sticker c "F" 1 1;
  b ← sticker c "B" 1 1;
  l ← sticker c "L" 1 1;
  r ← sticker c "R" 1 1;
  Ok {| self_cube := c;
        self_solution := [];
        self_face_colors :=
          [("U", u); ("D", d); ("F", f); ("B", b); ("L", l); ("R", r)];
        self_max_moves := 200;
        self_white_color := u;
        self_yellow_color := d |}.

(** Method bodies: a state and error monad over [solver]; the solver object
    survives an exception. *)
Definition M (A : Type) : Type := solver → result A * solver.

Definition gets {A} (f : solver → A) : M A := λ s, (Ok (f s), s).

Definition M_try {A} (body : M A) (handler : exn → M A) : M A :=
  λ s, match body s with
       | (Ok a, s') => (Ok a, s')
       | (Raise e, s') => handler e s'
       end.

Definition M_move_cube (move : string) : M unit :=
  λ s, match apply_move (self_cube s) move with
       | Ok c =>
           (Ok (), {| self_cube := c;
                      self_solution := self_solution s;
                      self_face_colors := self_face_colors s;
                      self_max_moves := self_max_moves s;
                      self_white_color := self_white_color s;
                      self_yellow_color := self_yellow_color s |})
       | Raise e => (Raise e, s)
       end.

Definition M_log_move (move : string) : M unit :=
  λ s, (Ok (), {| self_cube := self_cube s;
                  self_solution := self_solution s ++ [move];
                  self_face_colors := self_face_colors s;
                  self_max_moves := self_max_moves s;
                  self_white_color := self_white_color s;
                  self_yellow_color := self_yellow_color s |}).

#[global] Instance value_ops : SolverOps M := {|
  solver_ret := λ A a s, (Ok a, s);
  solver_bind := λ A B f m s,
    match m s with
    | (Ok a, s') => f a s'
    | (Raise e, s') => (Raise e, s')
    end;
  raise := λ A e s, (Raise e, s);
  try_except := @M_try;
  cube_at := λ f r k s, (sticker (self_cube s) f r k, s);
  validate := λ s, (validate_cube (self_cube s), s);
  is_solved := λ s, (is_cube_solved (self_cube s), s);
  move_cube := M_move_cube;
  face_colors := gets self_face_colors;
  white_color := gets self_white_color;
  yellow_color := gets self_yellow_color;
  max_moves := gets self_max_moves;
  solution := gets self_solution;
  log_move := M_log_move
|}.

(** Run a method on a solver object. *)
Definition run {A} (m : M A) (s : solver) : result A * solver := m s.

(** [CubeSolver(state).solve()] *)
Definition solve_cube (c : cube) : result (list string) :=
  s ← CubeSolver c; (run solve s).1.

(** ** The cube as Python objects in a store

    [apply_move] and the solver work on objects: the cube dictionary refers
    to six face lists, a face list refers to its row lists, a row list holds
    the (immutable) colour strings.  The store lists the objects in the order
    of their allocation; a reference is an index.  [copy.deepcopy] allocates
    new objects, every assignment through a subscript overwrites an object in
    place. *)

Module Store.

Abbreviation loc := nat (only parsing).

Inductive obj : Type :=
  | ODict (d : gmap string loc)
  | OFace (rows : list loc)
  | ORow (cells : list string).

Abbreviation store := (list obj) (only parsing).

(** Store-passing computations that may throw; the store survives an
    exception. *)
Definition Mem (A : Type) : Type := store → result A * store.

#[global] Instance Mem_ret : MRet Mem := λ A a h, (Ok a, h).
#[global] Instance Mem_bind : MBind Mem := λ A B f m h,
  match m h with
  | (Ok a, h') => f a h'
  | (Raise e, h') => (Raise e, h')
  end.

Definition throw {A} (e : exn) : Mem A := λ h, (Raise e, h).
Definition lift {A} (r : result A) : Mem A := λ h, (r, h).

Definition load (l : loc) : Mem obj :=
  λ h, match h !! l with
       | Some o => (Ok o, h)
       | None => (Raise (TypeError "dangling reference"), h)
       end.

Definition alloc (o : obj) : Mem loc := λ h, (Ok (length h), h ++ [o]).

(** Overwrite the object at [l]: the mutation of a dictionary or list. *)
Definition store_at (l : loc) (o : obj) : Mem unit :=
  λ h, (Ok (), <[l:=o]> h).

Definition as_dict (o : obj) : Mem (gmap string loc) :=
  match o with
  | ODict d => mret d
  | _ => throw (TypeError "not a dict")
  end.

Definition as_face (o : obj) : Mem (list loc) :=
  match o with
  | OFace rows => mret rows
  | _ => throw (TypeError "not a list of rows")
  end.

Definition as_row (o : obj) : Mem (list string) :=
  match o with
  | ORow cells => mret cells
  | _ => throw (TypeError "not a list of tokens")
  end.

Fixpoint for_each {A} (l : list A) (body : A → Mem unit) : Mem unit :=
  match l with
  | [] => mret ()
  | x :: l' => body x;; for_each l' body
  end.

Fixpoint map_each {A B} (f : A → Mem B) (l : list A) : Mem (list B) :=
  match l with
  | [] => mret []
  | x :: l' => y ← f x; ys ← map_each f l'; mret (y :: ys)
  end.

(** [d[k]] and [d[k] = v] on the dictionary object at [l]. *)
Definition dict_get (l : loc) (k : string) : Mem loc :=
  o ← load l; d ← as_dict o;
  match d !! k with
  | Some v => mret v
  | None => throw (KeyError k)
  end.

Definition dict_set (l : loc) (k : string) (v : loc) : Mem unit :=
  o ← load l; d ← as_dict o; store_at l (ODict (<[k:=v]> d)).

(** [g[i]] and [g[i] = row] on the face list at [l]. *)
Definition face_get (l : loc) (i : nat) : Mem loc :=
  o ← load l; rows ← as_face o; lift (getidx rows i).

Definition face_set (l : loc) (i : nat) (v : loc) : Mem unit :=
  o ← load l; rows ← as_face o;
  if decide (i < length rows) then store_at l (OFace (<[i:=v]> rows))
  else throw IndexError.

(** The tokens of the row list at [l]; [row[i]] and [row[i] = v]. *)
Definition row_cells (l : loc) : Mem (list string) :=
  o ← load l; as_row o.

Definition row_get (l : loc) (i : nat) : Mem string :=
  cells ← row_cells l; lift (getidx cells i).

Definition row_set (l : loc) (i : nat) (v : string) : Mem unit :=
  cells ← row_cells l;
  if decide (i < length cells) then store_at l (ORow (<[i:=v]> cells))
  else throw IndexError.

(** [cube[f][r]], [cube[f][r][k]], the slice copy [cube[f][r][:]] and the two
    assignments, for the cube dictionary at [c]. *)
Definition get_row (c : loc) (f : string) (r : nat) : Mem loc :=
  g ← dict_get c f; face_get g r.

Definition sticker (c : loc) (f : string) (r k : nat) : Mem string :=
  row ← get_row c f r; row_get row k.

Definition slice_row (c : loc) (f : string) (r : nat) : Mem loc :=
  row ← get_row c f r; cells ← row_cells row; alloc (ORow cells).

Definition set_row (c : loc) (f : string) (r : nat) (row : loc) : Mem unit :=
  g ← dict_get c f; face_set g r row.

Definition set_sticker (c : loc) (f : string) (r k : nat) (v : string)
  : Mem unit :=
  row ← get_row c f r; row_set row k v.

(** The grid of the face list at [l], and a new face list for a grid. *)
Definition read_grid (l : loc) : Mem face :=
  o ← load l; rows ← as_face o; map_each row_cells rows.

Definition alloc_grid (g : face) : Mem loc :=
  rows ← map_each (λ cells, alloc (ORow cells)) g; alloc (OFace rows).

(** *** copy.deepcopy

    The memo maps an object already copied to its copy, so that sharing
    inside the argument is kept in the copy; strings are not copied.  A list
    is entered in the memo once its items are copied: a row list never
    contains a face list, so the order of the two steps cannot be seen. *)

Definition copy_row (memo : gmap loc loc) (l : loc) : Mem (loc * gmap loc loc) :=
  match memo !! l with
  | Some l' => mret (l', memo)
  | None =>
      cells ← row_cells l; l' ← alloc (ORow cells);
      mret (l', <[l:=l']> memo)
  end.

Fixpoint copy_rows (memo : gmap loc loc) (ls : list loc)
  : Mem (list loc * gmap loc loc) :=
  match ls with
  | [] => mret ([], memo)
  | l :: ls' =>
      r ← copy_row memo l;
      rs ← copy_rows r.2 ls';
      mret (r.1 :: rs.1, rs.2)
  end.

Definition copy_face (memo : gmap loc loc) (l : loc) : Mem (loc * gmap loc loc) :=
  match memo !! l with
  | Some l' => mret (l', memo)
  | None =>
      o ← load l; rows ← as_face o;
      rs ← copy_rows memo rows;
      l' ← alloc (OFace rs.1);
      mret (l', <[l:=l']> rs.2)
  end.

Fixpoint copy_items (memo : gmap loc loc) (items : list (string * loc))
  : Mem (list (string * loc) * gmap loc loc) :=
  match items with
  | [] => mret ([], memo)
  | (k, l) :: items' =>
      r ← copy_face memo l;
      rs ← copy_items r.2 items';
      mret ((k, r.1) :: rs.1, rs.2)
  end.

Definition deepcopy (c : loc) : Mem loc :=
  o ← load c; d ← as_dict o;
  rs ← copy_items ∅ (map_to_list d);
  alloc (ODict (list_to_map rs.1)).

(** *** apply_move *)

Definition turn_once (face_char : string) (c : loc) : Mem unit :=
  g ← dict_get c face_char;
  grid ← read_grid g;
  g' ← alloc_grid (rotate_face grid);
  dict_set c face_char g';;
  if String.eqb face_char "U" then
    tmp ← slice_row c "F" 0;
    r ← slice_row c "R" 0; set_row c "F" 0 r;;
    r ← slice_row c "B" 0; set_row c "R" 0 r;;
    r ← slice_row c "L" 0; set_row c "B" 0 r;;
    set_row c "L" 0 tmp
  else if String.eqb face_char "D" then
    tmp ← slice_row c "F" 2;
    r ← slice_row c "L" 2; set_row c "F" 2 r;;
    r ← slice_row c "B" 2; set_row c "L" 2 r;;
    r ← slice_row c "R" 2; set_row c "B" 2 r;;
    set_row c "R" 2 tmp
  else if String.eqb face_char "F" then
    t0 ← sticker c "U" 2 0; t1 ← sticker c "U" 2 1; t2 ← sticker c "U" 2 2;
    tmp ← alloc (ORow [t0; t1; t2]);
    for_each [0; 1; 2] (λ i,
      v ← sticker c "L" (2 - i) 2; set_sticker c "U" 2 i v;;
      v ← sticker c "D" 0 (2 - i); set_sticker c "L" (2 - i) 2 v;;
      v ← sticker c "R" i 0;       set_sticker c "D" 0 (2 - i) v;;
      v ← row_get tmp i;           set_sticker c "R" i 0 v)
  else if String.eqb face_char "B" then
    t0 ← sticker c "U" 0 0; t1 ← sticker c "U" 0 1; t2 ← sticker c "U" 0 2;
    tmp ← alloc (ORow [t0; t1; t2]);
    for_each [0; 1; 2] (λ i,
      v ← sticker c "R" i 2;       set_sticker c "U" 0 i v;;
      v ← sticker c "D" 2 (2 - i); set_sticker c "R" i 2 v;;
      v ← sticker c "L" (2 - i) 0; set_sticker c "D" 2 (2 - i) v;;
      v ← row_get tmp i;           set_sticker c "L" (2 - i) 0 v)
  else if String.eqb face_char "L" then
    t0 ← sticker c "U" 0 0; t1 ← sticker c "U" 1 0; t2 ← sticker c "U" 2 0;
    tmp ← alloc (ORow [t0; t1; t2]);
    for_each [0; 1; 2] (λ i,
      v ← sticker c "B" (2 - i) 2; set_sticker c "U" i 0 v;;
      v ← sticker c "D" i 0;       set_sticker c "B" (2 - i) 2 v;;
      v ← sticker c "F" i 0;       set_sticker c "D" i 0 v;;
      v ← row_get tmp i;           set_sticker c "F" i 0 v)
  else if String.eqb face_char "R" then
    t0 ← sticker c "U" 0 2; t1 ← sticker c "U" 1 2; t2 ← sticker c "U" 2 2;
    tmp ← alloc (ORow [t0; t1; t2]);
    for_each [0; 1; 2] (λ i,
      v ← sticker c "F" i 2;       set_sticker c "U" i 2 v;;
      v ← sticker c "D" i 2;       set_sticker c "F" i 2 v;;
      v ← sticker c "B" (2 - i) 0; set_sticker c "D" i 2 v;;
      v ← row_get tmp i;           set_sticker c "B" (2 - i) 0 v)
  else mret ().

Fixpoint repeat_turn (turns : nat) (face_char : string) (c : loc) : Mem unit :=
  match turns with
  | 0 => mret ()
  | S n => turn_once face_char c;; repeat_turn n face_char c
  end.

(** The argument [c] is only read: the turns work on [c'], the deep copy,
    which is returned. *)
Definition apply_move (c : loc) (move : string) : Mem loc :=
  match move with
  | EmptyString => throw (ValueError ("Invalid move: " +:+ move))
  | String m0 suffix =>
      let face_char := String m0 EmptyString in
      if negb (py_in face_char "UDFBLR")
      then throw (ValueError ("Invalid move: " +:+ move))
      else if negb (py_in_list suffix [""; "'"; "2"])
      then throw (ValueError ("Invalid move suffix: " +:+ suffix))
      else
        c' ← deepcopy c;
        repeat_turn (move_turns suffix) face_char c';;
        mret c'
  end.

(** *** Cubes in and out of the store *)

(** Allocate a cube value as fresh objects without sharing, as a JSON
    decoder builds it. *)
Definition alloc_cube (c : cube) : Mem loc :=
  items ← map_each (λ kg : string * list (list string),
                      l ← alloc_grid kg.2; mret (kg.1, l)) (map_to_list c);
  alloc (ODict (list_to_map items)).

(** The value of the cube object at [c]. *)
Definition read_cube (c : loc) : Mem cube :=
  o ← load c; d ← as_dict o;
  items ← map_each (λ kl : string * loc,
                      g ← read_grid kl.2; mret (kl.1, g)) (map_to_list d);
  mret (list_to_map items).

(** *** The solver on objects *)

Record solver : Type := {
  self_cube : loc;
  self_solution : list string;
  self_face_colors : list (string * string);
  self_max_moves : nat;
  self_white_color : string;
  self_yellow_color : string
}.

(** [CubeSolver(cube)]: [self.cube] is a deep copy of the argument. *)
Definition CubeSolver (c : loc) : Mem solver :=
  c' ← deepcopy c;
  u ← sticker c' "U" 1 1;
  d ← sticker c' "D" 1 1;
  f ← sticker c' "F" 1 1;
  b ← sticker c' "B" 1 1;
  l ← sticker c' "L" 1 1;
  r ← sticker c' "R" 1 1;
  mret {| self_cube := c';
          self_solution := [];
          self_face_colors :=
            [("U", u); ("D", d); ("F", f); ("B", b); ("L", l); ("R", r)];
          self_max_moves := 200;
          self_white_color := u;
          self_yellow_color := d |}.

(** Method bodies: the solver object and the store; both survive an
    exception. *)
Definition SM (A : Type) : Type := solver → store → result A * solver * store.

Definition gets {A} (f : solver → A) : SM A := λ s h, (Ok (f s), s, h).

(** A computation on the store that reads [self.cube]. *)
Definition on_cube {A} (m : loc → Mem A) : SM A :=
  λ s h, let r := m (self_cube s) h in (r.1, s, r.2).

Definition SM_try {A} (body : SM A) (handler : exn → SM A) : SM A :=
  λ s h, match body s h with
         | (Ok a, s', h') => (Ok a, s', h')
         | (Raise e, s', h') => handler e s' h'
         end.

Definition SM_move_cube (move : string) : SM unit :=
  λ s h, match apply_move (self_cube s) move h with
         | (Ok c, h') =>
             (Ok (), {| self_cube := c;
                        self_solution := self_solution s;
                        self_face_colors := self_face_colors s;
                        self_max_moves := self_max_moves s;
                        self_white_color := self_white_color s;
                        self_yellow_color := self_yellow_color s |}, h')
         | (Raise e, h') => (Raise e, s, h')
         end.

Definition SM_log_move (move : string) : SM unit :=
  λ s h, (Ok (), {| self_cube := self_cube s;
                    self_solution := self_solution s ++ [move];
                    self_face_colors := self_face_colors s;
                    self_max_moves := self_max_moves s;
                    self_white_color := self_white_color s;
                    self_yellow_color := self_yellow_color s |}, h).

(** [validate_cube] and [is_cube_solved] only read their argument: they are
    the functions on values, at the value of the object. *)
#[global] Instance store_ops : SolverOps SM := {|
  solver_ret := λ A a s h, (Ok a, s, h);
  solver_bind := λ A B f m s h,
    match m s h with
    | (Ok a, s', h') => f a s' h'
    | (Raise e, s', h') => (Raise e, s', h')
    end;
  raise := λ A e s h, (Raise e, s, h);
  try_except := @SM_try;
  cube_at := λ f r k, on_cube (λ c, sticker c f r k);
  validate := on_cube (λ c, v ← read_cube c; lift (validate_cube v));
  is_solved := on_cube (λ c, v ← read_cube c; lift (is_cube_solved v));
  move_cube := SM_move_cube;
  face_colors := gets self_face_colors;
  white_color := gets self_white_color;
  yellow_color := gets self_yellow_color;
  max_moves := gets self_max_moves;
  solution := gets self_solution;
  log_move := SM_log_move
|}.

(** Run a method on a solver object and a store. *)
Definition run {A} (m : SM A) (s : solver) (h : store)
  : result A * solver * store := m s h.

(** [CubeSolver(state).solve()] on the cube object at [c]. *)
Definition solve_cube (c : loc) : Mem (list string) :=
  λ h, match CubeSolver c h with
       | (Ok s, h1) => let r := run solve s h1 in (r.1.1, r.2)
       | (Raise e, h1) => (Raise e, h1)
       end.

(** *** References that stay inside the new objects *)

(** The object refers only to objects allocated at [n] or later. *)
Definition obj_fresh (n : nat) (o : obj) : Prop :=
  match o with
  | ODict d => map_Forall (λ _ l, n ≤ l) d
  | OFace rows => Forall (λ l, n ≤ l) rows
  | ORow _ => True
  end.

(** Objects allocated at [n] or later refer only to such objects. *)
Definition closed (n : nat) (h : store) : Prop :=
  ∀ l o, n ≤ l → h !! l = Some o → obj_fresh n o.

(** [h] extends the caller's store [h0], whose objects are unchanged. *)
Definition extends (h0 h : store) : Prop :=
  h0 `prefix_of` h ∧ closed (length h0) h.

(** From a store that extends [h0] the computation reaches a store that
    extends [h0], and a value it returns satisfies [Q]. *)
Definition safe {A} (h0 : store) (m : Mem A) (Q : A → Prop) : Prop :=
  ∀ h, extends h0 h →
    extends h0 (m h).2 ∧ ∀ a, (m h).1 = Ok a → Q a.

(** The method keeps the caller's objects and works on a cube allocated
    after them. *)
Definition frames (h0 : store) (A : Type) (m : SM A) : Prop :=
  ∀ s h, extends h0 h → length h0 ≤ self_cube s →
    extends h0 (run m s h).2 ∧ length h0 ≤ self_cube (run m s h).1.2.

(** The computation only reads the store: where it returns, the store is as
    before, and in a store with more objects at the end it returns the
    same. *)
Definition reads {A} (m : Mem A) : Prop :=
  ∀ h h' a, h `prefix_of` h' → (m h).1 = Ok a →
    (m h).2 = h ∧ m h' = (Ok a, h').

End Store.

(** ** Structural validity and the move grammar *)

Definition grid3 (g : face) : Prop :=
  length g = 3 ∧ Forall (λ row : list string, length row = 3) g.

(** Exactly the six face keys, each face a 3x3 grid. *)
Definition well_shaped (c : cube) : Prop :=
  dom c = valid_faces ∧ map_Forall (λ _ g, grid3 g) c.

(** The colour tokens of the cube, face by face, row by row. *)
Definition tokens (c : cube) : list string :=
  concat (concat ((map_to_list c).*2)).

Definition structurally_valid (c : cube) : Prop :=
  well_shaped c ∧ size (list_to_set (tokens c) : gset string) ≤ 6.

Definition face_letters : list string := ["U"; "D"; "F"; "B"; "L"; "R"].
Definition suffixes : list string := [""; "'"; "2"].

(** The move texts of the grammar: a face letter and a suffix. *)
Definition move_texts : list string :=
  f ← face_letters; s ← suffixes; [f +:+ s].

Definition valid_move (m : string) : Prop := m ∈ move_texts.

(** The syntactic inverse of a move text. *)
Definition inverse_move (m : string) : string :=
  match m with
  | EmptyString => EmptyString
  | String f suffix =>
      if suffix == "" then String f "'"
      else if suffix == "'" then String f ""
      else m
  end.

(** The solved cube after [R U R' U']. *)
Definition scrambled_cube : cube :=
  mk_cube [["W"; "W"; "O"]; ["W"; "W"; "G"]; ["W"; "W"; "G"]]
          [["Y"; "Y"; "R"]; ["Y"; "Y"; "Y"]; ["Y"; "Y"; "Y"]]
          [["G"; "G"; "Y"]; ["G"; "G"; "W"]; ["G"; "G"; "G"]]
          [["B"; "R"; "R"]; ["B"; "B"; "B"]; ["B"; "B"; "B"]]
          [["B"; "O"; "O"]; ["O"; "O"; "O"]; ["O"; "O"; "O"]]
          [["R"; "R"; "W"]; ["B"; "R"; "R"]; ["W"; "R"; "R"]].

#[global] Instance grid3_dec (g : face) : Decision (grid3 g).
Proof. unfold grid3. apply _. Defined.

#[global] Instance well_shaped_dec (c : cube) : Decision (well_shaped c).
Proof. unfold well_shaped. apply _. Defined.

(** The six faces of a result, read back as plain lists. *)
Definition faces6 (r : result cube)
  : option (face * face * face * face * face * face) :=
  match r with
  | Ok c =>
      u ← c !! "U"; d ← c !! "D"; f ← c !! "F";
      b ← c !! "B"; l ← c !! "L"; r ← c !! "R";
      Some (u, d, f, b, l, r)
  | Raise _ => None
  end.

(** ** Well-formed move texts *)

(** The first character of the move text is a face letter. *)
Definition head_is_face (m : string) : Prop :=
  match m with
  | EmptyString => False
  | String a _ => String a "" ∈ face_letters
  end.

#[global] Instance head_is_face_dec (m : string) : Decision (head_is_face m).
Proof. destruct m; apply _. Defined.

(** What follows the first character is one of the three suffixes. *)
Definition suffix_ok (m : string) : Prop := str_tail m ∈ suffixes.

(** ** Cubes the validator must reject, and one it accepts *)

Definition seven_colors : cube :=
  <["U":=[["W"; "W"; "W"]; ["W"; "W"; "W"]; ["W"; "W"; "P"]]]> solved_cube.

Definition four_rows : cube :=
  <["F":=[["G"; "G"; "G"]; ["G"; "G"; "G"]; ["G"; "G"; "G"]; ["G"; "G"; "G"]]]>
    solved_cube.

Definition missing_face : cube := delete "L" solved_cube.

(** A single colour on all 54 stickers: well-formed, but no turn sequence
    reaches it from a real cube. *)
Definition monochrome : cube :=
  mk_cube (plain "W") (plain "W") (plain "W") (plain "W") (plain "W") (plain "W").

(** ** The merge pass as the specification words it *)

(** The face letter of a move text. *)
Definition face_letter (m : string) : string :=
  match m with
  | EmptyString => EmptyString
  | String a _ => String a EmptyString
  end.

(** Quarter-turn count of a move text: 1 for no suffix, 2 for ["2"], 3 for
    the prime. *)
Definition quarter_turns (m : string) : nat :=
  let s := str_tail m in
  if s == "" then 1 else if s == "2" then 2 else 3.

(** The suffix that writes 1, 2 or 3 quarter turns. *)
Definition turn_suffix (t : nat) : string :=
  match t with
  | 1 => ""
  | 2 => "2"
  | _ => "'"
  end.

(** One pass from left to right: two adjacent moves of one face become the
    single move of their summed turns modulo 4 (nothing when the sum is 0)
    and the pass goes on after the pair; any other move is kept and the pass
    goes on with the next one. *)
Fixpoint merge_pass_spec (l : list string) : list string :=
  match l with
  | [] => []
  | m1 :: rest =>
      match rest with
      | [] => [m1]
      | m2 :: rest' =>
          if face_letter m1 == face_letter m2 then
            let t := (quarter_turns m1 + quarter_turns m2) mod 4 in
            if t == 0 then merge_pass_spec rest'
            else (face_letter m1 +:+ turn_suffix t) :: merge_pass_spec rest'
          else m1 :: merge_pass_spec rest
      end
  end.

(** A solver object whose log is [log]. *)
Definition solver_with_log (c : cube) (log : list string) : solver :=
  {| self_cube := c;
     self_solution := log;
     self_face_colors := [];
     self_max_moves := 200;
     self_white_color := "";
     self_yellow_color := "" |}.

(** ** Outcomes of a method call *)

(** The call raises. *)
Definition raises {A} (m : M A) (s : solver) : Prop :=
  ∃ e, (run m s).1 = Raise e.

(** The corners of the table that lie in the bottom layer. *)
Definition bottom_corners : list corner := drop 4 corners.

(** ** The move budget *)

(** A structurally valid cube, with six colours and six different centres,
    on which the log of the solve run passes the budget. *)
Definition overshoot_cube : cube :=
  mk_cube [["W"; "G"; "B"]; ["Y"; "W"; "W"]; ["R"; "Y"; "B"]]
          [["B"; "B"; "W"]; ["O"; "Y"; "B"]; ["G"; "O"; "B"]]
          [["B"; "W"; "W"]; ["Y"; "G"; "Y"]; ["G"; "W"; "W"]]
          [["O"; "O"; "O"]; ["B"; "B"; "G"]; ["O"; "O"; "G"]]
          [["G"; "R"; "R"]; ["O"; "O"; "W"]; ["B"; "Y"; "R"]]
          [["O"; "O"; "W"]; ["B"; "R"; "O"]; ["G"; "B"; "G"]].

(** [CubeSolver(overshoot_cube)] *)
Definition overshoot_solver : solver :=
  {| self_cube := overshoot_cube;
     self_solution := [];
     self_face_colors :=
       [("U", "W"); ("D", "Y"); ("F", "G"); ("B", "B"); ("L", "O"); ("R", "R")];
     self_max_moves := 200;
     self_white_color := "W";
     self_yellow_color := "Y" |}.

(** The budget is 200 and the log holds at most 199 + 11 entries: the longest
    batch of the stages has 11 moves. *)
Definition log_bounded (s : solver) : Prop :=
  self_max_moves s = 200 ∧ length (self_solution s) ≤ 210.

(** The method keeps [log_bounded], whatever it returns or raises. *)
Definition keeps (A : Type) (m : M A) : Prop :=
  ∀ s, log_bounded s → log_bounded (run m s).2.

(** Every copy recorded in the memo was allocated at [n] or later. *)
Definition memo_fresh (n : nat) (memo : gmap nat nat) : Prop :=
  map_Forall (λ _ l, n ≤ l) memo.

(** [apply_move] through the store: the cube is allocated in the empty
    store, moved there, and the returned object is read back. *)
Definition via_store (c : cube) (move : string) : result cube :=
  ((l ← Store.alloc_cube c; l' ← Store.apply_move l move; Store.read_cube l')
     []).1.

#[global] Instance valid_move_dec (m : string) : Decision (valid_move m).
Proof. unfold valid_move. apply _. Defined.

(** * The /solve route

    The route is modelled from the decoded request body on: [None] is a body
    that decodes to [null], [Some d] a JSON object with the members [d].  The
    member [cube], the only one read, has the type of a cube: a dictionary
    of lists of lists of tokens.  Logging is left out. *)

(** The JSON values the route sends. *)
Inductive json : Type :=
  | JStr (s : string)
  | JList (l : list string).

(** [jsonify(body), status] *)
Record response : Type := {
  resp_body : gmap string json;
  resp_status : nat
}.

(** [str(e)] for the exceptions that reach the handler of the route; an
    index error there comes from a list. *)
Definition exn_str (e : exn) : string :=
  match e with
  | ValueError msg => msg
  | KeyError key => "'" +:+ key +:+ "'"
  | IndexError => "list index out of range"
  | NameError name => "name '" +:+ name +:+ "' is not defined"
  | TypeError msg => msg
  | Exception msg => msg
  end.

(** The body of the [try] block of the route. *)
Definition solve_route_try (cube_state : cube) : result response :=
  validate_cube cube_state;;
  solved ← is_cube_solved cube_state;
  if (solved : bool) then
    Ok {| resp_body := {[ "solution" := JList [];
                          "sequence" := JStr "Cube is already solved!" ]};
          resp_status := 200 |}
  else
    solver ← CubeSolver cube_state;
    solution_moves ← (run solve solver).1;
    let sequence :=
      match solution_moves with
      | [] => "Cube is already solved!"
      | _ => String.concat " " solution_moves
      end in
    Ok {| resp_body := {[ "solution" := JList solution_moves;
                          "sequence" := JStr sequence ]};
          resp_status := 200 |}.

Definition solve_route (data : option (gmap string cube)) : response :=
  let no_cube :=
    {| resp_body :=
         {[ "error" := JStr "Invalid request, no cube data provided." ]};
       resp_status := 400 |} in
  match data with
  | None => no_cube
  | Some d =>
      if decide (d = ∅) then no_cube
      else
        match d !! "cube" with
        | None => no_cube
        | Some cube_state =>
            match solve_route_try cube_state with
            | Ok r => r
            | Raise e =>
                {| resp_body :=
                     {[ "error" := JStr ("An error occurred: " +:+ exn_str e) ]};
                   resp_status := 400 |}
            end
        end
  end.

(** * Definitions for the further properties *)

(** ** Grids and moves *)

(** The sticker in row [i], column [j] of a grid. *)
Definition cell (g : face) (i j : nat) : option string := g !! i ≫= (.!! j).

(** A grid of [r] rows of [n] stickers each. *)
Definition rect (r n : nat) (g : face) : Prop :=
  length g = r ∧ Forall (λ row : list string, length row = n) g.

(** Pairs of opposite faces. *)
Definition opposite_faces : list (string * string) :=
  [("U", "D"); ("D", "U"); ("F", "B"); ("B", "F"); ("L", "R"); ("R", "L")].

(** Two calls of [apply_move] through the store: the second works on the
    object that the first returns. *)
Definition via_store_twice (c : cube) (m1 m2 : string) : result cube :=
  ((l ← Store.alloc_cube c; l1 ← Store.apply_move l m1;
    l2 ← Store.apply_move l1 m2; Store.read_cube l2) []).1.

(** ** Solved faces *)

(** The face [f] of the cube has a centre sticker and every sticker of the
    face equals it. *)
Definition face_uniform (c : cube) (f : string) : Prop :=
  ∃ g x, c !! f = Some g ∧ sticker c f 1 1 = Ok x ∧
    Forall (Forall (λ s, s = x)) g.

(** ** The optimizer *)

(** No two neighbours in the list turn the same face. *)
Fixpoint adjacent_faces_differ (sol : list string) : Prop :=
  match sol with
  | m1 :: rest =>
      match rest with
      | m2 :: _ => face_letter m1 ≠ face_letter m2 ∧ adjacent_faces_differ rest
      | [] => True
      end
  | [] => True
  end.

(** ** The tables of edges and corners *)

(** The stickers at the two positions of an edge of the table, and at the
    three positions of a corner. *)
Definition edge_colors (c : cube) (e : edge) : result (list string) :=
  let '(f1, r1, c1, f2, r2, c2) := e in
  a ← sticker c f1 r1 c1; b ← sticker c f2 r2 c2; Ok [a; b].

Definition corner_colors (c : cube) (cn : corner) : result (list string) :=
  let '(f1, r1, c1, f2, r2, c2, f3, r3, c3) := cn in
  a ← sticker c f1 r1 c1; b ← sticker c f2 r2 c2; d ← sticker c f3 r3 c3;
  Ok [a; b; d].

(** The stickers at the positions [p] of the cube are, as a set, the
    colours [want]. *)
Definition colors_match {P} (colors : cube → P → result (list string))
    (c : cube) (want : list string) (p : P) : Prop :=
  ∃ found, colors c p = Ok found ∧
    (list_to_set found : gset string) = list_to_set want.

(** [r] is the first entry of [table] that matches, or [None] when no
    entry matches. *)
Definition first_match {P} (matches : P → Prop) (table : list P)
    (r : option P) : Prop :=
  match r with
  | Some p =>
      ∃ before after, table = before ++ p :: after ∧
        matches p ∧ Forall (λ q, ¬ matches q) before
  | None => Forall (λ q, ¬ matches q) table
  end.

(** ** The log of a solve run *)

(** The log replayed from the input state [c0] gives the solver's working
    cube, every entry of the log is a move of the grammar, and the
    attributes set by the constructor are those of [s0]. *)
Definition log_replays (c0 : cube) (s0 s : solver) : Prop :=
  replay c0 (self_solution s) = Ok (self_cube s) ∧
  Forall valid_move (self_solution s) ∧
  self_face_colors s = self_face_colors s0 ∧
  self_max_moves s = self_max_moves s0 ∧
  self_white_color s = self_white_color s0 ∧
  self_yellow_color s = self_yellow_color s0.

(** The method keeps [log_replays], whatever it returns or raises. *)
Definition keeps_replay (c0 : cube) (s0 : solver) (A : Type) (m : M A) : Prop :=
  ∀ s, log_replays c0 s0 s → log_replays c0 s0 (run m s).2.

(** ** More concrete cubes *)

(** A structurally valid, unsolved cube on which the stages run to their end
    and return a move list. *)
Definition returning_cube : cube :=
  mk_cube [["Y"; "W"; "R"]; ["Y"; "W"; "B"]; ["W"; "W"; "Y"]]
          [["R"; "R"; "O"]; ["W"; "Y"; "O"]; ["Y"; "B"; "R"]]
          [["Y"; "R"; "Y"]; ["W"; "G"; "W"]; ["G"; "B"; "Y"]]
          [["W"; "G"; "W"]; ["W"; "B"; "W"]; ["Y"; "R"; "R"]]
          [["Y"; "W"; "B"]; ["O"; "O"; "Y"]; ["B"; "G"; "O"]]
          [["Y"; "G"; "R"]; ["Y"; "R"; "G"]; ["Y"; "B"; "Y"]].

(** The solved cube after [F2]: the white corner of the faces [F] and [L]
    lies in the bottom layer. *)
Definition half_turn_cube : cube :=
  mk_cube [["W"; "W"; "W"]; ["W"; "W"; "W"]; ["Y"; "Y"; "Y"]]
          [["W"; "W"; "W"]; ["Y"; "Y"; "Y"]; ["Y"; "Y"; "Y"]]
          (plain "G") (plain "B")
          [["O"; "O"; "R"]; ["O"; "O"; "R"]; ["O"; "O"; "R"]]
          [["O"; "R"; "R"]; ["O"; "R"; "R"]; ["O"; "R"; "R"]].

(** [CubeSolver(half_turn_cube)] *)
Definition half_turn_solver : solver :=
  {| self_cube := half_turn_cube;
     self_solution := [];
     self_face_colors :=
       [("U", "W"); ("D", "Y"); ("F", "G"); ("B", "B"); ("L", "O"); ("R", "R")];
     self_max_moves := 200;
     self_white_color := "W";
     self_yellow_color := "Y" |}.

(** * Properties *)

(** ** Shape of a well-shaped cube *)

Lemma well_shaped_mk_cube (c : cube) :
  well_shaped c →
  ∃ u d f b l r, c = mk_cube u d f b l r ∧
    grid3 u ∧ grid3 d ∧ grid3 f ∧ grid3 b ∧ grid3 l ∧ grid3 r.
Proof.
  intros [Hdom Hall].
  assert (Hin : ∀ k, k ∈ valid_faces → ∃ g, c !! k = Some g ∧ grid3 g).
  { intros k Hk. rewrite <- Hdom in Hk. apply elem_of_dom in Hk as [g Hg].
    exists g. split; [done|]. by apply (Hall k g). }
  assert (Hf6 : ∀ k, k ∈ valid_faces ↔
            k = "U" ∨ k = "D" ∨ k = "F" ∨ k = "B" ∨ k = "L" ∨ k = "R").
  { intros k. unfold valid_faces. set_unfold. tauto. }
  destruct (Hin "U") as (u & Hu & Gu); [apply Hf6; tauto|].
  destruct (Hin "D") as (d & Hd & Gd); [apply Hf6; tauto|].
  destruct (Hin "F") as (f & Hf & Gf); [apply Hf6; tauto|].
  destruct (Hin "B") as (b & Hb & Gb); [apply Hf6; tauto|].
  destruct (Hin "L") as (l & Hl & Gl); [apply Hf6; tauto|].
  destruct (Hin "R") as (r & Hr & Gr); [apply Hf6; tauto|].
  exists u, d, f, b, l, r. split; [|done].
  apply map_eq. intros k. unfold mk_cube.
  destruct (decide (k ∈ valid_faces)) as [Hk|Hk].
  - apply Hf6 in Hk.
    destruct Hk as [->|[->|[->|[->|[->| ->]]]]]; simplify_map_eq; reflexivity.
  - assert (Hn : c !! k = None).
    { apply not_elem_of_dom. by rewrite Hdom. }
    rewrite Hn. rewrite Hf6 in Hk.
    rewrite !lookup_insert_ne by (intros <-; tauto). by rewrite lookup_empty.
Qed.

Lemma grid3_inv (g : face) :
  grid3 g →
  ∃ a0 a1 a2 b0 b1 b2 c0 c1 c2,
    g = [[a0; a1; a2]; [b0; b1; b2]; [c0; c1; c2]].
Proof.
  intros [Hl Hall].
  destruct g as [|r0 [|r1 [|r2 [|]]]]; simpl in Hl; try discriminate.
  apply Forall_cons in Hall as [H0 Hall].
  apply Forall_cons in Hall as [H1 Hall].
  apply Forall_cons in Hall as [H2 _].
  destruct r0 as [|a0 [|a1 [|a2 [|]]]]; simpl in H0; try discriminate.
  destruct r1 as [|b0 [|b1 [|b2 [|]]]]; simpl in H1; try discriminate.
  destruct r2 as [|c0 [|c1 [|c2 [|]]]]; simpl in H2; try discriminate.
  by exists a0, a1, a2, b0, b1, b2, c0, c1, c2.
Qed.

(** Replace a well-shaped cube by [mk_cube] over 54 token variables. *)
Ltac cube_cases H :=
  apply well_shaped_mk_cube in H
    as (?u & ?d & ?f & ?b & ?l & ?r & -> & ?Gu & ?Gd & ?Gf & ?Gb & ?Gl & ?Gr);
  repeat match goal with
  | G : grid3 _ |- _ =>
      apply grid3_inv in G as (? & ? & ? & ? & ? & ? & ? & ? & ? & ->)
  end.

Lemma face_letters_cases (f : string) :
  f ∈ face_letters →
  f = "U" ∨ f = "D" ∨ f = "F" ∨ f = "B" ∨ f = "L" ∨ f = "R".
Proof. unfold face_letters. set_unfold. tauto. Qed.

Lemma suffixes_cases (s : string) :
  s ∈ suffixes → s = "" ∨ s = "'" ∨ s = "2".
Proof. unfold suffixes. set_unfold. tauto. Qed.

Lemma valid_move_inv (m : string) :
  valid_move m ↔ ∃ f s, f ∈ face_letters ∧ s ∈ suffixes ∧ m = f +:+ s.
Proof.
  unfold valid_move, move_texts. rewrite list_elem_of_bind. split.
  - intros (f & Hm & Hf). apply list_elem_of_bind in Hm as (s & Hm & Hs).
    apply list_elem_of_singleton in Hm. eauto.
  - intros (f & s & Hf & Hs & ->). exists f. split; [|done].
    apply list_elem_of_bind. exists s. split; [|done].
    by apply list_elem_of_singleton.
Qed.

Lemma mk_cube_well_shaped (u d f b l r : face) :
  grid3 u → grid3 d → grid3 f → grid3 b → grid3 l → grid3 r →
  well_shaped (mk_cube u d f b l r).
Proof.
  intros Gu Gd Gf Gb Gl Gr. split.
  - unfold mk_cube, valid_faces. rewrite !dom_insert_L, dom_empty_L.
    apply set_eq. intros k. set_unfold. tauto.
  - unfold mk_cube. repeat apply map_Forall_insert_2; try done.
Qed.

(** ** Quarter turns on a well-shaped cube *)

Ltac face_cases H :=
  apply face_letters_cases in H as [->|[->|[->|[->|[->| ->]]]]].

(** Evaluate a cube computation on [mk_cube] and give the result as a
    [mk_cube] again. *)
Ltac eval_cube :=
  lazymatch goal with
  | |- ∃ c', ?t = Ok c' ∧ _ =>
      let v := eval vm_compute in (faces6 t) in
      lazymatch v with
      | Some (?u, ?d, ?f, ?b, ?l, ?r) =>
          exists (mk_cube u d f b l r); split;
          [vm_cast_no_check (@eq_refl _ (Ok (mk_cube u d f b l r)))|]
      end
  end.

Ltac by_eval :=
  lazymatch goal with
  | |- _ = ?r => vm_cast_no_check (@eq_refl _ r)
  end.

Ltac shape_mk_cube :=
  apply mk_cube_well_shaped; (split; [reflexivity|repeat constructor]).

(** [x :: l ≡ₚ r] where [x] occurs in the explicit list [r]. *)
Ltac split_at x r :=
  lazymatch r with
  | x :: ?t => constr:((@nil string, t))
  | ?h :: ?t =>
      let p := split_at x t in
      lazymatch p with
      | (?l1, ?l2) => constr:((h :: l1, l2))
      end
  end.

Ltac perm_explicit :=
  repeat lazymatch goal with
  | |- [] ≡ₚ [] => reflexivity
  | |- ?x :: ?l ≡ₚ ?r =>
      let p := split_at x r in
      lazymatch p with
      | (?l1, ?l2) =>
          change r with (l1 ++ x :: l2);
          apply Permutation_cons_app; cbn [app]
      end
  end.

Ltac tokens_explicit :=
  repeat lazymatch goal with
  | |- context [tokens ?c] =>
      let l := eval vm_compute in (tokens c) in
      replace (tokens c) with l by (symmetry; by_eval)
  end.

Lemma turn_once_spec (c : cube) (f : string) :
  well_shaped c → f ∈ face_letters →
  ∃ c', turn_once f c = Ok c' ∧ well_shaped c' ∧ tokens c' ≡ₚ tokens c.
Proof.
  intros Hc Hf. cube_cases Hc.
  face_cases Hf; eval_cube; (split; [shape_mk_cube|]);
    tokens_explicit; perm_explicit.
Qed.

Lemma turn_four (c : cube) (f : string) :
  well_shaped c → f ∈ face_letters → repeat_turn 4 f c = Ok c.
Proof.
  intros Hc Hf. cube_cases Hc. face_cases Hf; by_eval.
Qed.

Lemma repeat_turn_add (a b : nat) (f : string) (c : cube) :
  repeat_turn (a + b) f c = c' ← repeat_turn a f c; repeat_turn b f c'.
Proof.
  revert c. induction a as [|a IH]; intros c; simpl; [done|].
  destruct (turn_once f c) as [c1|e]; simpl; [apply IH|done].
Qed.

Lemma repeat_turn_spec (n : nat) (c : cube) (f : string) :
  well_shaped c → f ∈ face_letters →
  ∃ c', repeat_turn n f c = Ok c' ∧ well_shaped c' ∧ tokens c' ≡ₚ tokens c.
Proof.
  intros Hc Hf. revert c Hc. induction n as [|n IH]; intros c Hc; simpl.
  - by exists c.
  - destruct (turn_once_spec c f Hc Hf) as (c1 & -> & Hc1 & Hp1). simpl.
    destruct (IH c1 Hc1) as (c2 & -> & Hc2 & Hp2).
    exists c2. split; [done|]. split; [done|]. by rewrite Hp2.
Qed.

Lemma repeat_turn_mod4 (n : nat) (c : cube) (f : string) :
  well_shaped c → f ∈ face_letters →
  repeat_turn n f c = repeat_turn (n mod 4) f c.
Proof.
  intros Hc Hf. rewrite (Nat.div_mod_eq n 4) at 1.
  generalize (n mod 4) as r. induction (n / 4) as [|q IH]; intros r.
  - by rewrite Nat.mul_0_r.
  - replace (4 * S q + r) with (4 + (4 * q + r)) by lia.
    rewrite repeat_turn_add, turn_four by done. apply IH.
Qed.

(** A valid move text runs [move_turns] quarter turns of its face. *)
Lemma apply_move_valid (c : cube) (f s : string) :
  f ∈ face_letters → s ∈ suffixes →
  apply_move c (f +:+ s) = repeat_turn (move_turns s) f c.
Proof.
  intros Hf Hs. face_cases Hf;
    apply suffixes_cases in Hs as [->|[->| ->]]; reflexivity.
Qed.

Lemma apply_move_spec (c : cube) (m : string) :
  well_shaped c → valid_move m →
  ∃ c', apply_move c m = Ok c' ∧ well_shaped c' ∧ tokens c' ≡ₚ tokens c.
Proof.
  intros Hc (f & s & Hf & Hs & ->)%valid_move_inv.
  rewrite apply_move_valid by done. by apply repeat_turn_spec.
Qed.

(** ** C4, C5 *)

(** C4. On a structurally valid cube a valid move succeeds and the result
    holds the same multiset of colour tokens as the input: [apply_move]
    only permutes the stickers. *)
Theorem apply_move_permutes_tokens (c : cube) (m : string) :
  structurally_valid c → valid_move m →
  ∃ c', apply_move c m = Ok c' ∧ tokens c' ≡ₚ tokens c ∧ length (tokens c') = 54.
Proof.
  intros [Hc _] Hm.
  destruct (apply_move_spec c m Hc Hm) as (c' & Hok & Hc' & Hp).
  exists c'. split; [done|]. split; [done|].
  clear -Hc'. cube_cases Hc'. by_eval.
Qed.

(** ** C5: four repetitions and the inverse *)

Lemma replay_turns (c : cube) (f : string) (ss : list string) :
  well_shaped c → f ∈ face_letters → Forall (λ s, s ∈ suffixes) ss →
  replay c ((λ s, f +:+ s) <$> ss) =
  repeat_turn (sum_list (move_turns <$> ss)) f c.
Proof.
  intros Hc Hf Hss. revert c Hc.
  induction Hss as [|s ss Hs _ IH]; intros c Hc; [done|].
  destruct (repeat_turn_spec (move_turns s) c f Hc Hf) as (c1 & Heq & Hc1 & _).
  change (sum_list (move_turns <$> s :: ss))
    with (move_turns s + sum_list (move_turns <$> ss)).
  cbn [fmap list_fmap replay].
  rewrite apply_move_valid, repeat_turn_add, Heq by done.
  by apply IH.
Qed.

Lemma inverse_move_valid (f s : string) :
  f ∈ face_letters → s ∈ suffixes →
  ∃ s', s' ∈ suffixes ∧ inverse_move (f +:+ s) = f +:+ s' ∧
        move_turns s + move_turns s' = 4.
Proof.
  intros Hf Hs. face_cases Hf;
    apply suffixes_cases in Hs as [->|[->| ->]];
    [exists "'" | exists "" | exists "2" | exists "'" | exists "" | exists "2"
    |exists "'" | exists "" | exists "2" | exists "'" | exists "" | exists "2"
    |exists "'" | exists "" | exists "2" | exists "'" | exists "" | exists "2"];
    (split; [unfold suffixes; set_solver | split; reflexivity]).
Qed.

(** C5. On a structurally valid cube, a valid move applied four times gives
    back the cube exactly, and a valid move followed by its syntactic
    inverse gives back the cube exactly. *)
Theorem move_order_four_and_inverse (c : cube) (m : string) :
  structurally_valid c → valid_move m →
  replay c [m; m; m; m] = Ok c ∧ replay c [m; inverse_move m] = Ok c.
Proof.
  intros [Hc _] (f & s & Hf & Hs & ->)%valid_move_inv. split.
  - change [f +:+ s; f +:+ s; f +:+ s; f +:+ s]
      with ((λ s, f +:+ s) <$> [s; s; s; s]).
    rewrite replay_turns;
      [|done|done|repeat (apply Forall_cons_2; [assumption|]); apply Forall_nil_2].
    rewrite repeat_turn_mod4 by done.
    replace (sum_list (move_turns <$> [s; s; s; s]) mod 4) with 0; [done|].
    by destruct (suffixes_cases s Hs) as [->|[->| ->]].
  - destruct (inverse_move_valid f s Hf Hs) as (s' & Hs' & -> & Hsum).
    change [f +:+ s; f +:+ s'] with ((λ s, f +:+ s) <$> [s; s']).
    rewrite replay_turns;
      [|done|done|repeat (apply Forall_cons_2; [assumption|]); apply Forall_nil_2].
    cbn. rewrite Nat.add_0_r, Hsum. by apply turn_four.
Qed.

(** ** C8: failures of apply_move *)

Lemma py_in_list_decide (x : string) (l : list string) :
  py_in_list x l = bool_decide (x ∈ l).
Proof.
  unfold py_in_list. induction l as [|y l IH]; simpl; [done|].
  rewrite IH. destruct (String.eqb_spec x y) as [->|Hne].
  - symmetry. apply bool_decide_eq_true. left.
  - destruct (bool_decide (x ∈ l)) eqn:E; simpl; symmetry.
    + apply bool_decide_eq_true. right. by apply bool_decide_eq_true in E.
    + apply bool_decide_eq_false. apply bool_decide_eq_false in E.
      by intros [?|?]%elem_of_cons.
Qed.

Lemma face_char_decide (a : Ascii.ascii) :
  py_in (String a "") "UDFBLR" = bool_decide (String a "" ∈ face_letters).
Proof.
  destruct a as [[] [] [] [] [] [] [] []]; by_eval.
Qed.

Lemma head_is_face_inv (m : string) :
  head_is_face m ↔ ∃ f rest, f ∈ face_letters ∧ m = f +:+ rest.
Proof.
  split.
  - destruct m as [|a rest]; [done|]. intros Hf. by exists (String a ""), rest.
  - intros (f & r & Hf & ->). face_cases Hf; cbn; repeat constructor.
Qed.

Lemma valid_move_head_suffix (m : string) :
  valid_move m ↔ head_is_face m ∧ suffix_ok m.
Proof.
  rewrite valid_move_inv. split.
  - intros (f & s & Hf & Hs & ->). split; [apply head_is_face_inv; eauto|].
    unfold suffix_ok. by face_cases Hf.
  - intros [(f & r & Hf & ->)%head_is_face_inv Hs]. exists f, r. split; [done|]. split; [|done].
    unfold suffix_ok in Hs. by face_cases Hf.
Qed.

(** C8. [apply_move] raises the invalid-move error exactly when the text does
    not start with a face letter (the empty text included), the
    invalid-suffix error when it does but the rest is not one of the three
    suffixes, and on a structurally valid cube it fails if and only if the
    text is outside the grammar. *)
Theorem apply_move_fails_iff_malformed (c : cube) (m : string) :
  (¬ head_is_face m →
     apply_move c m = Raise (ValueError ("Invalid move: " +:+ m))) ∧
  (head_is_face m → ¬ suffix_ok m →
     apply_move c m =
     Raise (ValueError ("Invalid move suffix: " +:+ str_tail m))) ∧
  (structurally_valid c → valid_move m → ∃ c', apply_move c m = Ok c') ∧
  (structurally_valid c → is_ok (apply_move c m) = false ↔ ¬ valid_move m).
Proof.
  assert (Hbad : ¬ head_is_face m →
            apply_move c m = Raise (ValueError ("Invalid move: " +:+ m))).
  { destruct m as [|a rest]; [done|]. cbn [head_is_face]. intros Hh.
    unfold apply_move. rewrite face_char_decide.
    by rewrite bool_decide_eq_false_2. }
  assert (Hsuf : head_is_face m → ¬ suffix_ok m →
            apply_move c m =
            Raise (ValueError ("Invalid move suffix: " +:+ str_tail m))).
  { destruct m as [|a rest]; [done|].
    cbn [head_is_face]. unfold suffix_ok. cbn [str_tail]. intros Hh Hs.
    unfold apply_move. rewrite face_char_decide, bool_decide_eq_true_2 by done.
    cbn [negb]. change [""; "'"; "2"] with suffixes.
    by rewrite py_in_list_decide, bool_decide_eq_false_2. }
  assert (Hok : structurally_valid c → valid_move m →
            ∃ c', apply_move c m = Ok c').
  { intros [Hc _] Hm. destruct (apply_move_spec c m Hc Hm) as (c' & ? & _).
    by exists c'. }
  split; [done|]. split; [done|]. split; [done|].
  intros Hc. split.
  - intros Hf Hm. destruct (Hok Hc Hm) as (c' & Heq). by rewrite Heq in Hf.
  - intros Hm. rewrite valid_move_head_suffix in Hm.
    destruct (decide (head_is_face m)) as [Hh|Hh].
    + rewrite Hsuf; [done|done|tauto].
    + by rewrite Hbad.
Qed.

(** ** C9: validate_cube *)

Lemma validate_rows_spec (f : string) (rows : face) (colors : gset string) :
  (Forall (λ row : list string, length row = 3) rows ∧
   validate_rows f rows colors = Ok (colors ∪ list_to_set (concat rows))) ∨
  (¬ Forall (λ row : list string, length row = 3) rows ∧
   ∃ msg, validate_rows f rows colors = Raise (ValueError msg)).
Proof.
  revert colors. induction rows as [|row rows IH]; intros colors; simpl.
  - left. split; [constructor|]. by rewrite union_empty_r_L.
  - destruct (decide (length row ≠ 3)) as [Hne|Heq].
    + right. split; [|eauto]. by intros [? _]%Forall_cons.
    + assert (length row = 3) by (destruct (decide (length row = 3)); tauto).
      destruct (IH (colors ∪ list_to_set row)) as [[Hall ->]|[Hnot Hr]].
      * left. split; [by constructor|].
        by rewrite list_to_set_app_L, (assoc_L (∪)).
      * right. split; [|done]. by intros [_ ?]%Forall_cons.
Qed.

Lemma validate_faces_spec (items : list (string * list (list string)))
    (colors : gset string) :
  (Forall (λ kv, grid3 kv.2) items ∧
   validate_faces items colors =
   Ok (colors ∪ list_to_set (concat (concat (items.*2))))) ∨
  (¬ Forall (λ kv, grid3 kv.2) items ∧
   ∃ msg, validate_faces items colors = Raise (ValueError msg)).
Proof.
  revert colors. induction items as [|[f g] items IH]; intros colors; simpl.
  - left. split; [constructor|]. by rewrite union_empty_r_L.
  - destruct (decide (length g ≠ 3)) as [Hne|Heq].
    + right. split; [|eauto]. by intros [[? _] _]%Forall_cons.
    + assert (length g = 3) by (destruct (decide (length g = 3)); tauto).
      destruct (validate_rows_spec f g colors) as [[Hrows ->]|[Hnot [msg ->]]];
        simpl.
      * destruct (IH (colors ∪ list_to_set (concat g))) as [[Hall ->]|[Hnot Hr]].
        -- left. split; [by repeat constructor|].
           cbn [fmap list_fmap snd concat].
           by rewrite concat_app, list_to_set_app_L, (assoc_L (∪)).
        -- right. split; [|done]. by intros [_ ?]%Forall_cons.
      * right. split; [|eauto]. by intros [[_ ?] _]%Forall_cons.
Qed.

Lemma map_Forall_grid3 (c : cube) :
  map_Forall (λ _ g, grid3 g) c ↔ Forall (λ kv, grid3 kv.2) (map_to_list c).
Proof.
  rewrite map_Forall_to_list. apply Forall_proper; [|done]. by intros [k g].
Qed.

Lemma validate_cube_spec (c : cube) :
  (structurally_valid c ∧ validate_cube c = Ok true) ∨
  (¬ structurally_valid c ∧ ∃ msg, validate_cube c = Raise (ValueError msg)).
Proof.
  unfold validate_cube, structurally_valid, well_shaped, tokens.
  destruct (decide (dom c ≠ valid_faces)) as [Hne|Hdom].
  { right. split; [tauto|eauto]. }
  assert (dom c = valid_faces) by (destruct (decide (dom c = valid_faces)); tauto).
  destruct (validate_faces_spec (map_to_list c) ∅) as [[Hall ->]|[Hnot [msg ->]]];
    simpl.
  - rewrite union_empty_l_L.
    destruct (decide (6 < size (list_to_set (concat (concat (map_to_list c).*2))
                                 : gset string))) as [Hgt|Hle].
    + right. split; [|eauto]. intros [_ ?]. lia.
    + left. split; [|done]. rewrite map_Forall_grid3. split; [done|lia].
  - right. split; [|eauto]. rewrite map_Forall_grid3. tauto.
Qed.

(** C9. [validate_cube] accepts a cube exactly when its keys are the six
    faces, every face is a 3x3 grid and at most six distinct tokens occur,
    and otherwise raises the format error ([ValueError]); seven colours, a
    face of four rows and a missing face are rejected, and a cube that no
    sequence of turns can produce is accepted when it has that shape. *)
Theorem validate_cube_iff_structurally_valid (c : cube) :
  (validate_cube c = Ok true ↔ structurally_valid c) ∧
  ((∃ msg, validate_cube c = Raise (ValueError msg)) ↔ ¬ structurally_valid c) ∧
  validate_cube seven_colors =
    Raise (ValueError "Cube contains more than 6 distinct colors") ∧
  validate_cube four_rows = Raise (ValueError "Face F must be a 3x3 matrix") ∧
  validate_cube missing_face =
    Raise (ValueError "Cube must have exactly U, D, F, B, L, R faces") ∧
  validate_cube monochrome = Ok true.
Proof.
  split; [|split; [|repeat split; by_eval]].
  - destruct (validate_cube_spec c) as [[Hv ->]|[Hv [msg ->]]]; split;
      try done; tauto.
  - destruct (validate_cube_spec c) as [[Hv ->]|[Hv [msg ->]]]; split;
      try done; try tauto; eauto.
    intros [? ?]. done.
Qed.

(** ** C7, C10: the move optimizer *)

Lemma valid_move_parts (m : string) :
  valid_move m →
  ∃ f s, f ∈ face_letters ∧ s ∈ suffixes ∧ m = f +:+ s ∧
    str_head m = Ok f ∧ face_letter m = f ∧
    opt_turns m = move_turns s ∧ quarter_turns m = move_turns s.
Proof.
  intros (f & s & Hf & Hs & ->)%valid_move_inv. exists f, s.
  split; [done|]. split; [done|]. split; [done|].
  face_cases Hf; apply suffixes_cases in Hs as [->|[->| ->]];
    repeat split; reflexivity.
Qed.

Lemma move_turns_range (s : string) :
  s ∈ suffixes → 1 ≤ move_turns s ≤ 3.
Proof. intros [->|[->| ->]]%suffixes_cases; cbn; lia. Qed.

Lemma optimize_from_cons2 (m1 m2 : string) (rest acc : list string) :
  optimize_from (m1 :: m2 :: rest) acc =
  h1 ← str_head m1;
  h2 ← str_head m2;
  if h1 == h2 then
    let total_turns := (opt_turns m1 + opt_turns m2) mod 4 in
    if total_turns == 0 then optimize_from rest acc
    else
      face ← str_head m1;
      if total_turns == 1 then optimize_from rest (acc ++ [face])
      else if total_turns == 2 then optimize_from rest (acc ++ [face +:+ "2"])
      else optimize_from rest (acc ++ [face +:+ "'"])
  else optimize_from (m2 :: rest) (acc ++ [m1]).
Proof. reflexivity. Qed.

Lemma merge_pass_spec_cons2 (m1 m2 : string) (rest : list string) :
  merge_pass_spec (m1 :: m2 :: rest) =
  if face_letter m1 == face_letter m2 then
    let t := (quarter_turns m1 + quarter_turns m2) mod 4 in
    if t == 0 then merge_pass_spec rest
    else (face_letter m1 +:+ turn_suffix t) :: merge_pass_spec rest
  else m1 :: merge_pass_spec (m2 :: rest).
Proof. reflexivity. Qed.

(** The loop of the source computes the pass of the specification. *)
Lemma optimize_from_merge_pass (sol acc : list string) :
  Forall valid_move sol →
  optimize_from sol acc = Ok (acc ++ merge_pass_spec sol).
Proof.
  remember (length sol) as n eqn:Hn. revert sol acc Hn.
  induction (lt_wf n) as [n _ IH]. intros sol acc -> Hsol.
  destruct sol as [|m1 [|m2 rest]].
  - simpl. by rewrite app_nil_r.
  - done.
  - apply Forall_cons in Hsol as [H1 Hsol].
    pose proof Hsol as [H2 Hrest]%Forall_cons.
    destruct (valid_move_parts m1 H1)
      as (f1 & s1 & Hf1 & Hs1 & _ & Hh1 & Hl1 & Ho1 & Hq1).
    destruct (valid_move_parts m2 H2)
      as (f2 & s2 & Hf2 & Hs2 & _ & Hh2 & Hl2 & Ho2 & Hq2).
    rewrite optimize_from_cons2, merge_pass_spec_cons2.
    rewrite Hh1, Hh2, Hl1, Hl2, Ho1, Ho2, Hq1, Hq2. cbn [mbind result_bind].
    destruct (decide (f1 = f2)) as [->|Hne].
    + rewrite !bool_decide_eq_true_2 by done.
      pose proof (move_turns_range s1 Hs1). pose proof (move_turns_range s2 Hs2).
      pose proof (Nat.mod_upper_bound (move_turns s1 + move_turns s2) 4).
      destruct ((move_turns s1 + move_turns s2) mod 4) as [|[|[|[|t]]]] eqn:Et;
        try lia; cbn zeta; rewrite ?Et; repeat (case_bool_decide; try lia);
        rewrite (IH (length rest)) by (simpl; (lia || done));
        rewrite <- ?(assoc_L (++)); by face_cases Hf2.
    + rewrite !bool_decide_eq_false_2 by done.
      rewrite (IH (length (m2 :: rest))) by (simpl; (lia || done)).
      by rewrite <- (assoc_L (++)).
Qed.

(** C7. On a log of valid move texts, [_optimize_solution] returns the single
    left-to-right merge pass of the specification: adjacent moves of one
    face are replaced by the move of their summed quarter turns modulo 4
    (dropped when 0) and the pass continues after the pair, so a merged move
    is not compared with the move that follows it. *)
Theorem optimize_solution_is_merge_pass (s : solver) :
  Forall valid_move (self_solution s) →
  run _optimize_solution s = (Ok (merge_pass_spec (self_solution s)), s) ∧
  optimize_from ["U"; "U"] [] = Ok ["U2"] ∧
  optimize_from ["U"; "U'"] [] = Ok [] ∧
  optimize_from ["U"; "U2"] [] = Ok ["U'"] ∧
  optimize_from ["R"; "R'"; "F"] [] = Ok ["F"] ∧
  optimize_from ["U"; "U"; "U"] [] = Ok ["U2"; "U"].
Proof.
  intros Hlog. split; [|by repeat split].
  change (run _optimize_solution s)
    with (run (of_result (optimize_from (self_solution s) [])) s).
  by rewrite optimize_from_merge_pass.
Qed.

Lemma optimize_solution_is_merge_pass_witness :
  Forall valid_move (self_solution (solver_with_log solved_cube ["R"; "R'"; "F"])) ∧
  run _optimize_solution (solver_with_log solved_cube ["R"; "R'"; "F"]) =
    (Ok ["F"], solver_with_log solved_cube ["R"; "R'"; "F"]).
Proof.
  assert (H : Forall valid_move
                (self_solution (solver_with_log solved_cube ["R"; "R'"; "F"]))).
  { cbn. repeat (apply Forall_cons_2; [unfold valid_move; cbn; repeat constructor|]).
    apply Forall_nil_2. }
  split; [exact H|].
  exact (proj1 (optimize_solution_is_merge_pass _ H)).
Defined.

Lemma merge_pass_valid (sol : list string) :
  Forall valid_move sol → Forall valid_move (merge_pass_spec sol).
Proof.
  remember (length sol) as n eqn:Hn. revert sol Hn.
  induction (lt_wf n) as [n _ IH]. intros sol -> Hsol.
  destruct sol as [|m1 [|m2 rest]]; [done|done|].
  apply Forall_cons in Hsol as [H1 Hsol].
  pose proof Hsol as [H2 Hrest]%Forall_cons.
  rewrite merge_pass_spec_cons2. case_bool_decide.
  - cbn zeta. destruct (valid_move_parts m1 H1) as (f1 & s1 & Hf1 & _ & _ & _ & -> & _).
    case_bool_decide.
    + apply (IH (length rest)); simpl; (lia || done).
    + apply Forall_cons_2; [|apply (IH (length rest)); simpl; (lia || done)].
      apply valid_move_inv. exists f1, (turn_suffix ((quarter_turns m1 + quarter_turns m2) mod 4)).
      split; [done|]. split; [|done].
      pose proof (Nat.mod_upper_bound (quarter_turns m1 + quarter_turns m2) 4).
      destruct ((quarter_turns m1 + quarter_turns m2) mod 4) as [|[|[|[|t]]]];
        try lia; try done; cbn; unfold suffixes; repeat constructor.
  - apply Forall_cons_2; [done|].
    apply (IH (length (m2 :: rest))); simpl; (lia || done).
Qed.

Lemma replay_merge_pass (sol : list string) (c : cube) :
  well_shaped c → Forall valid_move sol →
  replay c (merge_pass_spec sol) = replay c sol.
Proof.
  remember (length sol) as n eqn:Hn. revert sol c Hn.
  induction (lt_wf n) as [n _ IH]. intros sol c -> Hc Hsol.
  destruct sol as [|m1 [|m2 rest]]; [done|done|].
  apply Forall_cons in Hsol as [H1 Hsol].
  pose proof Hsol as [H2 Hrest]%Forall_cons.
  destruct (valid_move_parts m1 H1)
    as (f1 & s1 & Hf1 & Hs1 & Hm1 & _ & Hl1 & _ & Hq1).
  destruct (valid_move_parts m2 H2)
    as (f2 & s2 & Hf2 & Hs2 & Hm2 & _ & Hl2 & _ & Hq2).
  rewrite merge_pass_spec_cons2. rewrite Hl1, Hl2, Hq1, Hq2. cbn zeta.
  destruct (decide (f1 = f2)) as [<-|Hne].
  - rewrite bool_decide_eq_true_2 by done.
    assert (Hraw : replay c (m1 :: m2 :: rest) =
              c2 ← repeat_turn ((move_turns s1 + move_turns s2) mod 4) f1 c;
              replay c2 rest).
    { cbn [replay]. rewrite Hm1, Hm2, apply_move_valid by done.
      rewrite <- repeat_turn_mod4, repeat_turn_add by done.
      destruct (repeat_turn_spec (move_turns s1) c f1 Hc Hf1) as (c1 & -> & Hc1 & _).
      cbn [mbind result_bind]. by rewrite apply_move_valid. }
    rewrite Hraw.
    pose proof (move_turns_range s1 Hs1). pose proof (move_turns_range s2 Hs2).
    pose proof (Nat.mod_upper_bound (move_turns s1 + move_turns s2) 4).
    destruct (repeat_turn_spec ((move_turns s1 + move_turns s2) mod 4) c f1 Hc Hf1)
      as (c2 & Hc2eq & Hc2 & _).
    destruct ((move_turns s1 + move_turns s2) mod 4) as [|[|[|[|t]]]] eqn:Et;
      try lia; cbn [bool_decide decide_rel]; rewrite Hc2eq.
    + rewrite bool_decide_eq_true_2 by done. cbn in Hc2eq. injection Hc2eq as <-.
      apply (IH (length rest)); simpl; (lia || done).
    + rewrite bool_decide_eq_false_2 by done. cbn [replay turn_suffix].
      rewrite (apply_move_valid c f1 "") by (done || (unfold suffixes; repeat constructor)).
      change (move_turns "") with 1. rewrite Hc2eq. cbn [mbind result_bind].
      apply (IH (length rest)); simpl; (lia || done).
    + rewrite bool_decide_eq_false_2 by done. cbn [replay turn_suffix].
      rewrite (apply_move_valid c f1 "2") by (done || (unfold suffixes; repeat constructor)).
      change (move_turns "2") with 2. rewrite Hc2eq. cbn [mbind result_bind].
      apply (IH (length rest)); simpl; (lia || done).
    + rewrite bool_decide_eq_false_2 by done. cbn [replay turn_suffix].
      rewrite (apply_move_valid c f1 "'") by (done || (unfold suffixes; repeat constructor)).
      change (move_turns "'") with 3. rewrite Hc2eq. cbn [mbind result_bind].
      apply (IH (length rest)); simpl; (lia || done).
  - rewrite bool_decide_eq_false_2 by done.
    cbn [replay].
    destruct (apply_move_spec c m1 Hc H1) as (c1 & -> & Hc1 & _).
    cbn [mbind result_bind].
    apply (IH (length (m2 :: rest))); simpl; (lia || done).
Qed.

Lemma replay_valid (sol : list string) (c : cube) :
  well_shaped c → Forall valid_move sol →
  ∃ c', replay c sol = Ok c' ∧ well_shaped c' ∧ tokens c' ≡ₚ tokens c.
Proof.
  intros Hc Hsol. revert c Hc. induction Hsol as [|m sol Hm _ IH]; intros c Hc.
  - by exists c.
  - cbn [replay]. destruct (apply_move_spec c m Hc Hm) as (c1 & -> & Hc1 & Hp1).
    destruct (IH c1 Hc1) as (c2 & Heq & Hc2 & Hp2).
    exists c2. split; [done|]. split; [done|]. by rewrite Hp2.
Qed.

(** C10. For a raw log of valid move texts and a structurally valid cube,
    the optimizer succeeds and replaying its output reaches exactly the
    state that replaying the raw log reaches. *)
Theorem optimizer_preserves_final_state (c : cube) (sol : list string) :
  structurally_valid c → Forall valid_move sol →
  ∃ out c', optimize_from sol [] = Ok out ∧
    replay c sol = Ok c' ∧ replay c out = Ok c'.
Proof.
  intros [Hc _] Hsol.
  destruct (replay_valid sol c Hc Hsol) as (c' & Heq & _).
  exists (merge_pass_spec sol), c'.
  split; [by rewrite optimize_from_merge_pass|]. split; [done|].
  by rewrite replay_merge_pass.
Qed.

(** ** C1: the solver on the scramble R U R' U' *)

(** [bind] on cube values, spelled out. *)
Lemma run_bind {A B} (m : M A) (k : A → M B) (s : solver) :
  run (m ≫= k) s =
  match run m s with
  | (Ok a, s') => run (k a) s'
  | (Raise e, s') => (Raise e, s')
  end.
Proof. reflexivity. Qed.

Lemma bind_raises {A B} (m : M A) (k : A → M B) (s : solver) :
  (∀ a s', raises (k a) s') → raises (m ≫= k) s.
Proof.
  intros Hk. unfold raises. rewrite run_bind.
  destruct (run m s) as [[a|e] s']; [apply Hk|by exists e].
Qed.

(** Once the loop over [D] turns of stage 2 is entered with a corner of the
    bottom layer, its exit test fails for every face and the pass ends in an
    exception: the budget error, a lookup error, or the [NameError] of the
    unbound name. *)
Lemma white_corner_bottom_loop_raises (n : nat) (face c1 c2 : string)
    (cn : corner) (s : solver) :
  cn ∈ bottom_corners → raises (wn_turn_D (S n) face c1 c2 cn) s.
Proof.
  intros Hcn. unfold bottom_corners in Hcn. cbn in Hcn.
  repeat (apply elem_of_cons in Hcn as [->|Hcn]); [..|by apply elem_of_nil in Hcn];
    cbn [wn_turn_D]; unfold prev_face;
    repeat (case_bool_decide; simplify_eq; cbn [andb]);
    do 3 (apply bind_raises; intros ? ?); by eexists.
Qed.

(** C1 (as the code behaves on the scenario of the claim). The cube reached
    from the solved cube by [R U R' U'] is structurally valid; on it the
    solve run stops in stage 2 with [NameError] after nine moves, [solve]
    returns the single failure entry, and replaying that entry is an invalid
    move: no solved state is reached. *)
Theorem solve_scramble_returns_failure_entry :
  replay solved_cube ["R"; "U"; "R'"; "U'"] = Ok scrambled_cube ∧
  validate_cube scrambled_cube = Ok true ∧
  is_cube_solved scrambled_cube = Ok false ∧
  (s ← CubeSolver scrambled_cube;
   Ok ((run solve_stages s).1, self_solution (run solve_stages s).2)) =
    Ok (Raise (NameError "edge"),
        ["U"; "U"; "R"; "U"; "B"; "U"; "U"; "L"; "D"]) ∧
  solve_cube scrambled_cube = Ok [failure_entry] ∧
  replay scrambled_cube [failure_entry] =
    Raise (ValueError ("Invalid move: " +:+ failure_entry)).
Proof. repeat split; by_eval. Qed.

(** ** C3: what solve returns *)

Lemma sticker_getitem (c : cube) (f : string) (r k : nat) :
  is_ok (sticker c f r k) = true → ∃ g, getitem c f = Ok g.
Proof.
  unfold sticker, get_row. destruct (getitem c f) as [g|e]; [eauto|done].
Qed.

Lemma solved_faces_ok (c : cube) (faces : list string) :
  Forall (λ f, is_ok (sticker c f 1 1) = true) faces →
  ∃ b, solved_faces c faces = Ok b.
Proof.
  induction 1 as [|f faces Hf _ IH]; simpl; [eauto|].
  destruct (sticker_getitem c f 1 1 Hf) as [g Hg].
  destruct (sticker c f 1 1) as [x|e]; [|done]. simpl. rewrite Hg. simpl.
  destruct (existsb _ g); eauto.
Qed.

Lemma CubeSolver_ok (c : cube) :
  Forall (λ f, is_ok (sticker c f 1 1) = true) face_letters →
  ∃ s, CubeSolver c = Ok s ∧ self_cube s = c.
Proof.
  intros H. unfold face_letters in H.
  repeat match goal with
  | H : Forall _ (_ :: _) |- _ => apply Forall_cons in H as [? H]
  end.
  unfold CubeSolver.
  repeat match goal with
  | H : is_ok (sticker c ?f 1 1) = true |- _ =>
      destruct (sticker c f 1 1); [clear H|done]
  end.
  simpl. eauto.
Qed.

(** [solve] on cube values, spelled out. *)
Lemma solve_unfold (s : solver) :
  run solve s =
  match is_cube_solved (self_cube s) with
  | Raise e => (Raise e, s)
  | Ok true => (Ok [], s)
  | Ok false =>
      match run solve_stages s with
      | (Ok moves, s') => (Ok moves, s')
      | (Raise _, s') => (Ok [failure_entry], s')
      end
  end.
Proof.
  unfold solve. rewrite run_bind.
  change (run is_solved s) with (is_cube_solved (self_cube s), s).
  destruct (is_cube_solved (self_cube s)) as [[]|e]; [reflexivity| |reflexivity].
  change (run (try_except solve_stages (λ _, mret [failure_entry])) s)
    with (M_try solve_stages (λ _, mret [failure_entry]) s).
  unfold M_try. change (@solve_stages M value_ops s) with (run solve_stages s).
  by destruct (run solve_stages s) as [[moves|e] s'].
Qed.

(** C3 (amended). When each of the six faces has a centre sticker, as in
    every structurally valid state, [solve] returns a list and raises
    nothing: the empty list on a solved cube, and otherwise the single
    failure entry whenever anything inside the [try] block raises, be it the
    format error of the validator, the budget exception or an internal
    fault. *)
Theorem solve_returns_list (c : cube) :
  Forall (λ f, is_ok (sticker c f 1 1) = true) face_letters →
  ∃ s moves, CubeSolver c = Ok s ∧ solve_cube c = Ok moves ∧
    (is_cube_solved c = Ok true → moves = []) ∧
    (is_cube_solved c = Ok false →
       ∀ e, (run solve_stages s).1 = Raise e → moves = [failure_entry]).
Proof.
  intros Hc. destruct (CubeSolver_ok c Hc) as (s & Hs & Hcube).
  destruct (solved_faces_ok c face_letters Hc) as [b Hb].
  change (solved_faces c face_letters) with (is_cube_solved c) in Hb.
  exists s. unfold solve_cube. rewrite Hs. cbn [mbind result_bind].
  rewrite solve_unfold, Hcube, Hb. destruct b.
  - exists []. split; [done|]. split; [done|]. split; [done|].
    intros Hf. discriminate Hf.
  - destruct (run solve_stages s) as [[moves|e] s'] eqn:Hrun; cbn.
    + exists moves. split; [done|]. split; [done|].
      split; [intros Hf; discriminate Hf|]. intros _ e He. discriminate He.
    + exists [failure_entry]. split; [done|]. split; [done|].
      split; [intros Hf; discriminate Hf|done].
Qed.

Lemma structurally_valid_centres (c : cube) :
  structurally_valid c →
  Forall (λ f, is_ok (sticker c f 1 1) = true) face_letters.
Proof.
  intros [Hc _]. cube_cases Hc. unfold face_letters.
  repeat (apply Forall_cons_2; [by_eval|]). apply Forall_nil_2.
Qed.

Lemma solve_returns_list_witness :
  Forall (λ f, is_ok (sticker seven_colors f 1 1) = true) face_letters ∧
  ∃ s moves, CubeSolver seven_colors = Ok s ∧
    solve_cube seven_colors = Ok moves ∧
    (is_cube_solved seven_colors = Ok true → moves = []) ∧
    (is_cube_solved seven_colors = Ok false →
       ∀ e, (run solve_stages s).1 = Raise e → moves = [failure_entry]).
Proof.
  assert (H : Forall (λ f, is_ok (sticker seven_colors f 1 1) = true) face_letters).
  { unfold face_letters.
    repeat (apply Forall_cons_2; [vm_compute; reflexivity|]). apply Forall_nil_2. }
  split; [exact H|]. exact (solve_returns_list seven_colors H).
Defined.

(** C3 fails as stated: on a state without the [L] face the constructor
    raises [KeyError] before the [try] block is reached. *)
Lemma solve_missing_face_raises :
  solve_cube missing_face = Raise (KeyError "L") ∧
  ¬ ∃ moves, solve_cube missing_face = Ok moves.
Proof.
  assert (H : solve_cube missing_face = Raise (KeyError "L")) by by_eval.
  split; [done|]. intros [moves Hm]. by rewrite H in Hm.
Qed.

(** ** Properties that every method keeps

    A property of method bodies that holds for the operations of the solver
    object and for [_apply] on the batches of the stages, and that [bind] and
    [try] preserve, holds for every stage and for [solve]. *)

Section Walk.

Context {Mo : Type → Type} {ops : SolverOps Mo}.
Variable P : ∀ A : Type, Mo A → Prop.

Hypothesis P_ret : ∀ A (a : A), P A (mret a).
Hypothesis P_bind : ∀ A B (m : Mo A) (k : A → Mo B),
  P A m → (∀ a, P B (k a)) → P B (m ≫= k).
Hypothesis P_raise : ∀ A (e : exn), P A (raise e).
Hypothesis P_try : ∀ A (m : Mo A) (handler : exn → Mo A),
  P A m → (∀ e, P A (handler e)) → P A (try_except m handler).
Hypothesis P_cube_at : ∀ f r k, P string (cube_at f r k).
Hypothesis P_validate : P bool validate.
Hypothesis P_is_solved : P bool is_solved.
Hypothesis P_face_colors : P _ face_colors.
Hypothesis P_white_color : P string white_color.
Hypothesis P_yellow_color : P string yellow_color.
Hypothesis P_solution : P _ solution.
Hypothesis P_apply : ∀ moves, length moves ≤ 11 → P unit (_apply moves).

(** Walk through the body of a method: binds, tests and pattern matches. *)
Ltac walk_step :=
  first
  [ apply P_ret | apply P_raise | apply P_cube_at | apply P_validate
  | apply P_is_solved | apply P_face_colors | apply P_white_color
  | apply P_yellow_color | apply P_solution
  | apply P_apply; simpl; lia
  | assumption
  | apply P_try; [|intros ?]
  | match goal with H : ∀ _, P _ _ |- _ => apply H end
  | match goal with H : ∀ _ _, P _ _ |- _ => apply H end
  | match goal with H : ∀ _ _ _, P _ _ |- _ => apply H end
  | match goal with H : ∀ _ _ _ _, P _ _ |- _ => apply H end
  | match goal with H : ∀ _ _ _ _ _, P _ _ |- _ => apply H end
  | apply P_bind; [|intros ?]
  | lazymatch goal with
    | |- P _ (match ?x with _ => _ end) => destruct x
    | |- P _ (if ?b then _ else _) => destruct b
    end ].

Ltac walk := repeat walk_step.

Lemma P_of_result {A} (r : result A) : P A (of_result r).
Proof. unfold of_result. walk. Qed.

Lemma P_for_each_M {A} (l : list A) (body : A → Mo unit) :
  (∀ x, P unit (body x)) → P unit (for_each_M l body).
Proof. intros Hb. induction l as [|x l IH]; cbn [for_each_M]; walk. Qed.

Lemma P_face_color (f : string) : P string (face_color f).
Proof. unfold face_color. walk. Qed.

Lemma P_face_of_color (x : string) : P string (face_of_color x).
Proof. unfold face_of_color. pose proof (@P_of_result string). walk. Qed.

Lemma P_optimize : P _ _optimize_solution.
Proof.
  unfold _optimize_solution. pose proof (@P_of_result (list string)). walk.
Qed.

Lemma P_find_edge (c1 c2 : string) : P _ (_find_edge c1 c2).
Proof.
  unfold _find_edge. induction edges as [|e es IH]; cbn [find_edge_in]; walk.
Qed.

Lemma P_find_corner (c1 c2 c3 : string) : P _ (_find_corner c1 c2 c3).
Proof.
  unfold _find_corner.
  induction corners as [|cn cs IH]; cbn [find_corner_in]; walk.
Qed.

Lemma P_wc_turn_U (n : nat) (sc : string) (e : edge) : P _ (wc_turn_U n sc e).
Proof.
  pose proof P_find_edge. revert e.
  induction n as [|n IH]; intros e; cbn [wc_turn_U]; walk.
Qed.

Lemma P_wc_turn_D (n : nat) (face sc : string) (e : edge) :
  P _ (wc_turn_D n face sc e).
Proof.
  pose proof P_find_edge. revert e.
  induction n as [|n IH]; intros e; cbn [wc_turn_D]; walk.
Qed.

Lemma P_white_cross : P unit _solve_white_cross.
Proof.
  pose proof P_find_edge. pose proof P_face_color.
  pose proof P_wc_turn_U. pose proof P_wc_turn_D.
  unfold _solve_white_cross. apply P_for_each_M. intros face.
  unfold white_cross_face. walk.
Qed.

Lemma P_wn_turn_U (n : nat) (c1 c2 : string) (cn : corner) :
  P _ (wn_turn_U n c1 c2 cn).
Proof.
  pose proof P_find_corner. revert cn.
  induction n as [|n IH]; intros cn; cbn [wn_turn_U]; walk.
Qed.

Lemma P_wn_turn_D (n : nat) (face c1 c2 : string) (cn : corner) :
  P _ (wn_turn_D n face c1 c2 cn).
Proof.
  pose proof P_find_corner. revert cn.
  induction n as [|n IH]; intros cn; cbn [wn_turn_D]; walk.
Qed.

Lemma P_white_corners : P unit _solve_white_corners.
Proof.
  pose proof P_find_corner. pose proof P_face_color.
  pose proof P_wn_turn_U. pose proof P_wn_turn_D.
  unfold _solve_white_corners. apply P_for_each_M. intros face.
  unfold white_corners_face. walk.
Qed.

Lemma P_sl_pick (fs : list string) : P _ (sl_pick fs).
Proof.
  pose proof P_find_edge. pose proof P_face_color.
  induction fs as [|f fs IH]; cbn [sl_pick]; walk.
Qed.

Lemma P_sl_turn_U (n : nat) (face f adj : string) (e : edge) :
  P _ (sl_turn_U n face f adj e).
Proof.
  pose proof P_find_edge. pose proof P_face_color. revert e.
  induction n as [|n IH]; intros e; cbn [sl_turn_U]; walk.
Qed.

Lemma P_sl_turn_D (n : nat) (f adj : string) (e : edge) :
  P _ (sl_turn_D n f adj e).
Proof.
  pose proof P_find_edge. pose proof P_face_color. revert e.
  induction n as [|n IH]; intros e; cbn [sl_turn_D]; walk.
Qed.

Lemma P_second_layer : P unit _solve_second_layer.
Proof.
  pose proof P_find_edge. pose proof P_face_color. pose proof P_face_of_color.
  pose proof P_sl_pick. pose proof P_sl_turn_U. pose proof P_sl_turn_D.
  unfold _solve_second_layer. apply P_for_each_M. intros _.
  unfold second_layer_pass. walk.
Qed.

Lemma P_yellow_edges : P _ yellow_edges.
Proof. unfold yellow_edges. walk. Qed.

Lemma P_yc_turn_D (n : nat) (edges : list bool) : P _ (yc_turn_D n edges).
Proof.
  pose proof P_yellow_edges. revert edges.
  induction n as [|n IH]; intros edges; cbn [yc_turn_D]; walk.
Qed.

Lemma P_yellow_cross : P unit _solve_yellow_cross.
Proof.
  pose proof P_yellow_edges. pose proof P_yc_turn_D.
  unfold _solve_yellow_cross. walk.
Qed.

Lemma P_yf_turn_D (n : nat) : P unit (yf_turn_D n).
Proof. induction n as [|n IH]; cbn [yf_turn_D]; walk. Qed.

Lemma P_yellow_face : P unit _solve_yellow_face.
Proof.
  pose proof P_yf_turn_D. unfold _solve_yellow_face. generalize 4.
  induction n as [|n IH]; cbn [yf_loop]; walk.
Qed.

Lemma P_fc_corners_ok (l : list nat) : P bool (fc_corners_ok l).
Proof.
  pose proof P_face_color.
  induction l as [|i l IH]; cbn [fc_corners_ok]; walk.
Qed.

Lemma P_fe_edges_ok (l : list string) : P bool (fe_edges_ok l).
Proof.
  pose proof P_face_color.
  induction l as [|i l IH]; cbn [fe_edges_ok]; walk.
Qed.

Lemma P_final_layer : P unit _solve_final_layer.
Proof.
  pose proof P_fc_corners_ok. pose proof P_fe_edges_ok.
  unfold _solve_final_layer, _position_final_corners, _position_final_edges.
  apply P_bind; [|intros _].
  - generalize 4. induction n as [|n IH]; cbn [fc_loop]; walk.
  - generalize 4. induction n as [|n IH]; cbn [fe_loop]; walk.
Qed.

Lemma P_solve_stages : P _ solve_stages.
Proof.
  unfold solve_stages.
  pose proof P_white_cross. pose proof P_white_corners.
  pose proof P_second_layer. pose proof P_yellow_cross.
  pose proof P_yellow_face. pose proof P_final_layer. pose proof P_optimize.
  walk.
Qed.

Lemma P_solve : P _ solve.
Proof.
  pose proof P_solve_stages. unfold solve. walk.
Qed.

End Walk.

(** ** C2: the move budget *)

(** [_apply] on cube values, spelled out. *)
Lemma apply_unfold (moves : list string) (s : solver) :
  run (_apply moves) s =
  if decide (self_max_moves s ≤ length (self_solution s))
  then (Raise (Exception budget_message), s)
  else run (for_each_M moves (λ move, move_cube move;; log_move move)) s.
Proof.
  unfold _apply. rewrite run_bind.
  change (run solution s) with (Ok (self_solution s), s). cbv iota beta.
  rewrite run_bind.
  change (run max_moves s) with (Ok (self_max_moves s), s). cbv iota beta.
  by destruct (decide _).
Qed.

Lemma move_and_log (move : string) (s : solver) :
  let r := run (move_cube move;; log_move move) s in
  self_max_moves r.2 = self_max_moves s ∧
  ((r.1 = Ok () ∧ self_solution r.2 = self_solution s ++ [move]) ∨
   ((∃ e, r.1 = Raise e) ∧ r.2 = s)).
Proof.
  rewrite run_bind. unfold run at 1. cbn [move_cube value_ops]. unfold M_move_cube.
  destruct (apply_move (self_cube s) move); cbn.
  - split; [done|]. by left.
  - split; [done|]. right. eauto.
Qed.

(** A batch appends a prefix of its moves, all of them when it succeeds. *)
Lemma for_each_apply_log (moves : list string) (s : solver) :
  let r := run (for_each_M moves (λ move, move_cube move;; log_move move)) s in
  self_max_moves r.2 = self_max_moves s ∧
  ∃ applied, applied `prefix_of` moves ∧
    self_solution r.2 = self_solution s ++ applied ∧
    (r.1 = Ok () → applied = moves).
Proof.
  revert s. induction moves as [|move moves IH]; intros s; cbn [for_each_M].
  - split; [done|]. exists []. by rewrite app_nil_r.
  - cbn zeta. rewrite run_bind.
    destruct (move_and_log move s) as [Hmax [[Hok Hlog]|[[e He] Hsame]]].
    + destruct (run (move_cube move;; log_move move) s) as [[[]|e] s1]; [|done].
      cbn in *.
      destruct (IH s1) as [Hmax1 (applied & Hpre & Hlog1 & Hall)].
      split; [congruence|]. exists (move :: applied).
      split; [by apply prefix_cons|].
      split; [by rewrite Hlog1, Hlog, <- (assoc_L (++))|].
      intros Hr. by rewrite Hall.
    + destruct (run (move_cube move;; log_move move) s) as [[[]|e'] s1]; [done|].
      cbn in *. subst s1. split; [done|]. exists []. split; [apply prefix_nil|].
      by rewrite app_nil_r.
Qed.

Lemma keeps_pure {A} (m : M A) : (∀ s, (run m s).2 = s) → keeps A m.
Proof. intros H s Hs. by rewrite H. Qed.

Lemma keeps_bind {A B} (m : M A) (k : A → M B) :
  keeps A m → (∀ a, keeps B (k a)) → keeps B (m ≫= k).
Proof.
  intros Hm Hk s Hs. rewrite run_bind.
  specialize (Hm s Hs). destruct (run m s) as [[a|e] s']; [by apply Hk|done].
Qed.

Lemma keeps_try {A} (m : M A) (handler : exn → M A) :
  keeps A m → (∀ e, keeps A (handler e)) → keeps A (try_except m handler).
Proof.
  intros Hm Hh s Hs.
  change (run (try_except m handler) s) with (M_try m handler s). unfold M_try.
  specialize (Hm s Hs). unfold run in Hm.
  destruct (m s) as [[a|e] s']; [done|by apply Hh].
Qed.

Lemma keeps_apply (moves : list string) :
  length moves ≤ 11 → keeps unit (_apply moves).
Proof.
  intros Hlen s [Hmax Hlog]. rewrite apply_unfold.
  destruct (decide (self_max_moves s ≤ length (self_solution s))); [done|].
  destruct (for_each_apply_log moves s) as [Hmax' (applied & Hpre & Heq & _)].
  split; [congruence|]. rewrite Heq, length_app.
  apply prefix_length in Hpre. lia.
Qed.

(** In a solve run the log never holds more than 210 entries. *)
Lemma keeps_solve : keeps _ solve.
Proof.
  apply (P_solve keeps); intros;
    first [ by apply keeps_pure | by apply keeps_bind | by apply keeps_try
          | by apply keeps_apply ].
Qed.

Lemma CubeSolver_log_bounded (c : cube) (s : solver) :
  CubeSolver c = Ok s → log_bounded s.
Proof.
  unfold CubeSolver. intros H.
  repeat match type of H with
  | context [sticker c ?f 1 1] => destruct (sticker c f 1 1); [|done]
  end.
  cbn in H. injection H as <-. split; [done|]. cbn. lia.
Qed.

(** C2 fails as stated.  A call of [_apply] with three moves and 199 entries
    in the log succeeds and leaves 202 entries.  In a solve run on a
    structurally valid cube the last stage starts its 11-move batch at
    length 192: the last three moves are appended at lengths 200, 201 and
    202, and only the next call raises the budget exception, with 203
    entries in the log. *)
Lemma budget_overshoot_run :
  (run (_apply ["R"; "U"; "R'"])
     (solver_with_log solved_cube (replicate 199 "U"))).1
    = Ok () ∧
  length (self_solution
            (run (_apply ["R"; "U"; "R'"])
               (solver_with_log solved_cube (replicate 199 "U"))).2) = 202 ∧
  validate_cube overshoot_cube = Ok true ∧
  CubeSolver overshoot_cube = Ok overshoot_solver ∧
  (run solve_stages overshoot_solver).1 = Raise (Exception budget_message) ∧
  length (self_solution (run solve_stages overshoot_solver).2) = 203 ∧
  drop 192 (self_solution (run solve_stages overshoot_solver).2) =
    ["R2"; "U"; "R"; "U"; "R'"; "U'"; "R'"; "U'"; "R'"; "U"; "R'"] ∧
  ¬ length (self_solution (run solve_stages overshoot_solver).2) ≤ 200.
Proof.
  assert (H : length (self_solution (run solve_stages overshoot_solver).2) = 203)
    by by_eval.
  split; [by_eval|]. split; [by_eval|].
  split; [by_eval|]. split; [by_eval|]. split; [by_eval|]. split; [exact H|].
  split; [by_eval|]. rewrite H. lia.
Qed.

(** C2 (amended). The budget is tested once per call of [_apply], before its
    batch: a call made with 200 or more entries in the log raises the budget
    exception and leaves the log as it is; a call made with fewer appends its
    batch (all of it unless a move fails); in a solve run the log never
    exceeds 210 entries, and an exception of the stages, the budget
    exception among them, makes [solve] return the single failure entry. *)
Theorem budget_checked_once_per_batch (c : cube) (s0 : solver) :
  CubeSolver c = Ok s0 →
  (∀ s moves, self_max_moves s ≤ length (self_solution s) →
     run (_apply moves) s = (Raise (Exception budget_message), s)) ∧
  (∀ s moves, length (self_solution s) < self_max_moves s →
     ∃ applied, applied `prefix_of` moves ∧
       self_solution (run (_apply moves) s).2 = self_solution s ++ applied ∧
       ((run (_apply moves) s).1 = Ok () → applied = moves)) ∧
  self_max_moves s0 = 200 ∧
  length (self_solution (run solve s0).2) ≤ 210 ∧
  (∀ e, is_cube_solved (self_cube s0) = Ok false →
     (run solve_stages s0).1 = Raise e → (run solve s0).1 = Ok [failure_entry]).
Proof.
  intros Hs0. pose proof (CubeSolver_log_bounded c s0 Hs0) as Hb.
  split; [|split; [|split; [|split]]].
  - intros s moves Hfull. rewrite apply_unfold. by rewrite decide_True.
  - intros s moves Hroom. rewrite apply_unfold. rewrite decide_False by lia.
    destruct (for_each_apply_log moves s) as [_ H]. exact H.
  - apply Hb.
  - apply (keeps_solve s0 Hb).
  - intros e Hsolved Hraise. rewrite solve_unfold, Hsolved.
    destruct (run solve_stages s0) as [[moves|e'] s']; [done|done].
Qed.

Lemma budget_checked_once_per_batch_witness :
  CubeSolver overshoot_cube = Ok overshoot_solver ∧
  length (self_solution (run solve overshoot_solver).2) ≤ 210 ∧
  (run solve overshoot_solver).1 = Ok [failure_entry].
Proof.
  assert (H : CubeSolver overshoot_cube = Ok overshoot_solver) by reflexivity.
  destruct (budget_checked_once_per_batch overshoot_cube overshoot_solver H)
    as (_ & _ & _ & Hlen & Hfail).
  split; [exact H|]. split; [exact Hlen|].
  apply (Hfail (Exception budget_message)); vm_compute; reflexivity.
Defined.

(** ** C6: the caller's objects are never written *)

Section StoreFrame.
Import Store.

Variable h0 : store.
Let n := length h0.

Lemma extends_start : extends h0 h0.
Proof.
  split; [done|]. intros l o Hl Hlook.
  apply lookup_lt_Some in Hlook. lia.
Qed.

Lemma extends_length (h : store) : extends h0 h → n ≤ length h.
Proof. intros [Hp _]. by apply prefix_length. Qed.

Lemma safe_ret {A} (a : A) (Q : A → Prop) : Q a → safe h0 (mret a) Q.
Proof. intros HQ h Hh. split; [done|]. by intros ? [= <-]. Qed.

Lemma safe_throw {A} (e : exn) (Q : A → Prop) : safe h0 (throw e) Q.
Proof. intros h Hh. split; [done|]. by intros ?. Qed.

Lemma safe_lift {A} (r : result A) : safe h0 (lift r) (λ _, True).
Proof. intros h Hh. split; done. Qed.

Lemma safe_bind {A B} (m : Mem A) (k : A → Mem B) (Q : A → Prop)
    (R : B → Prop) :
  safe h0 m Q → (∀ a, Q a → safe h0 (k a) R) → safe h0 (m ≫= k) R.
Proof.
  intros Hm Hk h Hh. unfold mbind, Mem_bind.
  destruct (Hm h Hh) as [Hext HQ].
  destruct (m h) as [[a|e] h1]; cbn in *.
  - by apply Hk; [apply HQ|].
  - split; [done|]. by intros ?.
Qed.

Lemma safe_weaken {A} (m : Mem A) (Q R : A → Prop) :
  safe h0 m Q → (∀ a, Q a → R a) → safe h0 m R.
Proof.
  intros Hm HQR h Hh. destruct (Hm h Hh) as [Hext HQ].
  split; [done|]. intros a Ha. by apply HQR, HQ.
Qed.

Lemma safe_load (l : loc) :
  safe h0 (load l) (λ o, n ≤ l → obj_fresh n o).
Proof.
  intros h Hh. unfold load. destruct (h !! l) as [o|] eqn:Hl; cbn.
  - split; [done|]. intros ? [= <-] Hfresh. by apply (proj2 Hh l).
  - split; [done|]. by intros ?.
Qed.

Lemma safe_alloc (o : obj) :
  obj_fresh n o → safe h0 (alloc o) (λ l, n ≤ l).
Proof.
  intros Ho h Hh. pose proof (extends_length h Hh) as Hlen.
  destruct Hh as [Hp Hc]. unfold alloc; cbn. split; [split|].
  - by apply prefix_app_r.
  - intros l o' Hl Hlook. apply lookup_app_Some in Hlook as [Hlook|[_ Hlook]].
    + by apply (Hc l).
    + apply list_lookup_singleton_Some in Hlook as [_ <-]. done.
  - by intros ? [= <-].
Qed.

Lemma safe_store_at (l : loc) (o : obj) :
  n ≤ l → obj_fresh n o → safe h0 (store_at l o) (λ _, True).
Proof.
  intros Hl Ho h [Hp Hc]. unfold store_at; cbn [fst snd]. split; [split|done].
  - destruct Hp as [k ->]. rewrite insert_app_r_alt by done.
    by apply prefix_app_r.
  - intros l' o' Hl' Hlook. destruct (decide (l = l')) as [<-|Hne].
    + apply list_lookup_insert_Some in Hlook as [[_ [<- _]]|[? _]]; done.
    + rewrite list_lookup_insert_ne in Hlook by done. by apply (Hc l').
Qed.

Lemma safe_as_dict (o : obj) (P : Prop) :
  (P → obj_fresh n o) →
  safe h0 (as_dict o) (λ d, P → map_Forall (λ _ l, n ≤ l) d).
Proof. destruct o; intros Ho; (apply safe_ret || apply safe_throw); done. Qed.

Lemma safe_as_face (o : obj) (P : Prop) :
  (P → obj_fresh n o) →
  safe h0 (as_face o) (λ rows, P → Forall (λ l, n ≤ l) rows).
Proof. destruct o; intros Ho; (apply safe_ret || apply safe_throw); done. Qed.

Lemma safe_as_row (o : obj) : safe h0 (as_row o) (λ _, True).
Proof. destruct o; (apply safe_ret || apply safe_throw); done. Qed.

Lemma safe_for_each {A} (l : list A) (body : A → Mem unit) :
  (∀ x, safe h0 (body x) (λ _, True)) → safe h0 (for_each l body) (λ _, True).
Proof.
  intros Hb. induction l as [|x l IH]; cbn; [by apply safe_ret|].
  eapply safe_bind; [apply Hb|]. by intros _ _.
Qed.

Lemma safe_map_each {A B} (f : A → Mem B) (Q : B → Prop) (l : list A) :
  (∀ x, safe h0 (f x) Q) → safe h0 (map_each f l) (Forall Q).
Proof.
  intros Hf. induction l as [|x l IH]; cbn; [by apply safe_ret|].
  eapply safe_bind; [apply Hf|]. intros y Hy.
  eapply safe_bind; [apply IH|]. intros ys Hys.
  apply safe_ret. by constructor.
Qed.

Lemma safe_dict_get (l : loc) (k : string) :
  safe h0 (dict_get l k) (λ v, n ≤ l → n ≤ v).
Proof.
  unfold dict_get. eapply safe_bind; [apply safe_load|]. intros o Ho.
  eapply safe_bind; [apply (safe_as_dict o (n ≤ l)), Ho|]. intros d Hd.
  destruct (d !! k) as [v|] eqn:Hk; [|apply safe_throw].
  apply safe_ret. intros Hl. by apply (Hd Hl k).
Qed.

Lemma safe_dict_set (l : loc) (k : string) (v : loc) :
  n ≤ l → n ≤ v → safe h0 (dict_set l k v) (λ _, True).
Proof.
  intros Hl Hv. unfold dict_set.
  eapply safe_bind; [apply safe_load|]. intros o Ho.
  eapply safe_bind; [apply (safe_as_dict o (n ≤ l)), Ho|]. intros d Hd.
  apply safe_store_at; [done|]. cbn. apply map_Forall_insert_2; auto.
Qed.

Lemma safe_face_get (l : loc) (i : nat) :
  safe h0 (face_get l i) (λ v, n ≤ l → n ≤ v).
Proof.
  unfold face_get. eapply safe_bind; [apply safe_load|]. intros o Ho.
  eapply safe_bind; [apply (safe_as_face o (n ≤ l)), Ho|]. intros rows Hrows.
  intros h Hh. split; [done|]. unfold lift, getidx; cbn.
  destruct (rows !! i) as [v|] eqn:Hi; [|done]. intros ? [= <-] Hl.
  by apply (Forall_lookup_1 _ _ _ _ (Hrows Hl) Hi).
Qed.

Lemma safe_face_set (l : loc) (i : nat) (v : loc) :
  n ≤ l → n ≤ v → safe h0 (face_set l i v) (λ _, True).
Proof.
  intros Hl Hv. unfold face_set.
  eapply safe_bind; [apply safe_load|]. intros o Ho.
  eapply safe_bind; [apply (safe_as_face o (n ≤ l)), Ho|]. intros rows Hrows.
  destruct (decide (i < length rows)); [|apply safe_throw].
  apply safe_store_at; [done|]. cbn. apply Forall_insert; auto.
Qed.

Lemma safe_row_cells (l : loc) : safe h0 (row_cells l) (λ _, True).
Proof.
  unfold row_cells. eapply safe_bind; [apply safe_load|]. intros o _.
  apply safe_as_row.
Qed.

Lemma safe_row_get (l : loc) (i : nat) : safe h0 (row_get l i) (λ _, True).
Proof.
  unfold row_get. eapply safe_bind; [apply safe_row_cells|]. intros cells _.
  apply safe_lift.
Qed.

Lemma safe_row_set (l : loc) (i : nat) (v : string) :
  n ≤ l → safe h0 (row_set l i v) (λ _, True).
Proof.
  intros Hl. unfold row_set.
  eapply safe_bind; [apply safe_row_cells|]. intros cells _.
  destruct (decide (i < length cells)); [|apply safe_throw].
  by apply safe_store_at.
Qed.

Lemma safe_get_row (c : loc) (f : string) (r : nat) :
  safe h0 (get_row c f r) (λ v, n ≤ c → n ≤ v).
Proof.
  unfold get_row. eapply safe_bind; [apply safe_dict_get|]. intros g Hg.
  eapply safe_weaken; [apply safe_face_get|]. cbn. auto.
Qed.

Lemma safe_sticker (c : loc) (f : string) (r k : nat) :
  safe h0 (sticker c f r k) (λ _, True).
Proof.
  unfold sticker. eapply safe_bind; [apply safe_get_row|]. intros row _.
  apply safe_row_get.
Qed.

Lemma safe_slice_row (c : loc) (f : string) (r : nat) :
  safe h0 (slice_row c f r) (λ v, n ≤ v).
Proof.
  unfold slice_row. eapply safe_bind; [apply safe_get_row|]. intros row _.
  eapply safe_bind; [apply safe_row_cells|]. intros cells _.
  by apply safe_alloc.
Qed.

Lemma safe_set_row (c : loc) (f : string) (r : nat) (row : loc) :
  n ≤ c → n ≤ row → safe h0 (set_row c f r row) (λ _, True).
Proof.
  intros Hc Hrow. unfold set_row.
  eapply safe_bind; [apply safe_dict_get|]. intros g Hg.
  apply safe_face_set; auto.
Qed.

Lemma safe_set_sticker (c : loc) (f : string) (r k : nat) (v : string) :
  n ≤ c → safe h0 (set_sticker c f r k v) (λ _, True).
Proof.
  intros Hc. unfold set_sticker.
  eapply safe_bind; [apply safe_get_row|]. intros row Hrow.
  apply safe_row_set; auto.
Qed.

Lemma safe_read_grid (l : loc) : safe h0 (read_grid l) (λ _, True).
Proof.
  unfold read_grid. eapply safe_bind; [apply safe_load|]. intros o _.
  eapply safe_bind; [apply (safe_as_face o False); tauto|]. intros rows _.
  eapply safe_weaken; [apply safe_map_each, safe_row_cells|done].
Qed.

Lemma safe_alloc_grid (g : face) : safe h0 (alloc_grid g) (λ v, n ≤ v).
Proof.
  unfold alloc_grid.
  eapply safe_bind.
  { apply (safe_map_each _ (λ l, n ≤ l)). intros cells. by apply safe_alloc. }
  intros rows Hrows. by apply safe_alloc.
Qed.

(** *** deepcopy returns new objects only *)

Lemma safe_copy_row (memo : gmap loc loc) (l : loc) :
  memo_fresh n memo →
  safe h0 (copy_row memo l) (λ r, n ≤ r.1 ∧ memo_fresh n r.2).
Proof.
  intros Hm. unfold copy_row. destruct (memo !! l) as [l'|] eqn:Hl.
  - apply safe_ret. split; [by apply (Hm l)|done].
  - eapply safe_bind; [apply safe_row_cells|]. intros cells _.
    eapply safe_bind; [by apply safe_alloc|]. intros l' Hl'.
    apply safe_ret. split; [done|]. by apply map_Forall_insert_2.
Qed.

Lemma safe_copy_rows (memo : gmap loc loc) (ls : list loc) :
  memo_fresh n memo →
  safe h0 (copy_rows memo ls)
    (λ r, Forall (λ l, n ≤ l) r.1 ∧ memo_fresh n r.2).
Proof.
  revert memo. induction ls as [|l ls IH]; intros memo Hm; cbn.
  - by apply safe_ret.
  - eapply safe_bind; [by apply safe_copy_row|]. intros r [Hr Hm1].
    eapply safe_bind; [by apply IH|]. intros rs [Hrs Hm2].
    apply safe_ret. split; [by constructor|done].
Qed.

Lemma safe_copy_face (memo : gmap loc loc) (l : loc) :
  memo_fresh n memo →
  safe h0 (copy_face memo l) (λ r, n ≤ r.1 ∧ memo_fresh n r.2).
Proof.
  intros Hm. unfold copy_face. destruct (memo !! l) as [l'|] eqn:Hl.
  - apply safe_ret. split; [by apply (Hm l)|done].
  - eapply safe_bind; [apply safe_load|]. intros o _.
    eapply safe_bind; [apply (safe_as_face o False); tauto|]. intros rows _.
    eapply safe_bind; [by apply safe_copy_rows|]. intros rs [Hrs Hm1].
    eapply safe_bind; [by apply safe_alloc|]. intros l' Hl'.
    apply safe_ret. split; [done|]. by apply map_Forall_insert_2.
Qed.

Lemma safe_copy_items (memo : gmap loc loc) (items : list (string * loc)) :
  memo_fresh n memo →
  safe h0 (copy_items memo items)
    (λ r, Forall (λ kl, n ≤ kl.2) r.1 ∧ memo_fresh n r.2).
Proof.
  revert memo. induction items as [|[k l] items IH]; intros memo Hm; cbn.
  - by apply safe_ret.
  - eapply safe_bind; [by apply safe_copy_face|]. intros r [Hr Hm1].
    eapply safe_bind; [by apply IH|]. intros rs [Hrs Hm2].
    apply safe_ret. split; [by constructor|done].
Qed.

Lemma list_to_map_fresh (items : list (string * loc)) :
  Forall (λ kl, n ≤ kl.2) items →
  map_Forall (λ _ l, n ≤ l) (list_to_map items : gmap string loc).
Proof.
  intros Hall k l Hk. apply elem_of_list_to_map_2 in Hk.
  by apply (proj1 (Forall_forall _ _) Hall (k, l)).
Qed.

Lemma safe_deepcopy (c : loc) : safe h0 (deepcopy c) (λ v, n ≤ v).
Proof.
  unfold deepcopy. eapply safe_bind; [apply safe_load|]. intros o _.
  eapply safe_bind; [apply (safe_as_dict o False); tauto|]. intros d _.
  eapply safe_bind; [apply safe_copy_items, map_Forall_empty|].
  intros rs [Hrs _]. apply safe_alloc. by apply list_to_map_fresh.
Qed.

(** *** The turns write to the copy only *)

Ltac safe_seq :=
  repeat first
    [ apply safe_ret; done
    | apply safe_set_row; assumption
    | apply safe_set_sticker; assumption
    | apply safe_for_each; intros ?
    | eapply safe_bind;
        [ first [ apply safe_slice_row | apply safe_sticker | apply safe_row_get
                | apply safe_set_row; assumption
                | apply safe_set_sticker; assumption
                | apply safe_alloc; done ]
        | cbn beta; intros ? ? ] ].

Lemma safe_turn_once (face_char : string) (c : loc) :
  n ≤ c → safe h0 (turn_once face_char c) (λ _, True).
Proof.
  intros Hc. unfold turn_once.
  eapply safe_bind; [apply safe_dict_get|]. intros g _.
  eapply safe_bind; [apply safe_read_grid|]. intros grid _.
  eapply safe_bind; [apply safe_alloc_grid|]. intros g' Hg'.
  eapply safe_bind; [by apply safe_dict_set|]. intros _ _.
  repeat (destruct (String.eqb face_char _)); safe_seq.
Qed.

Lemma safe_repeat_turn (turns : nat) (face_char : string) (c : loc) :
  n ≤ c → safe h0 (repeat_turn turns face_char c) (λ _, True).
Proof.
  intros Hc. induction turns as [|k IH]; cbn; [by apply safe_ret|].
  eapply safe_bind; [by apply safe_turn_once|]. by intros _ _.
Qed.

Lemma safe_apply_move (c : loc) (move : string) :
  safe h0 (apply_move c move) (λ v, n ≤ v).
Proof.
  unfold apply_move. destruct move as [|m0 suffix]; [apply safe_throw|].
  destruct (negb _); [apply safe_throw|].
  destruct (negb _); [apply safe_throw|].
  eapply safe_bind; [apply safe_deepcopy|]. intros c' Hc'.
  eapply safe_bind; [by apply safe_repeat_turn|]. intros _ _.
  by apply safe_ret.
Qed.

Lemma safe_CubeSolver (c : loc) :
  safe h0 (CubeSolver c) (λ s, n ≤ self_cube s).
Proof.
  unfold CubeSolver. eapply safe_bind; [apply safe_deepcopy|]. intros c' Hc'.
  do 6 (eapply safe_bind; [apply safe_sticker|]; intros ? _).
  by apply safe_ret.
Qed.

Lemma safe_read_cube (c : loc) : safe h0 (read_cube c) (λ _, True).
Proof.
  unfold read_cube. eapply safe_bind; [apply safe_load|]. intros o _.
  eapply safe_bind; [apply (safe_as_dict o False); tauto|]. intros d _.
  eapply safe_bind.
  { apply (safe_map_each _ (λ _, True)). intros kl.
    eapply safe_bind; [apply safe_read_grid|]. intros g _. by apply safe_ret. }
  intros items _. by apply safe_ret.
Qed.

(** *** The methods of the solver *)

Lemma frames_ret (A : Type) (a : A) : frames h0 A (mret a).
Proof. by intros s h Hh Hs. Qed.

Lemma frames_raise (A : Type) (e : exn) : frames h0 A (raise e).
Proof. by intros s h Hh Hs. Qed.

Lemma frames_bind (A B : Type) (m : SM A) (k : A → SM B) :
  frames h0 A m → (∀ a, frames h0 B (k a)) → frames h0 B (m ≫= k).
Proof.
  intros Hm Hk s h Hh Hs. destruct (Hm s h Hh Hs) as [Hh1 Hs1].
  change (run (m ≫= k) s h) with
    (match run m s h with
     | (Ok a, s', h') => run (k a) s' h'
     | (Raise e, s', h') => (Raise e, s', h')
     end).
  destruct (run m s h) as [[[a|e] s1] h1]; [by apply Hk|done].
Qed.

Lemma frames_try (A : Type) (m : SM A) (handler : exn → SM A) :
  frames h0 A m → (∀ e, frames h0 A (handler e)) →
  frames h0 A (try_except m handler).
Proof.
  intros Hm Hk s h Hh Hs. destruct (Hm s h Hh Hs) as [Hh1 Hs1].
  change (run (try_except m handler) s h) with
    (match run m s h with
     | (Ok a, s', h') => (Ok a, s', h')
     | (Raise e, s', h') => run (handler e) s' h'
     end).
  destruct (run m s h) as [[[a|e] s1] h1]; [done|by apply Hk].
Qed.

Lemma frames_gets {A} (f : solver → A) : frames h0 A (gets f).
Proof. by intros s h Hh Hs. Qed.

Lemma frames_on_cube {A} (m : loc → Mem A) :
  (∀ c, safe h0 (m c) (λ _, True)) → frames h0 A (on_cube m).
Proof.
  intros Hm s h Hh Hs. split; [|done]. apply (Hm (self_cube s) h Hh).
Qed.

Lemma frames_log_move (move : string) : frames h0 unit (log_move move).
Proof. by intros s h Hh Hs. Qed.

Lemma frames_move_cube (move : string) : frames h0 unit (move_cube move).
Proof.
  intros s h Hh Hs. destruct (safe_apply_move (self_cube s) move h Hh) as [He Hc].
  change (run (move_cube move) s h) with (SM_move_cube move s h).
  unfold SM_move_cube.
  destruct (apply_move (self_cube s) move h) as [[c|e] h1]; cbn in *; [|done].
  split; [done|]. by apply Hc.
Qed.

Lemma frames_apply (moves : list string) : frames h0 unit (_apply moves).
Proof.
  unfold _apply.
  apply frames_bind; [apply (frames_gets self_solution)|]. intros sol.
  apply frames_bind; [apply (frames_gets self_max_moves)|]. intros most.
  destruct (decide _); [apply frames_raise|].
  apply (P_for_each_M (frames h0) frames_ret frames_bind). intros move.
  apply frames_bind; [apply frames_move_cube|]. intros _.
  apply frames_log_move.
Qed.

(** [solve] keeps the caller's objects. *)
Lemma frames_solve : frames h0 _ solve.
Proof.
  apply (P_solve (frames h0)).
  - apply frames_ret.
  - apply frames_bind.
  - apply frames_raise.
  - apply frames_try.
  - intros f r k. apply frames_on_cube. intros c. apply safe_sticker.
  - apply frames_on_cube. intros c.
    eapply safe_bind; [apply safe_read_cube|]. intros v _. apply safe_lift.
  - apply frames_on_cube. intros c.
    eapply safe_bind; [apply safe_read_cube|]. intros v _. apply safe_lift.
  - apply (frames_gets self_face_colors).
  - apply (frames_gets self_white_color).
  - apply (frames_gets self_yellow_color).
  - apply (frames_gets self_solution).
  - intros moves _. apply frames_apply.
Qed.

Lemma safe_solve_cube (c : loc) : safe h0 (solve_cube c) (λ _, True).
Proof.
  intros h Hh. split; [|done]. unfold solve_cube.
  destruct (safe_CubeSolver c h Hh) as [Hh1 Hs].
  destruct (CubeSolver c h) as [[s|e] h1]; cbn in *; [|done].
  by apply frames_solve; [|apply Hs].
Qed.

End StoreFrame.

(** On a cube without sharing the store model and the value model of
    [apply_move] return the same state. *)
Lemma store_apply_move_agrees (c : cube) (m : string) :
  well_shaped c → valid_move m → via_store c m = apply_move c m.
Proof.
  intros Hc (f & s & Hf & Hs & ->)%valid_move_inv. cube_cases Hc.
  face_cases Hf; apply suffixes_cases in Hs as [->|[->| ->]];
    by_eval.
Qed.

(** ** Reading after a call *)

Section Reads.
Import Store.

Lemma reads_ret {A} (a : A) : reads (mret a : Mem A).
Proof. intros h h' a' Hp [= <-]. done. Qed.

Lemma reads_throw {A} (e : exn) : reads (throw e : Mem A).
Proof. by intros h h' a Hp ?. Qed.

Lemma reads_lift {A} (r : result A) : reads (lift r).
Proof. intros h h' a Hp. unfold lift; cbn. by intros ->. Qed.

Lemma reads_bind {A B} (m : Mem A) (k : A → Mem B) :
  reads m → (∀ a, reads (k a)) → reads (m ≫= k).
Proof.
  intros Hm Hk h h' b Hp. unfold mbind, Mem_bind.
  specialize (Hm h h').
  destruct (m h) as [[a|e] h1] eqn:Hmh; cbn in *; [|done].
  destruct (Hm a Hp eq_refl) as [-> ->]. apply (Hk a h h' b Hp).
Qed.

Lemma reads_load (l : loc) : reads (load l).
Proof.
  intros h h' o Hp. unfold load.
  destruct (h !! l) as [o'|] eqn:Hl; cbn; [|done]. intros [= <-].
  by rewrite (prefix_lookup_Some h h' l o' Hl Hp).
Qed.

Lemma reads_as_dict (o : obj) : reads (as_dict o).
Proof. destruct o; (apply reads_ret || apply reads_throw). Qed.

Lemma reads_as_face (o : obj) : reads (as_face o).
Proof. destruct o; (apply reads_ret || apply reads_throw). Qed.

Lemma reads_as_row (o : obj) : reads (as_row o).
Proof. destruct o; (apply reads_ret || apply reads_throw). Qed.

Lemma reads_map_each {A B} (f : A → Mem B) (l : list A) :
  (∀ x, reads (f x)) → reads (map_each f l).
Proof.
  intros Hf. induction l as [|x l IH]; cbn [map_each]; [apply reads_ret|].
  apply reads_bind; [apply Hf|]. intros y.
  apply reads_bind; [apply IH|]. intros ys. apply reads_ret.
Qed.

Lemma reads_row_cells (l : loc) : reads (row_cells l).
Proof.
  unfold row_cells. apply reads_bind; [apply reads_load|]. apply reads_as_row.
Qed.

Lemma reads_read_grid (l : loc) : reads (read_grid l).
Proof.
  unfold read_grid. apply reads_bind; [apply reads_load|]. intros o.
  apply reads_bind; [apply reads_as_face|]. intros rows.
  apply reads_map_each, reads_row_cells.
Qed.

Lemma reads_read_cube (c : loc) : reads (read_cube c).
Proof.
  unfold read_cube. apply reads_bind; [apply reads_load|]. intros o.
  apply reads_bind; [apply reads_as_dict|]. intros d.
  apply reads_bind; [|intros items; apply reads_ret].
  apply reads_map_each. intros kl.
  apply reads_bind; [apply reads_read_grid|]. intros g. apply reads_ret.
Qed.

End Reads.

(** On the cube after [R U R' U'], allocated in the empty store, the solver
    on objects returns what the solver on values returns. *)
Lemma store_solve_agrees_on_scramble :
  ((l ← Store.alloc_cube scrambled_cube; Store.solve_cube l) []).1 =
  solve_cube scrambled_cube.
Proof. by_eval. Qed.

(** C6. Whatever the store, the cube reference and the move: after
    [apply_move], and after [CubeSolver(state).solve()], every object that
    existed before the call is unchanged, also when the call raises, so the
    caller's state reads as before; the state that [apply_move] returns and
    the cube the solver works on are objects allocated during the call. *)
Theorem caller_state_never_mutated (h : Store.store) (c : Store.loc)
    (move : string) :
  (∀ l o, h !! l = Some o → (Store.apply_move c move h).2 !! l = Some o) ∧
  (∀ c', (Store.apply_move c move h).1 = Ok c' → length h ≤ c') ∧
  (∀ l o, h !! l = Some o → (Store.solve_cube c h).2 !! l = Some o) ∧
  (∀ s, (Store.CubeSolver c h).1 = Ok s → length h ≤ Store.self_cube s) ∧
  (∀ v, (Store.read_cube c h).1 = Ok v →
     (Store.read_cube c (Store.apply_move c move h).2).1 = Ok v ∧
     (Store.read_cube c (Store.solve_cube c h).2).1 = Ok v).
Proof.
  pose proof (extends_start h) as Hh.
  destruct (safe_apply_move h c move h Hh) as [[Hp1 _] Hnew1].
  destruct (safe_solve_cube h c h Hh) as [[Hp2 _] _].
  destruct (safe_CubeSolver h c h Hh) as [_ Hnew2].
  split; [|split; [done|split; [|split; [done|]]]].
  - intros l o Hl. by apply (prefix_lookup_Some h).
  - intros l o Hl. by apply (prefix_lookup_Some h).
  - intros v Hv. split.
    + by rewrite (proj2 (reads_read_cube c h _ v Hp1 Hv)).
    + by rewrite (proj2 (reads_read_cube c h _ v Hp2 Hv)).
Qed.

(** ** The theorems at concrete inputs *)

Lemma validate_ok_structurally_valid (c : cube) :
  validate_cube c = Ok true → structurally_valid c.
Proof.
  intros H. destruct (validate_cube_spec c) as [[Hv _]|[_ [msg Hr]]]; [done|].
  by rewrite H in Hr.
Qed.

Lemma scrambled_cube_valid : structurally_valid scrambled_cube.
Proof. apply validate_ok_structurally_valid. by_eval. Qed.

Lemma solved_cube_valid : structurally_valid solved_cube.
Proof. apply validate_ok_structurally_valid. by_eval. Qed.

Lemma valid_move_decide (m : string) :
  bool_decide (valid_move m) = true → valid_move m.
Proof. apply bool_decide_eq_true_1. Qed.

Lemma apply_move_permutes_tokens_witness :
  structurally_valid scrambled_cube ∧ valid_move "R'" ∧
  ∃ c', apply_move scrambled_cube "R'" = Ok c' ∧
    tokens c' ≡ₚ tokens scrambled_cube ∧ length (tokens c') = 54.
Proof.
  assert (Hm : valid_move "R'") by (apply valid_move_decide; reflexivity).
  split; [exact scrambled_cube_valid|]. split; [exact Hm|].
  exact (apply_move_permutes_tokens scrambled_cube "R'" scrambled_cube_valid Hm).
Defined.

Lemma move_order_four_and_inverse_witness :
  structurally_valid scrambled_cube ∧ valid_move "F'" ∧
  replay scrambled_cube ["F'"; "F'"; "F'"; "F'"] = Ok scrambled_cube ∧
  replay scrambled_cube ["F'"; "F"] = Ok scrambled_cube.
Proof.
  assert (Hm : valid_move "F'") by (apply valid_move_decide; reflexivity).
  split; [exact scrambled_cube_valid|]. split; [exact Hm|].
  exact (move_order_four_and_inverse scrambled_cube "F'" scrambled_cube_valid Hm).
Defined.

Lemma apply_move_fails_iff_malformed_witness :
  structurally_valid solved_cube ∧ valid_move "U2" ∧
  (∃ c', apply_move solved_cube "U2" = Ok c') ∧
  ¬ head_is_face "X2" ∧
  apply_move solved_cube "X2" = Raise (ValueError "Invalid move: X2") ∧
  head_is_face "U3" ∧ ¬ suffix_ok "U3" ∧
  apply_move solved_cube "U3" = Raise (ValueError "Invalid move suffix: 3").
Proof.
  assert (Hm : valid_move "U2") by (apply valid_move_decide; reflexivity).
  assert (Hx : ¬ head_is_face "X2") by (apply (bool_decide_unpack _); reflexivity).
  assert (Hh : head_is_face "U3") by (apply (bool_decide_unpack _); reflexivity).
  assert (Hs : ¬ suffix_ok "U3") by (apply (bool_decide_unpack _); reflexivity).
  split; [exact solved_cube_valid|]. split; [exact Hm|].
  split; [exact (proj1 (proj2 (proj2 (apply_move_fails_iff_malformed solved_cube "U2")))
                   solved_cube_valid Hm)|].
  split; [exact Hx|].
  split; [exact (proj1 (apply_move_fails_iff_malformed solved_cube "X2") Hx)|].
  split; [exact Hh|]. split; [exact Hs|].
  exact (proj1 (proj2 (apply_move_fails_iff_malformed solved_cube "U3")) Hh Hs).
Defined.

Lemma optimizer_preserves_final_state_witness :
  structurally_valid scrambled_cube ∧
  Forall valid_move ["R"; "R"; "U"; "U'"; "F"] ∧
  ∃ out c', optimize_from ["R"; "R"; "U"; "U'"; "F"] [] = Ok out ∧
    replay scrambled_cube ["R"; "R"; "U"; "U'"; "F"] = Ok c' ∧
    replay scrambled_cube out = Ok c'.
Proof.
  assert (Hsol : Forall valid_move ["R"; "R"; "U"; "U'"; "F"]).
  { repeat (apply Forall_cons_2; [apply valid_move_decide; reflexivity|]).
    apply Forall_nil_2. }
  split; [exact scrambled_cube_valid|]. split; [exact Hsol|].
  exact (optimizer_preserves_final_state scrambled_cube _ scrambled_cube_valid Hsol).
Defined.

(** * Further properties of the code *)

(** ** rotate_face on grids of any size *)

Lemma cell_None (g : face) (r n i j : nat) :
  rect r n g → r ≤ i ∨ n ≤ j → cell g i j = None.
Proof.
  intros [Hr Hn] Hij. unfold cell.
  destruct (g !! i) as [row|] eqn:Hrow; [|done]. cbn.
  apply lookup_lt_Some in Hrow as Hi.
  apply lookup_ge_None_2.
  rewrite (proj1 (Forall_lookup _ _) Hn i row Hrow). lia.
Qed.

(** Grids of one shape with the same stickers are equal. *)
Lemma rect_ext (g h : face) (r n : nat) :
  rect r n g → rect r n h →
  (∀ i j, i < r → j < n → cell g i j = cell h i j) → g = h.
Proof.
  intros [Hgr Hgn] [Hhr Hhn] Hcell.
  apply (list_eq_same_length _ _ r); [done|done|].
  intros i row row' Hi Hrow Hrow'.
  pose proof (proj1 (Forall_lookup _ _) Hgn i row Hrow) as Hl.
  pose proof (proj1 (Forall_lookup _ _) Hhn i row' Hrow') as Hl'.
  apply (list_eq_same_length _ _ n); [done|done|].
  intros j x y Hj Hx Hy. specialize (Hcell i j Hi Hj).
  unfold cell in Hcell. rewrite Hrow, Hrow' in Hcell. cbn in Hcell. congruence.
Qed.

(** [zip] over the unpacked rows of a grid transposes it. *)
Lemma zip_star_rect (rows : face) (r n : nat) :
  0 < r → rect r n rows →
  rect n r (zip_star rows) ∧
  ∀ i j, cell (zip_star rows) i j = cell rows j i.
Proof.
  intros Hr [Hlen Hall]. revert r Hr Hlen.
  induction Hall as [|row rows Hrow Hall IH]; intros r Hr Hlen; [cbn in Hlen; lia|].
  destruct rows as [|row' rows'].
  - cbn in Hlen. subst r. cbn [zip_star]. split; [split|].
    + by rewrite length_fmap.
    + apply Forall_fmap, Forall_forall. by intros x _.
    + intros i j. unfold cell. rewrite list_lookup_fmap.
      destruct j as [|j]; cbn.
      * by destruct (row !! i).
      * by destruct (row !! i).
  - destruct (IH (length (row' :: rows')) ltac:(cbn [length]; lia) eq_refl)
      as [[Hzl Hzr] Hcell].
    change (zip_star (row :: row' :: rows'))
      with (zip_with cons row (zip_star (row' :: rows'))).
    remember (zip_star (row' :: rows')) as zs eqn:Hzs. clear Hzs.
    split; [split|].
    + rewrite length_zip_with. lia.
    + apply Forall_forall. intros col Hcol.
      apply elem_of_zip_with in Hcol as (x & col' & -> & _ & Hcol').
      cbn [length]. rewrite (proj1 (Forall_forall _ _) Hzr col' Hcol').
      by rewrite <- Hlen.
    + intros i j. unfold cell at 1. rewrite lookup_zip_with.
      destruct (row !! i) as [x|] eqn:Hx; cbn.
      * destruct (lookup_lt_is_Some_2 zs i) as [col Hcol].
        { apply lookup_lt_Some in Hx. lia. }
        rewrite Hcol. cbn. destruct j as [|j]; cbn.
        -- unfold cell. cbn. by rewrite Hx.
        -- change (col !! j = cell (row' :: rows') j i).
           rewrite <- Hcell. unfold cell. by rewrite Hcol.
      * apply lookup_ge_None_1 in Hx.
        symmetry. apply (cell_None _ r n); [|lia].
        split; [done|]. by constructor.
Qed.

Lemma reverse_rect (g : face) (r n : nat) :
  rect r n g →
  rect r n (reverse g) ∧
  ∀ i j, i < r → cell (reverse g) i j = cell g (r - 1 - i) j.
Proof.
  intros [Hr Hn]. split; [split|].
  - by rewrite length_reverse.
  - by apply Forall_reverse.
  - intros i j Hi. unfold cell. rewrite reverse_lookup by lia.
    by replace (length g - S i) with (r - 1 - i) by lia.
Qed.

Lemma rotate_face_rect (g : face) (r n : nat) :
  0 < r → rect r n g →
  rect n r (rotate_face g) ∧
  ∀ i j, j < r → cell (rotate_face g) i j = cell g (r - 1 - j) i.
Proof.
  intros Hr Hg. destruct (reverse_rect g r n Hg) as [Hrev Hcr].
  destruct (zip_star_rect (reverse g) r n Hr Hrev) as [Hz Hcz].
  split; [done|]. intros i j Hj. unfold rotate_face. by rewrite Hcz, Hcr.
Qed.

(** X1. A grid of [r] rows and [n] columns becomes one of [n] rows and [r]
    columns whose sticker in row [i], column [j] is the sticker of the input
    in row [r - 1 - j], column [i]: a quarter turn clockwise. Four rotations
    give back the grid. *)
Theorem rotate_face_quarter_turn (g : face) (r n : nat) :
  0 < r → 0 < n → rect r n g →
  rect n r (rotate_face g) ∧
  (∀ i j, j < r → cell (rotate_face g) i j = cell g (r - 1 - j) i) ∧
  rotate_face (rotate_face (rotate_face (rotate_face g))) = g.
Proof.
  intros Hr Hn Hg.
  destruct (rotate_face_rect g r n Hr Hg) as [H1 C1].
  destruct (rotate_face_rect _ n r Hn H1) as [H2 C2].
  destruct (rotate_face_rect _ r n Hr H2) as [H3 C3].
  destruct (rotate_face_rect _ n r Hn H3) as [H4 C4].
  split; [done|]. split; [done|].
  apply (rect_ext _ _ r n); [done|done|]. intros i j Hi Hj.
  rewrite C4, C3, C2, C1 by lia. f_equal; lia.
Qed.

Lemma rotate_face_quarter_turn_witness :
  0 < 2 ∧ 0 < 3 ∧ rect 2 3 [["a"; "b"; "c"]; ["d"; "e"; "f"]] ∧
  rect 3 2 (rotate_face [["a"; "b"; "c"]; ["d"; "e"; "f"]]) ∧
  rotate_face (rotate_face (rotate_face (rotate_face
    [["a"; "b"; "c"]; ["d"; "e"; "f"]]))) = [["a"; "b"; "c"]; ["d"; "e"; "f"]].
Proof.
  assert (Hg : rect 2 3 [["a"; "b"; "c"]; ["d"; "e"; "f"]])
    by (split; [reflexivity|repeat constructor]).
  split; [lia|]. split; [lia|]. split; [exact Hg|].
  split; [exact (proj1 (rotate_face_quarter_turn _ 2 3 ltac:(lia) ltac:(lia) Hg))
         |exact (proj2 (proj2 (rotate_face_quarter_turn _ 2 3 ltac:(lia) ltac:(lia) Hg)))].
Defined.

Lemma zip_star_ragged (rows : face) :
  rows ≠ [] →
  (∀ row, row ∈ rows → length (zip_star rows) ≤ length row) ∧
  (∃ row, row ∈ rows ∧ length (zip_star rows) = length row) ∧
  Forall (λ col, length col = length rows) (zip_star rows).
Proof.
  induction rows as [|row rows IH]; [done|]. intros _.
  destruct rows as [|row' rows'].
  - cbn [zip_star]. rewrite length_fmap. split; [|split].
    + by intros ? ->%list_elem_of_singleton.
    + exists row. split; [apply list_elem_of_singleton|]; done.
    + apply Forall_fmap, Forall_forall. by intros x _.
  - destruct (IH ltac:(done)) as (Hle & (short & Hin & Heq) & Hcols).
    change (zip_star (row :: row' :: rows'))
      with (zip_with cons row (zip_star (row' :: rows'))).
    remember (zip_star (row' :: rows')) as zs eqn:Hzs. clear Hzs.
    rewrite length_zip_with. split; [|split].
    + intros r [->|Hr]%elem_of_cons; [lia|]. specialize (Hle r Hr). lia.
    + destruct (decide (length row ≤ length zs)).
      * exists row. split; [left|lia].
      * exists short. split; [by right|lia].
    + apply Forall_forall. intros col Hcol.
      apply elem_of_zip_with in Hcol as (x & col' & -> & _ & Hcol').
      cbn [length]. by rewrite (proj1 (Forall_forall _ _) Hcols col' Hcol').
Qed.

(** X2. Rows of different lengths are cut at the shortest one, and nothing is
    raised: the result has as many rows as the shortest row of the input has
    stickers, each as long as the input has rows. A grid with an empty row
    gives the empty grid. *)
Theorem rotate_face_cuts_at_shortest_row (g : face) :
  g ≠ [] →
  (∀ row, row ∈ g → length (rotate_face g) ≤ length row) ∧
  (∃ row, row ∈ g ∧ length (rotate_face g) = length row) ∧
  Forall (λ col, length col = length g) (rotate_face g) ∧
  ([] ∈ g → rotate_face g = []).
Proof.
  intros Hg. assert (Hrev : reverse g ≠ []).
  { intros H. apply (f_equal length) in H. rewrite length_reverse in H.
    destruct g; [done|discriminate]. }
  destruct (zip_star_ragged (reverse g) Hrev) as (Hle & (short & Hin & Heq) & Hcols).
  unfold rotate_face. split; [|split; [|split]].
  - intros row Hrow. apply Hle. by apply elem_of_reverse.
  - exists short. split; [by apply elem_of_reverse|done].
  - by rewrite length_reverse in Hcols.
  - intros Hempty. apply nil_length_inv.
    specialize (Hle [] ltac:(by apply elem_of_reverse)). cbn in Hle. lia.
Qed.

Lemma rotate_face_cuts_at_shortest_row_witness :
  [["a"; "b"; "c"]; ["d"]; ["e"; "f"]] ≠ [] ∧
  (∃ row, row ∈ [["a"; "b"; "c"]; ["d"]; ["e"; "f"]] ∧
     length (rotate_face [["a"; "b"; "c"]; ["d"]; ["e"; "f"]]) = length row) ∧
  rotate_face [["a"; "b"; "c"]; ["d"]; ["e"; "f"]] = [["e"; "d"; "a"]].
Proof.
  assert (H : [["a"; "b"; "c"]; ["d"]; ["e"; "f"]] ≠ []) by discriminate.
  split; [exact H|].
  split; [exact (proj1 (proj2 (rotate_face_cuts_at_shortest_row _ H)))|].
  reflexivity.
Defined.

(** ** The engine: what a move keeps *)

Lemma structurally_valid_validate (c : cube) :
  structurally_valid c → validate_cube c = Ok true.
Proof.
  intros H. destruct (validate_cube_spec c) as [[_ Hv]|[Hn _]]; [done|tauto].
Qed.

(** X3. A valid move on a state the validator accepts gives a state the
    validator accepts. *)
Theorem apply_move_keeps_validity (c : cube) (m : string) :
  validate_cube c = Ok true → valid_move m →
  ∃ c', apply_move c m = Ok c' ∧ validate_cube c' = Ok true.
Proof.
  intros [Hc Hsz]%validate_ok_structurally_valid Hm.
  destruct (apply_move_spec c m Hc Hm) as (c' & Hok & Hc' & Hp).
  exists c'. split; [done|]. apply structurally_valid_validate.
  split; [done|].
  by rewrite (list_to_set_perm_L (C:=gset string) _ _ Hp).
Qed.

Lemma apply_move_keeps_validity_witness :
  validate_cube scrambled_cube = Ok true ∧ valid_move "B2" ∧
  ∃ c', apply_move scrambled_cube "B2" = Ok c' ∧ validate_cube c' = Ok true.
Proof.
  assert (Hv : validate_cube scrambled_cube = Ok true) by by_eval.
  assert (Hm : valid_move "B2") by (apply valid_move_decide; reflexivity).
  split; [exact Hv|]. split; [exact Hm|].
  exact (apply_move_keeps_validity scrambled_cube "B2" Hv Hm).
Defined.

Lemma apply_move_centre (c : cube) (m f : string) :
  well_shaped c → valid_move m → f ∈ face_letters →
  ∃ c', apply_move c m = Ok c' ∧ sticker c' f 1 1 = sticker c f 1 1.
Proof.
  intros Hc (g & s & Hg & Hs & ->)%valid_move_inv Hf. cube_cases Hc.
  face_cases Hg; apply suffixes_cases in Hs as [->|[->| ->]];
    eval_cube; face_cases Hf; reflexivity.
Qed.

Lemma replay_centres (c : cube) (moves : list string) (f : string) :
  well_shaped c → Forall valid_move moves → f ∈ face_letters →
  ∃ c', replay c moves = Ok c' ∧ sticker c' f 1 1 = sticker c f 1 1.
Proof.
  intros Hc Hmoves Hf. revert c Hc.
  induction Hmoves as [|m moves Hm _ IH]; intros c Hc; cbn [replay].
  - by exists c.
  - destruct (apply_move_spec c m Hc Hm) as (c1 & Hc1 & Hshape & _).
    destruct (apply_move_centre c m f Hc Hm Hf) as (c1' & Hc1' & Hcentre).
    rewrite Hc1 in Hc1'. injection Hc1' as <-. rewrite Hc1.
    cbn [mbind result_bind]. destruct (IH c1 Hshape) as (c' & -> & Hc').
    exists c'. split; [done|]. by rewrite Hc'.
Qed.

(** X4. No move and no sequence of moves changes a centre sticker. *)
Theorem moves_fix_centres (c : cube) (f : string) :
  well_shaped c → f ∈ face_letters →
  (∀ m, valid_move m →
     ∃ c', apply_move c m = Ok c' ∧ sticker c' f 1 1 = sticker c f 1 1) ∧
  (∀ moves, Forall valid_move moves →
     ∃ c', replay c moves = Ok c' ∧ sticker c' f 1 1 = sticker c f 1 1).
Proof.
  intros Hc Hf. split.
  - intros m Hm. by apply apply_move_centre.
  - intros moves Hmoves. by apply replay_centres.
Qed.

Lemma moves_fix_centres_witness :
  well_shaped scrambled_cube ∧ "F" ∈ face_letters ∧
  (∃ c', apply_move scrambled_cube "L'" = Ok c' ∧
     sticker c' "F" 1 1 = sticker scrambled_cube "F" 1 1) ∧
  (∃ c', replay scrambled_cube ["L'"; "U2"; "F"] = Ok c' ∧
     sticker c' "F" 1 1 = sticker scrambled_cube "F" 1 1).
Proof.
  assert (Hf : "F" ∈ face_letters) by (apply (bool_decide_unpack _); reflexivity).
  assert (Hm : valid_move "L'") by (apply valid_move_decide; reflexivity).
  assert (Hmoves : Forall valid_move ["L'"; "U2"; "F"]).
  { repeat (apply Forall_cons_2; [apply valid_move_decide; reflexivity|]).
    apply Forall_nil_2. }
  split; [exact (proj1 scrambled_cube_valid)|]. split; [exact Hf|].
  split;
    [exact (proj1 (moves_fix_centres scrambled_cube "F"
                     (proj1 scrambled_cube_valid) Hf) "L'" Hm)
    |exact (proj2 (moves_fix_centres scrambled_cube "F"
                     (proj1 scrambled_cube_valid) Hf) _ Hmoves)].
Defined.

(** ** The engine: how moves compose *)

Lemma suffix_in (s : string) : s = "" ∨ s = "'" ∨ s = "2" → s ∈ suffixes.
Proof. intros [->|[->| ->]]; unfold suffixes; repeat constructor. Qed.

(** X5. On every cube, also one on which the turn fails, the half turn is the
    quarter turn made twice and the counter-clockwise turn is the quarter turn
    made three times. *)
Theorem half_and_prime_are_repeated_quarter_turns (c : cube) (f : string) :
  f ∈ face_letters →
  apply_move c (f +:+ "2") = replay c [f; f] ∧
  apply_move c (f +:+ "'") = replay c [f; f; f].
Proof.
  intros Hf.
  assert (H1 : ∀ c0, apply_move c0 f = repeat_turn 1 f c0).
  { intros c0. by face_cases Hf. }
  assert (Hone : ∀ c0, replay c0 [f] = repeat_turn 1 f c0).
  { intros c0. cbn [replay]. rewrite H1. by destruct (repeat_turn 1 f c0). }
  rewrite !apply_move_valid by (done || apply suffix_in; tauto).
  split.
  - change (move_turns "2") with (1 + 1). rewrite repeat_turn_add.
    change (replay c [f; f]) with (c1 ← apply_move c f; replay c1 [f]).
    rewrite H1. destruct (repeat_turn 1 f c) as [c1|e]; [|done].
    cbn [mbind result_bind]. by rewrite Hone.
  - change (move_turns "'") with (1 + (1 + 1)). rewrite repeat_turn_add.
    change (replay c [f; f; f])
      with (c1 ← apply_move c f; c2 ← apply_move c1 f; replay c2 [f]).
    rewrite H1. destruct (repeat_turn 1 f c) as [c1|e]; [|done].
    cbn [mbind result_bind]. rewrite repeat_turn_add, H1.
    destruct (repeat_turn 1 f c1) as [c2|e]; [|done].
    cbn [mbind result_bind]. by rewrite Hone.
Qed.

Lemma half_and_prime_are_repeated_quarter_turns_witness :
  "R" ∈ face_letters ∧
  apply_move scrambled_cube "R2" = replay scrambled_cube ["R"; "R"] ∧
  apply_move scrambled_cube "R'" = replay scrambled_cube ["R"; "R"; "R"].
Proof.
  assert (Hf : "R" ∈ face_letters) by (apply (bool_decide_unpack _); reflexivity).
  split; [exact Hf|].
  exact (half_and_prime_are_repeated_quarter_turns scrambled_cube "R" Hf).
Defined.

Lemma opposite_faces_cases (f g : string) :
  (f, g) ∈ opposite_faces →
  (f = "U" ∧ g = "D") ∨ (f = "D" ∧ g = "U") ∨ (f = "F" ∧ g = "B") ∨
  (f = "B" ∧ g = "F") ∨ (f = "L" ∧ g = "R") ∨ (f = "R" ∧ g = "L").
Proof.
  unfold opposite_faces. intros H.
  repeat (apply elem_of_cons in H as [[= -> ->]|H]; [tauto|]).
  by apply elem_of_nil in H.
Qed.

(** X6. Moves of opposite faces commute, and a move leaves the opposite face
    as it is. *)
Theorem opposite_faces_commute (c : cube) (f g s t : string) :
  well_shaped c → (f, g) ∈ opposite_faces → s ∈ suffixes → t ∈ suffixes →
  replay c [f +:+ s; g +:+ t] = replay c [g +:+ t; f +:+ s] ∧
  ∃ c', apply_move c (f +:+ s) = Ok c' ∧ c' !! g = c !! g.
Proof.
  intros Hc Hfg Hs Ht. cube_cases Hc.
  apply opposite_faces_cases in Hfg as [[-> ->]|[[-> ->]|[[-> ->]|[[-> ->]|[[-> ->]|[-> ->]]]]]];
    apply suffixes_cases in Hs as [->|[->| ->]];
    (split;
     [apply suffixes_cases in Ht as [->|[->| ->]];
      lazymatch goal with
      | |- ?l = ?r =>
          let v := eval vm_compute in (faces6 r) in
          lazymatch v with
          | Some (?u', ?d', ?f', ?b', ?l', ?r') =>
              transitivity (Ok (mk_cube u' d' f' b' l' r'));
              [by_eval|symmetry; by_eval]
          end
      end
     |eval_cube; reflexivity]).
Qed.

Lemma opposite_faces_commute_witness :
  well_shaped scrambled_cube ∧ ("F", "B") ∈ opposite_faces ∧
  "'" ∈ suffixes ∧ "2" ∈ suffixes ∧
  replay scrambled_cube ["F'"; "B2"] = replay scrambled_cube ["B2"; "F'"] ∧
  ∃ c', apply_move scrambled_cube "F'" = Ok c' ∧
    c' !! "B" = scrambled_cube !! "B".
Proof.
  assert (Hfg : ("F", "B") ∈ opposite_faces)
    by (apply (bool_decide_unpack _); reflexivity).
  assert (Hs : "'" ∈ suffixes) by (apply (bool_decide_unpack _); reflexivity).
  assert (Ht : "2" ∈ suffixes) by (apply (bool_decide_unpack _); reflexivity).
  split; [exact (proj1 scrambled_cube_valid)|]. split; [exact Hfg|].
  split; [exact Hs|]. split; [exact Ht|].
  exact (opposite_faces_commute scrambled_cube "F" "B" "'" "2"
           (proj1 scrambled_cube_valid) Hfg Hs Ht).
Defined.

(** ** The engine: a missing face *)

(** X7. A turn of a face that the dictionary does not hold raises the key
    error of that face, whatever else the cube holds. *)
Theorem apply_move_missing_face (c : cube) (f s : string) :
  f ∈ face_letters → s ∈ suffixes → c !! f = None →
  apply_move c (f +:+ s) = Raise (KeyError f).
Proof.
  intros Hf Hs Hnone. rewrite apply_move_valid by done.
  pose proof (move_turns_range s Hs) as Hr.
  destruct (move_turns s) as [|n]; [lia|].
  cbn [repeat_turn]. unfold turn_once, getitem. by rewrite Hnone.
Qed.

Lemma apply_move_missing_face_witness :
  "L" ∈ face_letters ∧ "2" ∈ suffixes ∧ missing_face !! "L" = None ∧
  apply_move missing_face "L2" = Raise (KeyError "L").
Proof.
  assert (Hf : "L" ∈ face_letters) by (apply (bool_decide_unpack _); reflexivity).
  assert (Hs : "2" ∈ suffixes) by (apply (bool_decide_unpack _); reflexivity).
  assert (Hn : missing_face !! "L" = None) by reflexivity.
  split; [exact Hf|]. split; [exact Hs|]. split; [exact Hn|].
  exact (apply_move_missing_face missing_face "L" "2" Hf Hs Hn).
Defined.

(** ** apply_move on objects and on values *)

Lemma mem_bind_ok {A B} (m : Store.Mem A) (k : A → Store.Mem B)
    (h h1 : list Store.obj) (a : A) :
  m h = (Ok a, h1) → (m ≫= k) h = k a h1.
Proof. unfold mbind, Store.Mem_bind. by intros ->. Qed.

Lemma map_each_alloc_ok {A B} (f : A → Store.Mem B) (l : list A) (h : list Store.obj) :
  (∀ x h', ∃ y h'', f x h' = (Ok y, h'')) →
  ∃ ys h', Store.map_each f l h = (Ok ys, h').
Proof.
  intros Hf. revert h. induction l as [|x l IH]; intros h; cbn [Store.map_each].
  - by exists [], h.
  - destruct (Hf x h) as (y & h1 & Hy). rewrite (mem_bind_ok _ _ _ _ _ Hy).
    destruct (IH h1) as (ys & h2 & Hys). rewrite (mem_bind_ok _ _ _ _ _ Hys).
    by exists (y :: ys), h2.
Qed.

Lemma alloc_cube_ok (c : cube) (h : list Store.obj) :
  ∃ l h', Store.alloc_cube c h = (Ok l, h').
Proof.
  unfold Store.alloc_cube.
  destruct (map_each_alloc_ok
              (λ kg : string * list (list string),
                 l ← Store.alloc_grid kg.2; mret (kg.1, l))
              (map_to_list c) h) as (items & h1 & Hitems).
  - intros [k g] h'. unfold Store.alloc_grid.
    destruct (map_each_alloc_ok (λ cells, Store.alloc (Store.ORow cells)) g h')
      as (rows & h2 & Hrows); [intros cells h''; by eexists _, _|].
    rewrite (mem_bind_ok _ _ _ _ _
               (mem_bind_ok _ (λ rows, Store.alloc (Store.OFace rows)) _ _ _ Hrows)).
    by eexists _, _.
  - rewrite (mem_bind_ok _ _ _ _ _ Hitems). by eexists _, _.
Qed.

(** X8. On a cube of the valid shape held in objects that share nothing, as a
    JSON decoder builds it, [apply_move] with its deep copy and its
    assignments in place returns the state, or raises the error, that the
    function on values gives, for every move text; and the object it returns
    can be moved again with the same agreement. *)
Theorem apply_move_on_objects_agrees (c : cube) (m : string) :
  well_shaped c →
  via_store c m = apply_move c m ∧
  (∀ m2, valid_move m → valid_move m2 →
     via_store_twice c m m2 = replay c [m; m2]).
Proof.
  intros Hc. split.
  - destruct (decide (valid_move m)) as [Hm|Hm];
      [by apply store_apply_move_agrees|].
    unfold via_store.
    destruct (alloc_cube_ok c []) as (l & h & Hl).
    rewrite (mem_bind_ok _ _ _ _ _ Hl).
    unfold mbind, Store.Mem_bind, Store.apply_move, apply_move.
    destruct m as [|a rest]; [done|].
    destruct (negb (py_in (String a "") "UDFBLR")) eqn:Hhead; [done|].
    destruct (negb (py_in_list rest [""; "'"; "2"])) eqn:Hsuf; [done|].
    destruct Hm. apply valid_move_head_suffix.
    rewrite face_char_decide in Hhead. change [""; "'"; "2"] with suffixes in Hsuf.
    rewrite py_in_list_decide in Hsuf.
    apply negb_false_iff, bool_decide_eq_true in Hhead, Hsuf. by split.
  - intros m2 (f1 & s1 & Hf1 & Hs1 & ->)%valid_move_inv
      (f2 & s2 & Hf2 & Hs2 & ->)%valid_move_inv. cube_cases Hc.
    face_cases Hf1; apply suffixes_cases in Hs1 as [->|[->| ->]];
      face_cases Hf2; apply suffixes_cases in Hs2 as [->|[->| ->]];
      lazymatch goal with
      | |- ?l = ?r =>
          let v := eval vm_compute in (faces6 r) in
          lazymatch v with
          | Some (?u', ?d', ?f', ?b', ?l', ?r') =>
              transitivity (Ok (mk_cube u' d' f' b' l' r'));
              [by_eval|symmetry; by_eval]
          end
      end.
Qed.

Lemma apply_move_on_objects_agrees_witness :
  well_shaped scrambled_cube ∧
  via_store scrambled_cube "F2" = apply_move scrambled_cube "F2" ∧
  via_store scrambled_cube "F3" =
    Raise (ValueError "Invalid move suffix: 3") ∧
  via_store_twice scrambled_cube "F2" "L" = replay scrambled_cube ["F2"; "L"].
Proof.
  assert (H1 : valid_move "F2") by (apply valid_move_decide; reflexivity).
  assert (H2 : valid_move "L") by (apply valid_move_decide; reflexivity).
  pose proof (apply_move_on_objects_agrees scrambled_cube "F2"
                (proj1 scrambled_cube_valid)) as [Ha Hb].
  pose proof (apply_move_on_objects_agrees scrambled_cube "F3"
                (proj1 scrambled_cube_valid)) as [Hc _].
  split; [exact (proj1 scrambled_cube_valid)|]. split; [exact Ha|].
  split; [exact Hc|]. exact (Hb "L" H1 H2).
Defined.

(** ** is_cube_solved *)

Lemma any_differs_false (g : face) (x : string) :
  existsb (λ row, existsb (λ s, negb (String.eqb s x)) row) g = false ↔
  Forall (Forall (λ s, s = x)) g.
Proof.
  induction g as [|row g IH]; cbn [existsb].
  - split; [constructor|done].
  - rewrite orb_false_iff, IH, Forall_cons. apply and_iff_compat_r.
    clear IH. induction row as [|s row IH]; cbn [existsb].
    + split; [constructor|done].
    + rewrite orb_false_iff, IH, Forall_cons. apply and_iff_compat_r.
      destruct (String.eqb_spec s x); cbn; split; (done || congruence).
Qed.

Lemma solved_faces_cons (c : cube) (f : string) (faces : list string) :
  face_uniform c f → solved_faces c (f :: faces) = solved_faces c faces.
Proof.
  intros (g & x & Hg & Hx & Hall). cbn [solved_faces].
  rewrite Hx. cbn [mbind result_bind]. unfold getitem. rewrite Hg.
  cbn [mbind result_bind]. by rewrite (proj2 (any_differs_false g x) Hall).
Qed.

Lemma solved_faces_true (c : cube) (faces : list string) :
  solved_faces c faces = Ok true ↔ Forall (face_uniform c) faces.
Proof.
  induction faces as [|f faces IH]; [split; [constructor|done]|].
  rewrite Forall_cons. split.
  - intros H. cbn [solved_faces] in H.
    destruct (sticker c f 1 1) as [x|e] eqn:Hx; [|done].
    cbn [mbind result_bind] in H. unfold getitem in H.
    destruct (c !! f) as [g|] eqn:Hg; [|done]. cbn [mbind result_bind] in H.
    destruct (existsb _ g) eqn:Hex; [done|].
    split; [|by apply IH]. exists g, x. by rewrite <- any_differs_false.
  - intros [Hf Hrest]. rewrite solved_faces_cons by done. by apply IH.
Qed.

Lemma uniform_grid3 (c : cube) (k : string) (g : face) :
  grid3 g → c !! k = Some g → face_uniform c k → ∃ x, g = plain x.
Proof.
  intros Hg Hk (g' & x & Hg' & Hx & Hu). rewrite Hk in Hg'. injection Hg' as <-.
  apply grid3_inv in Hg as (a0 & a1 & a2 & b0 & b1 & b2 & c0 & c1 & c2 & ->).
  exists x.
  repeat match goal with
  | H : Forall _ (_ :: _) |- _ => apply Forall_cons in H as [? H]
  end. by subst.
Qed.

(** X9. [is_cube_solved] returns [True] exactly when each of the six faces has
    a centre and all its stickers equal the centre; on a cube of the valid
    shape, when every face is a plain grid of one colour. The colours of
    different faces need not differ. *)
Theorem is_cube_solved_iff_faces_uniform (c : cube) :
  (is_cube_solved c = Ok true ↔ ∀ f, f ∈ face_letters → face_uniform c f) ∧
  (well_shaped c →
     is_cube_solved c = Ok true ↔
     ∃ u d f b l r,
       c = mk_cube (plain u) (plain d) (plain f) (plain b) (plain l) (plain r)).
Proof.
  assert (Hiff : is_cube_solved c = Ok true ↔
            ∀ f, f ∈ face_letters → face_uniform c f).
  { unfold is_cube_solved. rewrite solved_faces_true, Forall_forall. done. }
  split; [exact Hiff|]. intros Hc. rewrite Hiff. clear Hiff. split.
  - intros Hall.
    apply well_shaped_mk_cube in Hc
      as (u & d & f & b & l & r & -> & Gu & Gd & Gf & Gb & Gl & Gr).
    assert (Hin : ∀ k, k ∈ ["U"; "D"; "F"; "B"; "L"; "R"] → k ∈ face_letters)
      by done.
    destruct (uniform_grid3 (mk_cube u d f b l r) "U" u Gu) as [xu Hu];
      [reflexivity|apply Hall, Hin, (bool_decide_unpack _); reflexivity|].
    destruct (uniform_grid3 (mk_cube u d f b l r) "D" d Gd) as [xd Hd];
      [reflexivity|apply Hall, Hin, (bool_decide_unpack _); reflexivity|].
    destruct (uniform_grid3 (mk_cube u d f b l r) "F" f Gf) as [xf Hf];
      [reflexivity|apply Hall, Hin, (bool_decide_unpack _); reflexivity|].
    destruct (uniform_grid3 (mk_cube u d f b l r) "B" b Gb) as [xb Hb];
      [reflexivity|apply Hall, Hin, (bool_decide_unpack _); reflexivity|].
    destruct (uniform_grid3 (mk_cube u d f b l r) "L" l Gl) as [xl Hl];
      [reflexivity|apply Hall, Hin, (bool_decide_unpack _); reflexivity|].
    destruct (uniform_grid3 (mk_cube u d f b l r) "R" r Gr) as [xr Hr];
      [reflexivity|apply Hall, Hin, (bool_decide_unpack _); reflexivity|].
    subst. by exists xu, xd, xf, xb, xl, xr.
  - intros (u & d & f & b & l & r & ->) k Hk.
    face_cases Hk; eexists _, _; (split; [reflexivity|]);
      (split; [reflexivity|]); repeat constructor.
Qed.

(** In a list of faces the first that is not uniform decides. *)
Lemma solved_faces_first_failure (c : cube)
    (before after : list string) (f : string) :
  Forall (face_uniform c) before →
  (c !! f = None → solved_faces c (before ++ f :: after) = Raise (KeyError f)) ∧
  (∀ g, c !! f = Some g → (g !! 1 ≫= (.!! 1)) = None →
     solved_faces c (before ++ f :: after) = Raise IndexError) ∧
  (∀ g x, c !! f = Some g → (g !! 1 ≫= (.!! 1)) = Some x →
     ¬ Forall (Forall (λ s, s = x)) g →
     solved_faces c (before ++ f :: after) = Ok false).
Proof.
  induction 1 as [|k before Hk _ IH].
  - cbn [app solved_faces]. unfold sticker, get_row, getitem, getidx.
    split; [|split].
    + intros ->. done.
    + intros g -> Hnone. cbn [mbind result_bind].
      destruct (g !! 1) as [row|]; [|done]. cbn in Hnone |- *. by rewrite Hnone.
    + intros g x -> Hx Hdiff. cbn [mbind result_bind].
      destruct (g !! 1) as [row|]; [|done]. cbn in Hx |- *. rewrite Hx.
      cbn [mbind result_bind].
      destruct (existsb _ g) eqn:Hex; [done|].
      by apply any_differs_false in Hex.
  - cbn [app]. by rewrite solved_faces_cons.
Qed.

(** X10. The faces are tested in the order U, D, F, B, L, R and the first face
    that is not uniform decides: a sticker that differs from the centre gives
    [False], also when a later face is missing; a missing face raises its key
    error; a face without a second row or without a second sticker in it
    raises the index error. *)
Theorem is_cube_solved_first_failing_face (c : cube)
    (before after : list string) (f : string) :
  face_letters = before ++ f :: after →
  Forall (face_uniform c) before →
  (c !! f = None → is_cube_solved c = Raise (KeyError f)) ∧
  (∀ g, c !! f = Some g → (g !! 1 ≫= (.!! 1)) = None →
     is_cube_solved c = Raise IndexError) ∧
  (∀ g x, c !! f = Some g → (g !! 1 ≫= (.!! 1)) = Some x →
     ¬ Forall (Forall (λ s, s = x)) g → is_cube_solved c = Ok false).
Proof.
  intros Hsplit Hbefore. unfold is_cube_solved.
  change ["U"; "D"; "F"; "B"; "L"; "R"] with face_letters. rewrite Hsplit.
  by apply solved_faces_first_failure.
Qed.

Lemma is_cube_solved_first_failing_face_witness :
  face_letters = [] ++ "U" :: ["D"; "F"; "B"; "L"; "R"] ∧
  Forall (face_uniform (delete "R" scrambled_cube)) [] ∧
  delete "R" scrambled_cube !! "U" =
    Some [["W"; "W"; "O"]; ["W"; "W"; "G"]; ["W"; "W"; "G"]] ∧
  ¬ Forall (Forall (λ s, s = "W"))
      [["W"; "W"; "O"]; ["W"; "W"; "G"]; ["W"; "W"; "G"]] ∧
  is_cube_solved (delete "R" scrambled_cube) = Ok false.
Proof.
  assert (Hd : ¬ Forall (Forall (λ s, s = "W"))
                 [["W"; "W"; "O"]; ["W"; "W"; "G"]; ["W"; "W"; "G"]])
    by (apply (bool_decide_unpack _); reflexivity).
  split; [reflexivity|]. split; [apply Forall_nil_2|]. split; [reflexivity|].
  split; [exact Hd|].
  exact (proj2 (proj2 (is_cube_solved_first_failing_face
                         (delete "R" scrambled_cube) [] ["D"; "F"; "B"; "L"; "R"]
                         "U" eq_refl (Forall_nil_2 _)))
           [["W"; "W"; "O"]; ["W"; "W"; "G"]; ["W"; "W"; "G"]] "W"
           eq_refl eq_refl Hd).
Defined.

(** ** A move on a solved cube *)

Lemma NoDup_six (u d f b l r : string) :
  NoDup [u; d; f; b; l; r] →
  u ≠ d ∧ u ≠ f ∧ u ≠ b ∧ u ≠ l ∧ u ≠ r ∧ d ≠ f ∧ d ≠ b ∧ d ≠ l ∧ d ≠ r ∧
  f ≠ b ∧ f ≠ l ∧ f ≠ r ∧ b ≠ l ∧ b ≠ r ∧ l ≠ r.
Proof.
  intros H. repeat (apply NoDup_cons in H as [? H]).
  repeat match goal with
  | H : _ ∉ _ :: _ |- _ => apply not_elem_of_cons in H as [? H]
  end.
  repeat split; congruence.
Qed.

Ltac uniform_face :=
  eexists _, _; (split; [reflexivity|]); (split; [reflexivity|]);
  by repeat constructor.

(** The face [f], after the uniform faces [before], holds a sticker that
    differs from its centre. *)
Ltac differs_at before f after :=
  lazymatch goal with
  | |- is_cube_solved ?c = _ =>
      change (solved_faces c (before ++ f :: after) = Ok false);
      refine (proj2 (proj2 (solved_faces_first_failure c before after f _))
                _ _ eq_refl eq_refl _)
  end;
  [ repeat (apply Forall_cons_2; [uniform_face|]); apply Forall_nil_2
  | let HF := fresh in
    intros HF;
    repeat match goal with
    | H : Forall _ (_ :: _) |- _ => apply Forall_cons in H as [? H]
    end; congruence ].

(** X11. On a solved cube of six different colours every move of the grammar
    gives a cube that [is_cube_solved] reports as not solved. *)
Theorem move_unsolves_solved_cube (u d f b l r m : string) :
  NoDup [u; d; f; b; l; r] → valid_move m →
  is_cube_solved
    (mk_cube (plain u) (plain d) (plain f) (plain b) (plain l) (plain r))
    = Ok true ∧
  ∃ c', apply_move
          (mk_cube (plain u) (plain d) (plain f) (plain b) (plain l) (plain r)) m
          = Ok c' ∧
    is_cube_solved c' = Ok false.
Proof.
  intros Hnd (g & s & Hg & Hs & ->)%valid_move_inv.
  apply NoDup_six in Hnd
    as (H1 & H2 & H3 & H4 & H5 & H6 & H7 & H8 & H9 & H10 & H11 & H12 & H13 & H14 & H15).
  split.
  { apply solved_faces_true. unfold plain.
    repeat (apply Forall_cons_2; [uniform_face|]). apply Forall_nil_2. }
  unfold plain.
  face_cases Hg; apply suffixes_cases in Hs as [->|[->| ->]]; eval_cube;
    first [ differs_at (@nil string) "U" ["D"; "F"; "B"; "L"; "R"]
          | differs_at ["U"] "D" ["F"; "B"; "L"; "R"]
          | differs_at ["U"; "D"] "F" ["B"; "L"; "R"] ].
Qed.

Lemma move_unsolves_solved_cube_witness :
  NoDup ["W"; "Y"; "G"; "B"; "O"; "R"] ∧ valid_move "D'" ∧
  is_cube_solved solved_cube = Ok true ∧
  ∃ c', apply_move solved_cube "D'" = Ok c' ∧ is_cube_solved c' = Ok false.
Proof.
  assert (Hnd : NoDup ["W"; "Y"; "G"; "B"; "O"; "R"])
    by (apply (bool_decide_unpack _); reflexivity).
  assert (Hm : valid_move "D'") by (apply valid_move_decide; reflexivity).
  split; [exact Hnd|]. split; [exact Hm|].
  exact (move_unsolves_solved_cube "W" "Y" "G" "B" "O" "R" "D'" Hnd Hm).
Defined.

(** ** The messages of validate_cube *)

Lemma validate_rows_error (f : string) (rows : face) (colors : gset string) :
  ¬ Forall (λ row : list string, length row = 3) rows →
  validate_rows f rows colors =
  Raise (ValueError ("Face " +:+ f +:+ " rows must contain 3 stickers")).
Proof.
  revert colors. induction rows as [|row rows IH]; intros colors Hn;
    [by destruct Hn|]. cbn [validate_rows].
  destruct (decide (length row ≠ 3)) as [Hne|Heq]; [done|].
  apply IH. intros Hall. apply Hn. constructor; [|done].
  destruct (decide (length row = 3)); tauto.
Qed.

Lemma validate_faces_error (items : list (string * list (list string)))
    (colors : gset string) :
  ¬ Forall (λ kv, grid3 kv.2) items →
  ∃ f g, (f, g) ∈ items ∧ ¬ grid3 g ∧
    validate_faces items colors =
    Raise (ValueError
             (if decide (length g ≠ 3)
              then "Face " +:+ f +:+ " must be a 3x3 matrix"
              else "Face " +:+ f +:+ " rows must contain 3 stickers")).
Proof.
  revert colors. induction items as [|[f g] items IH]; intros colors Hn;
    [by destruct Hn|]. cbn [validate_faces].
  destruct (decide (length g ≠ 3)) as [Hne|Heq].
  - exists f, g. split; [left|]. split; [by intros [? _]|].
    by rewrite decide_True.
  - assert (Hlen : length g = 3) by (destruct (decide (length g = 3)); tauto).
    destruct (validate_rows_spec f g colors) as [[Hrows ->]|[Hrows _]].
    + cbn [mbind result_bind].
      destruct (IH (colors ∪ list_to_set (concat g))) as (f' & g' & Hin & Hg' & ->).
      { intros Hall. apply Hn. by repeat constructor. }
      exists f', g'. split; [by right|done].
    + rewrite validate_rows_error by done. cbn [mbind result_bind].
      exists f, g. split; [left|]. split; [by intros [_ ?]|].
      by rewrite decide_False.
Qed.

(** X12. The three tests of [validate_cube] are made in order and the first
    that fails gives the message: a wrong key set whatever the faces hold;
    with the six keys, a face that is not a 3x3 grid, and the message names
    such a face and says whether its rows or its row lengths are wrong; with
    six 3x3 faces, more than six colours. *)
Theorem validate_cube_message_names_defect (c : cube) :
  (dom c ≠ valid_faces →
     validate_cube c =
     Raise (ValueError "Cube must have exactly U, D, F, B, L, R faces")) ∧
  (dom c = valid_faces → ¬ map_Forall (λ _ g, grid3 g) c →
     ∃ f g, c !! f = Some g ∧ ¬ grid3 g ∧
       validate_cube c =
       Raise (ValueError
                (if decide (length g ≠ 3)
                 then "Face " +:+ f +:+ " must be a 3x3 matrix"
                 else "Face " +:+ f +:+ " rows must contain 3 stickers"))) ∧
  (well_shaped c → 6 < size (list_to_set (tokens c) : gset string) →
     validate_cube c =
     Raise (ValueError "Cube contains more than 6 distinct colors")).
Proof.
  unfold validate_cube. split; [|split].
  - intros Hdom. by rewrite decide_True.
  - intros Hdom Hshape. rewrite decide_False by (by intros ?).
    rewrite map_Forall_grid3 in Hshape.
    destruct (validate_faces_error (map_to_list c) ∅ Hshape)
      as (f & g & Hin & Hg & ->).
    exists f, g. split; [by apply elem_of_map_to_list|]. done.
  - intros [Hdom Hshape] Hsize. rewrite decide_False by (by intros ?).
    rewrite map_Forall_grid3 in Hshape.
    destruct (validate_faces_spec (map_to_list c) ∅) as [[_ ->]|[Hn _]]; [|done].
    cbn [mbind result_bind]. rewrite union_empty_l_L.
    by rewrite decide_True.
Qed.

Lemma validate_cube_message_names_defect_witness :
  dom four_rows = valid_faces ∧ ¬ map_Forall (λ _ g, grid3 g) four_rows ∧
  ∃ f g, four_rows !! f = Some g ∧ ¬ grid3 g ∧
    validate_cube four_rows =
    Raise (ValueError
             (if decide (length g ≠ 3)
              then "Face " +:+ f +:+ " must be a 3x3 matrix"
              else "Face " +:+ f +:+ " rows must contain 3 stickers")).
Proof.
  assert (Hdom : dom four_rows = valid_faces).
  { apply (bool_decide_unpack _). vm_compute. reflexivity. }
  assert (Hshape : ¬ map_Forall (λ _ g, grid3 g) four_rows).
  { intros H. specialize (H "F" _ eq_refl). destruct H as [H _]. discriminate H. }
  split; [exact Hdom|]. split; [exact Hshape|].
  exact (proj1 (proj2 (validate_cube_message_names_defect four_rows)) Hdom Hshape).
Defined.

(** ** More on the optimizer *)

Lemma str_head_nonempty (m : string) : m ≠ "" → str_head m = Ok (face_letter m).
Proof. by destruct m. Qed.

(** On non-empty texts the loop returns: it appends to [optimized] a list no
    longer than the log, which is the log itself exactly when no two
    neighbours turn the same face. *)
Lemma optimize_from_total (sol : list string) :
  Forall (λ m, m ≠ "") sol →
  ∃ out, (∀ acc, optimize_from sol acc = Ok (acc ++ out)) ∧
    length out ≤ length sol ∧ (out = sol ↔ adjacent_faces_differ sol).
Proof.
  remember (length sol) as n eqn:Hn. revert sol Hn.
  induction (lt_wf n) as [n _ IH]. intros sol -> Hsol.
  destruct sol as [|m1 [|m2 rest]].
  - exists []. split; [|done]. intros acc. by rewrite app_nil_r.
  - by exists [m1].
  - apply Forall_cons in Hsol as [H1 Hsol].
    pose proof Hsol as [H2 Hrest]%Forall_cons.
    change (adjacent_faces_differ (m1 :: m2 :: rest))
      with (face_letter m1 ≠ face_letter m2 ∧ adjacent_faces_differ (m2 :: rest)).
    destruct (decide (face_letter m1 = face_letter m2)) as [Hsame|Hdiff].
    + destruct (IH (length rest) ltac:(cbn [length]; lia) rest eq_refl Hrest)
        as (out & Hout & Hlen & _).
      assert (Hshort : ∀ o : list string,
                length o ≤ S (length rest) → (o = m1 :: m2 :: rest ↔
                  face_letter m1 ≠ face_letter m2 ∧
                  adjacent_faces_differ (m2 :: rest))).
      { intros o Hlo. split; [intros ->; cbn [length] in Hlo; lia|tauto]. }
      assert (Hstep : ∀ acc, optimize_from (m1 :: m2 :: rest) acc =
                let total_turns := (opt_turns m1 + opt_turns m2) mod 4 in
                if total_turns == 0 then optimize_from rest acc
                else if total_turns == 1
                     then optimize_from rest (acc ++ [face_letter m1])
                     else if total_turns == 2
                          then optimize_from rest (acc ++ [face_letter m1 +:+ "2"])
                          else optimize_from rest (acc ++ [face_letter m1 +:+ "'"])).
      { intros acc. rewrite optimize_from_cons2, !str_head_nonempty by done.
        cbn [mbind result_bind]. rewrite bool_decide_eq_true_2 by done.
        cbn zeta. by repeat case_bool_decide. }
      cbn zeta in Hstep.
      destruct (bool_decide ((opt_turns m1 + opt_turns m2) mod 4 = 0)) eqn:E0;
        [|destruct (bool_decide ((opt_turns m1 + opt_turns m2) mod 4 = 1)) eqn:E1;
          [|destruct (bool_decide ((opt_turns m1 + opt_turns m2) mod 4 = 2)) eqn:E2]].
      * exists out. split; [intros acc; by rewrite Hstep, Hout|].
        split; [cbn [length]; lia|]. apply Hshort. lia.
      * exists (face_letter m1 :: out).
        split; [intros acc; by rewrite Hstep, Hout, <- (assoc_L (++))|].
        split; [cbn [length]; lia|]. apply Hshort. cbn [length]. lia.
      * exists ((face_letter m1 +:+ "2") :: out).
        split; [intros acc; by rewrite Hstep, Hout, <- (assoc_L (++))|].
        split; [cbn [length]; lia|]. apply Hshort. cbn [length]. lia.
      * exists ((face_letter m1 +:+ "'") :: out).
        split; [intros acc; by rewrite Hstep, Hout, <- (assoc_L (++))|].
        split; [cbn [length]; lia|]. apply Hshort. cbn [length]. lia.
    + destruct (IH (length (m2 :: rest)) ltac:(cbn [length]; lia) (m2 :: rest)
                  eq_refl Hsol) as (out & Hout & Hlen & Hid).
      exists (m1 :: out). split; [|split].
      * intros acc. rewrite optimize_from_cons2, !str_head_nonempty by done.
        cbn [mbind result_bind]. rewrite bool_decide_eq_false_2 by done.
        by rewrite Hout, <- (assoc_L (++)).
      * cbn [length] in *. lia.
      * split.
        -- intros [= Heq]. split; [done|]. by apply Hid.
        -- intros [_ Had]. f_equal. by apply Hid.
Qed.

Lemma merge_pass_length (sol : list string) :
  length (merge_pass_spec sol) ≤ length sol.
Proof.
  remember (length sol) as n eqn:Hn. revert sol Hn.
  induction (lt_wf n) as [n _ IH]. intros sol ->.
  destruct sol as [|m1 [|m2 rest]]; [done|done|].
  rewrite merge_pass_spec_cons2.
  assert (H0 : length (merge_pass_spec rest) ≤ length rest)
    by (apply (IH (length rest)); [cbn [length]; lia|done]).
  assert (H1 : length (merge_pass_spec (m2 :: rest)) ≤ length (m2 :: rest))
    by (apply (IH (length (m2 :: rest))); [cbn [length]; lia|done]).
  cbn zeta. repeat case_bool_decide; cbn [length] in *; lia.
Qed.

(** X13. On a log of moves of the grammar the optimizer returns moves of the
    grammar, never more of them than the log holds. *)
Theorem optimizer_output_valid_and_no_longer (sol : list string) :
  Forall valid_move sol →
  ∃ out, optimize_from sol [] = Ok out ∧
    Forall valid_move out ∧ length out ≤ length sol.
Proof.
  intros Hsol. exists (merge_pass_spec sol).
  split; [by rewrite optimize_from_merge_pass|].
  split; [by apply merge_pass_valid|apply merge_pass_length].
Qed.

Lemma optimizer_output_valid_and_no_longer_witness :
  Forall valid_move ["D"; "D'"; "F2"; "F"; "R"] ∧
  ∃ out, optimize_from ["D"; "D'"; "F2"; "F"; "R"] [] = Ok out ∧
    Forall valid_move out ∧ length out ≤ length ["D"; "D'"; "F2"; "F"; "R"].
Proof.
  assert (Hsol : Forall valid_move ["D"; "D'"; "F2"; "F"; "R"]).
  { repeat (apply Forall_cons_2; [apply valid_move_decide; reflexivity|]).
    apply Forall_nil_2. }
  split; [exact Hsol|].
  exact (optimizer_output_valid_and_no_longer _ Hsol).
Defined.

(** X14. The optimizer reads the first character of both moves of a pair: an
    empty text in a pair raises the index error, an empty text that is the
    last entry and stands alone is copied. On texts that are not empty,
    whether of the grammar or not, the optimizer returns. *)
Theorem optimizer_raises_only_on_empty_text (sol : list string) :
  (Forall (λ m, m ≠ "") sol → ∃ out, optimize_from sol [] = Ok out) ∧
  (∀ m rest, optimize_from ("" :: m :: rest) [] = Raise IndexError) ∧
  (∀ m rest, m ≠ "" → optimize_from (m :: "" :: rest) [] = Raise IndexError) ∧
  optimize_from [""] [] = Ok [""].
Proof.
  split; [|split; [done|split; [|done]]].
  - intros Hsol. destruct (optimize_from_total sol Hsol) as (out & Hout & _).
    exists out. by rewrite Hout.
  - intros m rest Hm. rewrite optimize_from_cons2. by destruct m.
Qed.

Lemma optimizer_raises_only_on_empty_text_witness :
  Forall (λ m, m ≠ "") ["x"; "U3"; "U'2"] ∧
  ∃ out, optimize_from ["x"; "U3"; "U'2"] [] = Ok out.
Proof.
  assert (H : Forall (λ m, m ≠ "") ["x"; "U3"; "U'2"]).
  { repeat (apply Forall_cons_2; [discriminate|]). apply Forall_nil_2. }
  split; [exact H|].
  exact (proj1 (optimizer_raises_only_on_empty_text _) H).
Defined.

(** X15. The optimizer returns the log as it is exactly when no two neighbours
    in it turn the same face. *)
Theorem optimizer_identity_iff_no_adjacent_pair (sol : list string) :
  Forall (λ m, m ≠ "") sol →
  optimize_from sol [] = Ok sol ↔ adjacent_faces_differ sol.
Proof.
  intros Hsol. destruct (optimize_from_total sol Hsol) as (out & Hout & _ & Hid).
  rewrite Hout. cbn [app]. rewrite <- Hid. split; [by intros [= ->]|by intros ->].
Qed.

Lemma optimizer_identity_iff_no_adjacent_pair_witness :
  Forall (λ m, m ≠ "") ["R"; "U"; "R'"; "U'"] ∧
  (optimize_from ["R"; "U"; "R'"; "U'"] [] = Ok ["R"; "U"; "R'"; "U'"] ↔
   adjacent_faces_differ ["R"; "U"; "R'"; "U'"]).
Proof.
  assert (H : Forall (λ m, m ≠ "") ["R"; "U"; "R'"; "U'"]).
  { repeat (apply Forall_cons_2; [discriminate|]). apply Forall_nil_2. }
  split; [exact H|].
  exact (optimizer_identity_iff_no_adjacent_pair _ H).
Defined.

(** ** _find_edge and _find_corner *)

Lemma pyset_eq_spec (l1 l2 : list string) :
  pyset_eq l1 l2 = true ↔ (list_to_set l1 : gset string) = list_to_set l2.
Proof.
  unfold pyset_eq. rewrite andb_true_iff, !forallb_forall.
  setoid_rewrite py_in_list_decide. setoid_rewrite bool_decide_eq_true.
  setoid_rewrite <- list_elem_of_In. rewrite set_eq.
  setoid_rewrite elem_of_list_to_set. split.
  - intros [H1 H2] x. split; [apply H1|apply H2].
  - intros H. split; intros x Hx; by apply H.
Qed.

Lemma edges_readable (c : cube) :
  well_shaped c → Forall (λ e, ∃ found, edge_colors c e = Ok found) edges.
Proof.
  intros Hc. cube_cases Hc. unfold edges.
  repeat (apply Forall_cons_2; [eexists; reflexivity|]). apply Forall_nil_2.
Qed.

Lemma corners_readable (c : cube) :
  well_shaped c → Forall (λ cn, ∃ found, corner_colors c cn = Ok found) corners.
Proof.
  intros Hc. cube_cases Hc. unfold corners.
  repeat (apply Forall_cons_2; [eexists; reflexivity|]). apply Forall_nil_2.
Qed.

Lemma first_match_cons_no {P} (matches : P → Prop) (p : P) (table : list P)
    (r : option P) :
  ¬ matches p → first_match matches table r → first_match matches (p :: table) r.
Proof.
  intros Hp. destruct r as [q|]; cbn.
  - intros (before & after & -> & Hq & Hb). exists (p :: before), after.
    split; [done|]. split; [done|]. by constructor.
  - intros H. by constructor.
Qed.

Lemma find_edge_in_spec (s : solver) (x y : string) (es : list edge) :
  Forall (λ e, ∃ found, edge_colors (self_cube s) e = Ok found) es →
  ∃ r, run (find_edge_in es x y) s = (Ok r, s) ∧
    first_match (colors_match edge_colors (self_cube s) [x; y]) es r.
Proof.
  induction 1 as [|e es [found He] _ (r & Hr & Hfirst)].
  - exists None. split; [done|]. constructor.
  - destruct e as [[[[[f1 r1] c1] f2] r2] c2]. cbn [find_edge_in].
    unfold edge_colors in He.
    rewrite run_bind. change (run (cube_at f1 r1 c1) s)
      with (sticker (self_cube s) f1 r1 c1, s).
    destruct (sticker (self_cube s) f1 r1 c1) as [a|?] eqn:Ha; [|done].
    rewrite run_bind. change (run (cube_at f2 r2 c2) s)
      with (sticker (self_cube s) f2 r2 c2, s).
    destruct (sticker (self_cube s) f2 r2 c2) as [b|?] eqn:Hb; [|done].
    destruct (pyset_eq [a; b] [x; y]) eqn:Heq.
    + exists (Some (f1, r1, c1, f2, r2, c2)). split; [done|].
      exists [], es. split; [done|]. split; [|constructor].
      exists [a; b]. split; [unfold edge_colors; by rewrite Ha, Hb|].
      by apply pyset_eq_spec.
    + exists r. split; [done|]. apply first_match_cons_no; [|done].
      intros (found' & Hf & Hset). unfold edge_colors in Hf.
      rewrite Ha, Hb in Hf. injection Hf as <-.
      apply pyset_eq_spec in Hset. congruence.
Qed.

Lemma find_corner_in_spec (s : solver) (x y z : string) (cs : list corner) :
  Forall (λ cn, ∃ found, corner_colors (self_cube s) cn = Ok found) cs →
  ∃ r, run (find_corner_in cs x y z) s = (Ok r, s) ∧
    first_match (colors_match corner_colors (self_cube s) [x; y; z]) cs r.
Proof.
  induction 1 as [|cn cs [found He] _ (r & Hr & Hfirst)].
  - exists None. split; [done|]. constructor.
  - destruct cn as [[[[[[[[f1 r1] c1] f2] r2] c2] f3] r3] c3].
    cbn [find_corner_in]. unfold corner_colors in He.
    rewrite run_bind. change (run (cube_at f1 r1 c1) s)
      with (sticker (self_cube s) f1 r1 c1, s).
    destruct (sticker (self_cube s) f1 r1 c1) as [a|?] eqn:Ha; [|done].
    rewrite run_bind. change (run (cube_at f2 r2 c2) s)
      with (sticker (self_cube s) f2 r2 c2, s).
    destruct (sticker (self_cube s) f2 r2 c2) as [b|?] eqn:Hb; [|done].
    rewrite run_bind. change (run (cube_at f3 r3 c3) s)
      with (sticker (self_cube s) f3 r3 c3, s).
    destruct (sticker (self_cube s) f3 r3 c3) as [d|?] eqn:Hd; [|done].
    destruct (pyset_eq [a; b; d] [x; y; z]) eqn:Heq.
    + exists (Some (f1, r1, c1, f2, r2, c2, f3, r3, c3)). split; [done|].
      exists [], cs. split; [done|]. split; [|constructor].
      exists [a; b; d]. split; [unfold corner_colors; by rewrite Ha, Hb, Hd|].
      by apply pyset_eq_spec.
    + exists r. split; [done|]. apply first_match_cons_no; [|done].
      intros (found' & Hf & Hset). unfold corner_colors in Hf.
      rewrite Ha, Hb, Hd in Hf. injection Hf as <-.
      apply pyset_eq_spec in Hset. congruence.
Qed.

(** X16. On a cube of the valid shape [_find_edge] raises nothing and leaves
    the solver as it is; it returns the first edge of its table whose two
    stickers are, as a set, the two colours asked for, and [None] exactly when
    no edge of the table has them. Two equal colours are the set of one
    colour: only an edge with both stickers of that colour matches. *)
Theorem find_edge_returns_first_match (s : solver) (x y : string) :
  well_shaped (self_cube s) →
  ∃ r, run (_find_edge x y) s = (Ok r, s) ∧
    first_match (colors_match edge_colors (self_cube s) [x; y]) edges r.
Proof. intros Hc. by apply find_edge_in_spec, edges_readable. Qed.

(** X17. The same for [_find_corner], its table of eight corners and three
    colours: the three stickers are compared with the three colours as sets,
    not as multisets. *)
Theorem find_corner_returns_first_match (s : solver) (x y z : string) :
  well_shaped (self_cube s) →
  ∃ r, run (_find_corner x y z) s = (Ok r, s) ∧
    first_match (colors_match corner_colors (self_cube s) [x; y; z]) corners r.
Proof. intros Hc. by apply find_corner_in_spec, corners_readable. Qed.

Lemma find_edge_returns_first_match_witness :
  well_shaped (self_cube overshoot_solver) ∧
  ∃ r, run (_find_edge "W" "G") overshoot_solver = (Ok r, overshoot_solver) ∧
    first_match (colors_match edge_colors (self_cube overshoot_solver) ["W"; "G"])
      edges r.
Proof.
  assert (H : well_shaped (self_cube overshoot_solver)).
  { apply mk_cube_well_shaped; (split; [reflexivity|repeat constructor]). }
  split; [exact H|].
  exact (find_edge_returns_first_match overshoot_solver "W" "G" H).
Defined.

Lemma find_corner_returns_first_match_witness :
  well_shaped (self_cube overshoot_solver) ∧
  ∃ r, run (_find_corner "W" "G" "O") overshoot_solver
         = (Ok r, overshoot_solver) ∧
    first_match
      (colors_match corner_colors (self_cube overshoot_solver) ["W"; "G"; "O"])
      corners r.
Proof.
  assert (H : well_shaped (self_cube overshoot_solver)).
  { apply mk_cube_well_shaped; (split; [reflexivity|repeat constructor]). }
  split; [exact H|].
  exact (find_corner_returns_first_match overshoot_solver "W" "G" "O" H).
Defined.

(** ** A batch that fails *)

Lemma run_move_log (move : string) (s : solver) :
  run (move_cube move;; log_move move) s =
  match apply_move (self_cube s) move with
  | Ok c =>
      (Ok (), {| self_cube := c;
                 self_solution := self_solution s ++ [move];
                 self_face_colors := self_face_colors s;
                 self_max_moves := self_max_moves s;
                 self_white_color := self_white_color s;
                 self_yellow_color := self_yellow_color s |})
  | Raise e => (Raise e, s)
  end.
Proof.
  rewrite run_bind. change (run (move_cube move) s) with (M_move_cube move s).
  unfold M_move_cube. by destruct (apply_move (self_cube s) move).
Qed.

Lemma apply_move_invalid (c : cube) (m : string) :
  ¬ valid_move m → ∃ msg, apply_move c m = Raise (ValueError msg).
Proof.
  intros Hm. destruct m as [|a rest]; [by eexists|]. unfold apply_move.
  destruct (negb (py_in (String a "") "UDFBLR")) eqn:Hhead; [by eexists|].
  destruct (negb (py_in_list rest [""; "'"; "2"])) eqn:Hsuf; [by eexists|].
  destruct Hm. apply valid_move_head_suffix.
  rewrite face_char_decide in Hhead. change [""; "'"; "2"] with suffixes in Hsuf.
  rewrite py_in_list_decide in Hsuf.
  apply negb_false_iff, bool_decide_eq_true in Hhead, Hsuf. by split.
Qed.

Lemma for_each_stops_at_invalid (good : list string) (bad : string)
    (rest : list string) (s : solver) :
  well_shaped (self_cube s) → Forall valid_move good → ¬ valid_move bad →
  ∃ c' msg, replay (self_cube s) good = Ok c' ∧
    apply_move c' bad = Raise (ValueError msg) ∧
    (run (for_each_M (good ++ bad :: rest)
            (λ move, move_cube move;; log_move move)) s).1
      = Raise (ValueError msg) ∧
    self_cube (run (for_each_M (good ++ bad :: rest)
                      (λ move, move_cube move;; log_move move)) s).2 = c' ∧
    self_solution (run (for_each_M (good ++ bad :: rest)
                          (λ move, move_cube move;; log_move move)) s).2
      = self_solution s ++ good.
Proof.
  intros Hc Hgood Hbad. revert s Hc.
  induction Hgood as [|m good Hm _ IH]; intros s Hc; cbn [app for_each_M replay].
  - destruct (apply_move_invalid (self_cube s) bad Hbad) as [msg Hmsg].
    exists (self_cube s), msg. rewrite run_bind, run_move_log, Hmsg.
    by rewrite app_nil_r.
  - destruct (apply_move_spec (self_cube s) m Hc Hm) as (c1 & Hc1 & Hshape & _).
    rewrite run_bind, run_move_log, Hc1. cbn [mbind result_bind].
    match goal with
    | |- context [run _ ?s1] =>
        destruct (IH s1 Hshape) as (c' & msg & Hrep & Hraise & Hres & Hcube & Hlog)
    end.
    exists c', msg. cbn [self_cube self_solution] in *.
    rewrite Hrep, Hres, Hcube, Hlog. by rewrite <- (assoc_L (++)).
Qed.

(** X18. [_apply] does not undo a batch that fails: when a move of the batch
    is not a move of the grammar, the moves before it stay applied to the cube
    and stay in the log, the error of [apply_move] is raised and the rest of
    the batch is not looked at. *)
Theorem apply_batch_keeps_moves_before_failure (s : solver)
    (good : list string) (bad : string) (rest : list string) :
  length (self_solution s) < self_max_moves s →
  well_shaped (self_cube s) → Forall valid_move good → ¬ valid_move bad →
  ∃ c' msg, replay (self_cube s) good = Ok c' ∧
    apply_move c' bad = Raise (ValueError msg) ∧
    (run (_apply (good ++ bad :: rest)) s).1 = Raise (ValueError msg) ∧
    self_cube (run (_apply (good ++ bad :: rest)) s).2 = c' ∧
    self_solution (run (_apply (good ++ bad :: rest)) s).2
      = self_solution s ++ good.
Proof.
  intros Hroom Hc Hgood Hbad. rewrite apply_unfold.
  rewrite decide_False by lia. by apply for_each_stops_at_invalid.
Qed.

Lemma apply_batch_keeps_moves_before_failure_witness :
  length (self_solution (solver_with_log solved_cube ["U"])) <
    self_max_moves (solver_with_log solved_cube ["U"]) ∧
  well_shaped (self_cube (solver_with_log solved_cube ["U"])) ∧
  Forall valid_move ["R"; "F'"] ∧ ¬ valid_move "X" ∧
  ∃ c' msg, replay (self_cube (solver_with_log solved_cube ["U"])) ["R"; "F'"]
              = Ok c' ∧
    apply_move c' "X" = Raise (ValueError msg) ∧
    (run (_apply (["R"; "F'"] ++ "X" :: ["D"]))
       (solver_with_log solved_cube ["U"])).1 = Raise (ValueError msg) ∧
    self_cube (run (_apply (["R"; "F'"] ++ "X" :: ["D"]))
                 (solver_with_log solved_cube ["U"])).2 = c' ∧
    self_solution (run (_apply (["R"; "F'"] ++ "X" :: ["D"]))
                     (solver_with_log solved_cube ["U"])).2
      = self_solution (solver_with_log solved_cube ["U"]) ++ ["R"; "F'"].
Proof.
  assert (Hroom : length (self_solution (solver_with_log solved_cube ["U"])) <
                  self_max_moves (solver_with_log solved_cube ["U"]))
    by (cbn; lia).
  assert (Hgood : Forall valid_move ["R"; "F'"]).
  { repeat (apply Forall_cons_2; [apply valid_move_decide; reflexivity|]).
    apply Forall_nil_2. }
  assert (Hbad : ¬ valid_move "X") by (apply (bool_decide_unpack _); reflexivity).
  split; [exact Hroom|]. split; [exact (proj1 solved_cube_valid)|].
  split; [exact Hgood|]. split; [exact Hbad|].
  exact (apply_batch_keeps_moves_before_failure _ ["R"; "F'"] "X" ["D"]
           Hroom (proj1 solved_cube_valid) Hgood Hbad).
Defined.

(** ** The log and the working cube *)

(** Only a move of the grammar is applied, on any cube. *)
Lemma apply_move_ok_valid (c c' : cube) (m : string) :
  apply_move c m = Ok c' → valid_move m.
Proof.
  intros H. apply valid_move_head_suffix.
  destruct m as [|a rest]; [done|]. unfold apply_move in H.
  rewrite face_char_decide in H.
  destruct (bool_decide (String a "" ∈ face_letters)) eqn:Hh; [|done].
  cbn [negb] in H. change [""; "'"; "2"] with suffixes in H.
  rewrite py_in_list_decide in H.
  destruct (bool_decide (rest ∈ suffixes)) eqn:Hs; [|done].
  split; [by apply bool_decide_eq_true in Hh|by apply bool_decide_eq_true in Hs].
Qed.

Lemma replay_snoc (c : cube) (moves : list string) (m : string) :
  replay c (moves ++ [m]) = c' ← replay c moves; apply_move c' m.
Proof.
  revert c. induction moves as [|m' moves IH]; intros c; cbn [app replay].
  - cbn [mbind result_bind]. by destruct (apply_move c m).
  - destruct (apply_move c m') as [c1|e]; [apply IH|done].
Qed.

Section LogReplays.

Variable c0 : cube.
Variable s0 : solver.

Lemma keeps_replay_pure {A} (m : M A) :
  (∀ s, (run m s).2 = s) → keeps_replay c0 s0 A m.
Proof. intros H s Hs. by rewrite H. Qed.

Lemma keeps_replay_bind {A B} (m : M A) (k : A → M B) :
  keeps_replay c0 s0 A m → (∀ a, keeps_replay c0 s0 B (k a)) →
  keeps_replay c0 s0 B (m ≫= k).
Proof.
  intros Hm Hk s Hs. rewrite run_bind.
  specialize (Hm s Hs). destruct (run m s) as [[a|e] s']; [by apply Hk|done].
Qed.

Lemma keeps_replay_try {A} (m : M A) (handler : exn → M A) :
  keeps_replay c0 s0 A m → (∀ e, keeps_replay c0 s0 A (handler e)) →
  keeps_replay c0 s0 A (try_except m handler).
Proof.
  intros Hm Hh s Hs.
  change (run (try_except m handler) s) with (M_try m handler s). unfold M_try.
  specialize (Hm s Hs). unfold run in Hm.
  destruct (m s) as [[a|e] s']; [done|by apply Hh].
Qed.

(** The cube and the log change together: one move, one entry. *)
Lemma keeps_replay_move (move : string) :
  keeps_replay c0 s0 unit (move_cube move;; log_move move).
Proof.
  intros s (Hrep & Hval & Hattr). rewrite run_bind.
  change (run (move_cube move) s) with (M_move_cube move s). unfold M_move_cube.
  destruct (apply_move (self_cube s) move) as [c'|e] eqn:Hmove; [|done].
  unfold log_replays. cbn. split; [|split; [|done]].
  - rewrite replay_snoc, Hrep. done.
  - apply Forall_app_2; [done|]. apply Forall_singleton.
    by apply (apply_move_ok_valid (self_cube s) c').
Qed.

Lemma keeps_replay_apply (moves : list string) :
  keeps_replay c0 s0 unit (_apply moves).
Proof.
  intros s Hs. rewrite apply_unfold. destruct (decide _) as [?|_]; [done|].
  revert s Hs.
  apply (P_for_each_M (keeps_replay c0 s0)).
  - intros A a. by apply keeps_replay_pure.
  - intros A B. apply keeps_replay_bind.
  - apply keeps_replay_move.
Qed.

Lemma keeps_replay_solve : keeps_replay c0 s0 _ solve.
Proof.
  apply (P_solve (keeps_replay c0 s0)); intros;
    first [ by apply keeps_replay_pure | by apply keeps_replay_bind
          | by apply keeps_replay_try | by apply keeps_replay_apply ].
Qed.

Lemma keeps_replay_stages : keeps_replay c0 s0 _ solve_stages.
Proof.
  apply (P_solve_stages (keeps_replay c0 s0)); intros;
    first [ by apply keeps_replay_pure | by apply keeps_replay_bind
          | by apply keeps_replay_try | by apply keeps_replay_apply ].
Qed.

End LogReplays.

Lemma CubeSolver_inv (c : cube) (s : solver) :
  CubeSolver c = Ok s → self_cube s = c ∧ self_solution s = [].
Proof.
  unfold CubeSolver. intros H.
  repeat match type of H with
  | context [sticker c ?f 1 1] => destruct (sticker c f 1 1); [|done]
  end.
  cbn in H. by injection H as <-.
Qed.

Lemma CubeSolver_log_replays (c : cube) (s : solver) :
  CubeSolver c = Ok s → log_replays c s s.
Proof.
  intros [Hc Hl]%CubeSolver_inv. unfold log_replays. rewrite Hl, Hc.
  by repeat split.
Qed.

(** X19. For every input on which the constructor succeeds, at the end of
    [solve], whether the stages returned or raised: the log replayed from the
    input state gives the working cube of the solver, every logged move is a
    move of the grammar, and the centre colours, the budget and the two named
    colours read by the constructor are unchanged. *)
Theorem solve_log_replays_to_working_cube (c : cube) (s0 : solver) :
  CubeSolver c = Ok s0 →
  replay c (self_solution (run solve s0).2) = Ok (self_cube (run solve s0).2) ∧
  Forall valid_move (self_solution (run solve s0).2) ∧
  self_face_colors (run solve s0).2 = self_face_colors s0 ∧
  self_max_moves (run solve s0).2 = 200 ∧
  self_white_color (run solve s0).2 = self_white_color s0 ∧
  self_yellow_color (run solve s0).2 = self_yellow_color s0.
Proof.
  intros Hs0.
  destruct (keeps_replay_solve c s0 s0 (CubeSolver_log_replays c s0 Hs0))
    as (H1 & H2 & H3 & H4 & H5 & H6).
  pose proof (CubeSolver_log_bounded c s0 Hs0) as [Hmax _].
  repeat split; try done. by rewrite H4.
Qed.

Lemma solve_log_replays_to_working_cube_witness :
  CubeSolver overshoot_cube = Ok overshoot_solver ∧
  replay overshoot_cube (self_solution (run solve overshoot_solver).2) =
    Ok (self_cube (run solve overshoot_solver).2) ∧
  Forall valid_move (self_solution (run solve overshoot_solver).2).
Proof.
  assert (H : CubeSolver overshoot_cube = Ok overshoot_solver) by reflexivity.
  split; [exact H|].
  split; [exact (proj1 (solve_log_replays_to_working_cube _ _ H))
         |exact (proj1 (proj2 (solve_log_replays_to_working_cube _ _ H)))].
Defined.

(** ** What solve returns when the stages return *)

Lemma run_bind_ok {A B} (m : M A) (k : A → M B) (s s' : solver) (b : B) :
  run (m ≫= k) s = (Ok b, s') →
  ∃ a s1, run m s = (Ok a, s1) ∧ run (k a) s1 = (Ok b, s').
Proof.
  rewrite run_bind. destruct (run m s) as [[a|e] s1]; [eauto|done].
Qed.

(** The list the stages return is the optimizer's output on the final log. *)
Lemma solve_stages_result (s s' : solver) (moves : list string) :
  run solve_stages s = (Ok moves, s') →
  optimize_from (self_solution s') [] = Ok moves.
Proof.
  unfold solve_stages. intros H.
  do 6 (apply run_bind_ok in H as (? & ? & _ & H)).
  apply run_bind_ok in H as (? & x12 & _ & H).
  unfold _optimize_solution in H. apply run_bind_ok in H as (sol & s1 & Hsol & H).
  change (run solution x12) with (Ok (self_solution x12), x12) in Hsol.
  injection Hsol as <- <-.
  destruct (optimize_from (self_solution x12) []) as [out|e] eqn:Hopt; [|done].
  change (run (of_result (Ok out)) x12) with (Ok out, x12) in H.
  by injection H as <- <-.
Qed.

(** X20. On a structurally valid state [solve] returns one of two things.
    Either the single failure entry, when the state is not solved and a stage
    raised. Or a list of at most 210 moves of the grammar whose replay from
    the input state gives exactly the solver's final working cube, a
    structurally valid state with the tokens of the input: the empty list on a
    solved state, the optimized log when the stages ran to their end. The
    failure entry is not a move of the grammar, so the two cases can be told
    apart; that the final cube is solved is not part of what is returned. *)
Theorem solve_returns_failure_or_replayable_moves (c : cube) (s0 : solver) :
  structurally_valid c → CubeSolver c = Ok s0 →
  ¬ valid_move failure_entry ∧
  ∃ moves, (run solve s0).1 = Ok moves ∧
    ((moves = [failure_entry] ∧ is_cube_solved c = Ok false ∧
      ∃ e, (run solve_stages s0).1 = Raise e) ∨
     (Forall valid_move moves ∧ length moves ≤ 210 ∧
      replay c moves = Ok (self_cube (run solve s0).2) ∧
      structurally_valid (self_cube (run solve s0).2) ∧
      tokens (self_cube (run solve s0).2) ≡ₚ tokens c)).
Proof.
  intros Hv Hs0. split; [apply (bool_decide_unpack _); reflexivity|].
  pose proof Hv as [Hc Hsz].
  destruct (CubeSolver_inv c s0 Hs0) as [Hcube Hlog].
  destruct (solved_faces_ok c face_letters (structurally_valid_centres c Hv))
    as [b Hb].
  change (solved_faces c face_letters) with (is_cube_solved c) in Hb.
  rewrite solve_unfold, Hcube, Hb. destruct b.
  { exists []. split; [done|]. right. cbn [snd]. rewrite Hcube.
    split; [constructor|]. split; [cbn [length]; lia|]. done. }
  destruct (keeps_replay_stages c s0 s0 (CubeSolver_log_replays c s0 Hs0))
    as (Hrep & Hval & _).
  assert (Hb' : log_bounded (run solve_stages s0).2).
  { apply (P_solve_stages keeps); try (intros; first
      [ by apply keeps_pure | by apply keeps_bind | by apply keeps_try
      | by apply keeps_apply ]).
    by apply (CubeSolver_log_bounded c). }
  destruct (run solve_stages s0) as [[moves|e] s'] eqn:Hrun; cbn [fst snd] in *.
  - exists moves. split; [done|]. right.
    apply solve_stages_result in Hrun.
    rewrite optimize_from_merge_pass in Hrun by done. injection Hrun as <-.
    destruct (replay_valid (self_solution s') c Hc Hval)
      as (c' & Hc' & Hshape & Hperm).
    rewrite Hrep in Hc'. injection Hc' as <-.
    split; [by apply merge_pass_valid|].
    split; [pose proof (merge_pass_length (self_solution s')); destruct Hb'; lia|].
    split; [by rewrite replay_merge_pass|].
    split; [|done]. split; [done|].
    by rewrite (list_to_set_perm_L (C:=gset string) _ _ Hperm).
  - exists [failure_entry]. split; [done|]. left. by eauto.
Qed.

Lemma solve_returns_failure_or_replayable_moves_witness :
  structurally_valid returning_cube ∧
  ∃ s0, CubeSolver returning_cube = Ok s0 ∧
    is_cube_solved returning_cube = Ok false ∧
    is_cube_solved (self_cube (run solve s0).2) = Ok false ∧
    ∃ moves, (run solve s0).1 = Ok moves ∧
      ((moves = [failure_entry] ∧ is_cube_solved returning_cube = Ok false ∧
        ∃ e, (run solve_stages s0).1 = Raise e) ∨
       (Forall valid_move moves ∧ length moves ≤ 210 ∧
        replay returning_cube moves = Ok (self_cube (run solve s0).2) ∧
        structurally_valid (self_cube (run solve s0).2) ∧
        tokens (self_cube (run solve s0).2) ≡ₚ tokens returning_cube)).
Proof.
  assert (Hv : structurally_valid returning_cube).
  { apply validate_ok_structurally_valid. vm_compute. reflexivity. }
  split; [exact Hv|].
  eexists. split; [reflexivity|].
  split; [vm_compute; reflexivity|]. split; [vm_compute; reflexivity|].
  exact (proj2 (solve_returns_failure_or_replayable_moves returning_cube _
                  Hv eq_refl)).
Defined.

(** ** The centre colours the solver works with *)

Lemma CubeSolver_colors (c : cube) (s : solver) :
  CubeSolver c = Ok s →
  ∃ u d f b l r,
    sticker c "U" 1 1 = Ok u ∧ sticker c "D" 1 1 = Ok d ∧
    sticker c "F" 1 1 = Ok f ∧ sticker c "B" 1 1 = Ok b ∧
    sticker c "L" 1 1 = Ok l ∧ sticker c "R" 1 1 = Ok r ∧
    self_face_colors s =
      [("U", u); ("D", d); ("F", f); ("B", b); ("L", l); ("R", r)] ∧
    self_white_color s = u ∧ self_yellow_color s = d.
Proof.
  unfold CubeSolver. intros H.
  destruct (sticker c "U" 1 1) as [u|]; [|done].
  destruct (sticker c "D" 1 1) as [d|]; [|done].
  destruct (sticker c "F" 1 1) as [f|]; [|done].
  destruct (sticker c "B" 1 1) as [b|]; [|done].
  destruct (sticker c "L" 1 1) as [l|]; [|done].
  destruct (sticker c "R" 1 1) as [r|]; [|done].
  cbn in H. injection H as <-. by exists u, d, f, b, l, r.
Qed.

(** X21. The colours that the constructor reads stay right: at the end of
    [solve] on a structurally valid state, [self.face_colors[f]] is the centre
    sticker of face [f] of the working cube, for each of the six faces, and
    the two named colours are the centres of [U] and [D]. *)
Theorem solver_face_colors_stay_centres (c : cube) (s0 : solver) (f : string) :
  structurally_valid c → CubeSolver c = Ok s0 → f ∈ face_letters →
  ∃ x, sticker (self_cube (run solve s0).2) f 1 1 = Ok x ∧
    run (face_color f) (run solve s0).2 = (Ok x, (run solve s0).2) ∧
    sticker (self_cube (run solve s0).2) "U" 1 1
      = Ok (self_white_color (run solve s0).2) ∧
    sticker (self_cube (run solve s0).2) "D" 1 1
      = Ok (self_yellow_color (run solve s0).2).
Proof.
  intros [Hc _] Hs0 Hf.
  destruct (keeps_replay_solve c s0 s0 (CubeSolver_log_replays c s0 Hs0))
    as (Hrep & Hval & Hcolors & _ & Hwhite & Hyellow).
  destruct (CubeSolver_colors c s0 Hs0)
    as (u & d & f' & b & l & r & Hu & Hd & Hf' & Hb & Hl & Hr & Hfc & Hw & Hy).
  assert (Hcentre : ∀ k, k ∈ face_letters →
            sticker (self_cube (run solve s0).2) k 1 1 = sticker c k 1 1).
  { intros k Hk. destruct (replay_centres c _ k Hc Hval Hk) as (c' & Hc' & Hk').
    rewrite Hrep in Hc'. by injection Hc' as <-. }
  assert (Hin : ∀ k, k ∈ ["U"; "D"; "F"; "B"; "L"; "R"] → k ∈ face_letters)
    by done.
  assert (Hrun : ∀ k, run (face_color k) (run solve s0).2 =
            (match list_find (λ kv : string * string, kv.1 = k)
                     [("U", u); ("D", d); ("F", f'); ("B", b); ("L", l); ("R", r)]
             with
             | Some (_, kv) => Ok kv.2
             | None => Raise (KeyError k)
             end, (run solve s0).2)).
  { intros k. unfold face_color. rewrite run_bind.
    change (run face_colors (run solve s0).2)
      with (Ok (self_face_colors (run solve s0).2), (run solve s0).2).
    cbv iota beta. rewrite Hcolors, Hfc. by destruct (list_find _ _) as [[? ?]|]. }
  rewrite Hrun, (Hcentre f Hf), (Hcentre "U"), (Hcentre "D"), Hwhite, Hyellow, Hw, Hy
    by (apply Hin, (bool_decide_unpack _); reflexivity).
  face_cases Hf;
    [exists u|exists d|exists f'|exists b|exists l|exists r]; by repeat split.
Qed.

Lemma solver_face_colors_stay_centres_witness :
  structurally_valid overshoot_cube ∧
  CubeSolver overshoot_cube = Ok overshoot_solver ∧ "B" ∈ face_letters ∧
  ∃ x, sticker (self_cube (run solve overshoot_solver).2) "B" 1 1 = Ok x ∧
    run (face_color "B") (run solve overshoot_solver).2
      = (Ok x, (run solve overshoot_solver).2).
Proof.
  assert (Hv : structurally_valid overshoot_cube).
  { apply validate_ok_structurally_valid. vm_compute. reflexivity. }
  assert (Hs : CubeSolver overshoot_cube = Ok overshoot_solver) by reflexivity.
  assert (Hf : "B" ∈ face_letters) by (apply (bool_decide_unpack _); reflexivity).
  split; [exact Hv|]. split; [exact Hs|]. split; [exact Hf|].
  destruct (solver_face_colors_stay_centres overshoot_cube overshoot_solver "B"
              Hv Hs Hf) as (x & H1 & H2 & _).
  exists x. split; [exact H1|exact H2].
Defined.

(** ** Stage 2 and a corner in the bottom layer *)

Lemma run_apply_D (s : solver) :
  well_shaped (self_cube s) → length (self_solution s) < self_max_moves s →
  ∃ c', apply_move (self_cube s) "D" = Ok c' ∧ well_shaped c' ∧
    run (_apply ["D"]) s =
      (Ok (), {| self_cube := c';
                 self_solution := self_solution s ++ ["D"];
                 self_face_colors := self_face_colors s;
                 self_max_moves := self_max_moves s;
                 self_white_color := self_white_color s;
                 self_yellow_color := self_yellow_color s |}).
Proof.
  intros Hc Hroom.
  destruct (apply_move_spec (self_cube s) "D" Hc) as (c' & Hc' & Hshape & _).
  { apply valid_move_decide. reflexivity. }
  exists c'. split; [done|]. split; [done|].
  rewrite apply_unfold, decide_False by lia. cbn [for_each_M].
  by rewrite run_bind, run_move_log, Hc'.
Qed.

(** X22. One pass of the loop of [_solve_white_corners], for any of its four
    faces: when the corner it looks for is found in the bottom layer and the
    budget is not used up, the pass turns [D] once, logs the move and raises
    [NameError] for the unbound name [edge]. *)
Theorem white_corner_in_bottom_layer_raises (s : solver)
    (face side_color1 side_color2 : string) (cn : corner) :
  well_shaped (self_cube s) → length (self_solution s) < self_max_moves s →
  run (face_color face) s = (Ok side_color1, s) →
  run (face_color (prev_face face)) s = (Ok side_color2, s) →
  run (_find_corner (self_white_color s) side_color1 side_color2) s
    = (Ok (Some cn), s) →
  cn ∈ bottom_corners →
  (run (white_corners_face face) s).1 = Raise (NameError "edge") ∧
  self_solution (run (white_corners_face face) s).2 = self_solution s ++ ["D"] ∧
  apply_move (self_cube s) "D" = Ok (self_cube (run (white_corners_face face) s).2).
Proof.
  intros Hc Hroom Hc1 Hc2 Hfind Hcn.
  destruct (run_apply_D s Hc Hroom) as (c' & Hc' & Hshape & HD).
  set (s1 := {| self_cube := c';
                self_solution := self_solution s ++ ["D"];
                self_face_colors := self_face_colors s;
                self_max_moves := self_max_moves s;
                self_white_color := self_white_color s;
                self_yellow_color := self_yellow_color s |}) in *.
  destruct (find_corner_in_spec s1 (self_white_color s) side_color1 side_color2
              corners (corners_readable c' Hshape)) as (r & Hr & _).
  assert (Hloop : run (wn_turn_D 4 face side_color1 side_color2 cn) s
                  = (Raise (NameError "edge"), s1)).
  { unfold bottom_corners in Hcn. cbn in Hcn.
    repeat (apply elem_of_cons in Hcn as [->|Hcn]); [..|by apply elem_of_nil in Hcn];
      cbn [wn_turn_D]; unfold prev_face;
      repeat (case_bool_decide; simplify_eq; cbn [andb]);
      rewrite run_bind, HD; cbv iota beta;
      rewrite run_bind;
      change (run white_color s1) with (Ok (self_white_color s), s1);
      cbv iota beta; rewrite run_bind;
      change (run (_find_corner (self_white_color s) side_color1 side_color2) s1)
        with (run (find_corner_in corners (self_white_color s)
                     side_color1 side_color2) s1);
      rewrite Hr; reflexivity. }
  assert (Hpass : run (white_corners_face face) s = (Raise (NameError "edge"), s1)).
  { unfold white_corners_face. unfold corner in *.
    rewrite run_bind, Hc1. cbv iota beta.
    rewrite run_bind, Hc2. cbv iota beta.
    rewrite run_bind. change (run white_color s) with (Ok (self_white_color s), s).
    cbv iota beta. rewrite run_bind, Hfind. cbv iota beta.
    unfold bottom_corners in Hcn. cbn in Hcn.
    repeat (apply elem_of_cons in Hcn as [->|Hcn]); [..|by apply elem_of_nil in Hcn];
      cbv iota beta; rewrite run_bind;
      lazymatch goal with
      | |- context [run (if ?b then _ else mret (Some ?cn)) s] =>
          change (run (if b then _ else mret (Some cn)) s) with (Ok (Some cn), s)
      end; cbv iota beta;
      lazymatch goal with
      | |- context [if ?b then ?x else mret ()] =>
          change (if b then x else mret ()) with x
      end; by rewrite run_bind, Hloop. }
  rewrite Hpass. by repeat split.
Qed.

Lemma white_corner_in_bottom_layer_raises_witness :
  replay solved_cube ["F2"] = Ok half_turn_cube ∧
  CubeSolver half_turn_cube = Ok half_turn_solver ∧
  well_shaped (self_cube half_turn_solver) ∧
  length (self_solution half_turn_solver) < self_max_moves half_turn_solver ∧
  run (_find_corner (self_white_color half_turn_solver) "G" "O") half_turn_solver
    = (Ok (Some ("D", 0, 2, "F", 2, 2, "R", 2, 0)), half_turn_solver) ∧
  ("D", 0, 2, "F", 2, 2, "R", 2, 0) ∈ bottom_corners ∧
  (run (white_corners_face "F") half_turn_solver).1 = Raise (NameError "edge") ∧
  self_solution (run (white_corners_face "F") half_turn_solver).2 = ["D"].
Proof.
  assert (Hc : well_shaped (self_cube half_turn_solver)).
  { apply mk_cube_well_shaped; (split; [reflexivity|repeat constructor]). }
  assert (Hroom : length (self_solution half_turn_solver) <
                  self_max_moves half_turn_solver) by (cbn; lia).
  assert (Hfind : run (_find_corner (self_white_color half_turn_solver) "G" "O")
                    half_turn_solver
                  = (Ok (Some ("D", 0, 2, "F", 2, 2, "R", 2, 0)), half_turn_solver))
    by (vm_compute; reflexivity).
  assert (Hcn : ("D", 0, 2, "F", 2, 2, "R", 2, 0) ∈ bottom_corners)
    by (apply (bool_decide_unpack _); reflexivity).
  split; [vm_compute; reflexivity|]. split; [reflexivity|].
  split; [exact Hc|]. split; [exact Hroom|]. split; [exact Hfind|].
  split; [exact Hcn|].
  destruct (white_corner_in_bottom_layer_raises half_turn_solver "F" "G" "O"
              _ Hc Hroom eq_refl eq_refl Hfind Hcn) as (H1 & H2 & _).
  split; [exact H1|exact H2].
Defined.

(** ** The /solve route *)

(** What the [try] block of the route does on a structurally valid cube. *)
Lemma solve_route_try_valid (c : cube) :
  structurally_valid c →
  ∃ s moves, CubeSolver c = Ok s ∧ solve_cube c = Ok moves ∧
    solve_route_try c =
      Ok {| resp_body :=
              {[ "solution" := JList moves;
                 "sequence" := JStr (match moves with
                                     | [] => "Cube is already solved!"
                                     | _ => String.concat " " moves
                                     end) ]};
            resp_status := 200 |} ∧
    (is_cube_solved c = Ok true → moves = []) ∧
    (is_cube_solved c = Ok false →
       ∀ e, (run solve_stages s).1 = Raise e → moves = [failure_entry]).
Proof.
  intros Hv. pose proof (structurally_valid_centres c Hv) as Hcentres.
  destruct (CubeSolver_ok c Hcentres) as (s & Hs & Hcube).
  destruct (solved_faces_ok c face_letters Hcentres) as [b Hb].
  change (solved_faces c face_letters) with (is_cube_solved c) in Hb.
  exists s. unfold solve_route_try, solve_cube.
  rewrite (structurally_valid_validate c Hv), Hb, Hs. cbn [mbind result_bind].
  rewrite solve_unfold, Hcube, Hb. destruct b.
  - exists []. by repeat split.
  - destruct (run solve_stages s) as [[moves|e] s'] eqn:Hrun; cbn.
    + exists moves. by repeat split.
    + exists [failure_entry]. by repeat split.
Qed.

(** X23. The route answers 400 exactly when the body holds no [cube] member or
    its cube is not structurally valid, with the text of the validator's error
    in the second case, and 200 otherwise. *)
Theorem solve_route_rejects_iff_invalid (data : option (gmap string cube)) :
  (resp_status (solve_route data) = 400 ↔
   ¬ ∃ d c, data = Some d ∧ d !! "cube" = Some c ∧ structurally_valid c) ∧
  (resp_status (solve_route data) = 400 ∨ resp_status (solve_route data) = 200) ∧
  (∀ d, data = Some d → d !! "cube" = None →
     resp_body (solve_route data) =
       {[ "error" := JStr "Invalid request, no cube data provided." ]}) ∧
  (∀ d c, data = Some d → d !! "cube" = Some c → ¬ structurally_valid c →
     ∃ msg, validate_cube c = Raise (ValueError msg) ∧
       resp_body (solve_route data) =
         {[ "error" := JStr ("An error occurred: " +:+ msg) ]}).
Proof.
  assert (Hcases :
    (resp_status (solve_route data) = 400 ∧
     ¬ ∃ d c, data = Some d ∧ d !! "cube" = Some c ∧ structurally_valid c) ∨
    (resp_status (solve_route data) = 200 ∧
     ∃ d c, data = Some d ∧ d !! "cube" = Some c ∧ structurally_valid c)).
  { destruct data as [d|]; [|left; split; [done|by intros (? & ? & ? & _)]].
    unfold solve_route. destruct (decide (d = ∅)) as [->|Hne].
    { left. split; [done|]. intros (? & c & [= <-] & Hc & _).
      by rewrite lookup_empty in Hc. }
    destruct (d !! "cube") as [c|] eqn:Hc;
      [|left; split; [done|]; intros (? & c & [= <-] & Hc' & _); congruence].
    destruct (validate_cube_spec c) as [[Hv _]|[Hn [msg Hmsg]]].
    - right. destruct (solve_route_try_valid c Hv) as (s & moves & _ & _ & -> & _).
      split; [done|]. by exists d, c.
    - left. unfold solve_route_try. rewrite Hmsg. split; [done|].
      intros (? & c' & [= <-] & Hc' & Hv). congruence. }
  split; [|split; [|split]].
  - destruct Hcases as [[-> Hn]|[-> Hy]].
    + by split.
    + split; [intros [=]|]. intros Hn. by destruct (Hn Hy).
  - destruct Hcases as [[-> _]|[-> _]]; tauto.
  - intros d -> Hc. unfold solve_route. destruct (decide (d = ∅)); [done|].
    by rewrite Hc.
  - intros d c -> Hc Hn. unfold solve_route.
    destruct (decide (d = ∅)) as [->|_]; [by rewrite lookup_empty in Hc|].
    rewrite Hc. destruct (validate_cube_spec c) as [[Hv _]|[_ [msg Hmsg]]]; [done|].
    exists msg. split; [done|]. unfold solve_route_try. by rewrite Hmsg.
Qed.

(** X24. On a structurally valid cube the route answers 200 with the list that
    [CubeSolver(cube).solve()] returns and the moves joined by blanks. A
    solved cube gives the empty list; a failure of the solver gives the
    failure entry as the only move, still with status 200; and an empty list
    is always reported with the words for a solved cube. *)
Theorem solve_route_reports_solver_result (d : gmap string cube) (c : cube) :
  d !! "cube" = Some c → structurally_valid c →
  ∃ s moves, CubeSolver c = Ok s ∧ solve_cube c = Ok moves ∧
    solve_route (Some d) =
      {| resp_body :=
           {[ "solution" := JList moves;
              "sequence" := JStr (match moves with
                                  | [] => "Cube is already solved!"
                                  | _ => String.concat " " moves
                                  end) ]};
         resp_status := 200 |} ∧
    (is_cube_solved c = Ok true → moves = []) ∧
    (is_cube_solved c = Ok false →
       ∀ e, (run solve_stages s).1 = Raise e → moves = [failure_entry]).
Proof.
  intros Hc Hv. destruct (solve_route_try_valid c Hv)
    as (s & moves & Hs & Hsolve & Htry & Hsolved & Hfail).
  exists s, moves. split; [done|]. split; [done|]. split; [|done].
  unfold solve_route.
  destruct (decide (d = ∅)) as [->|_]; [by rewrite lookup_empty in Hc|].
  by rewrite Hc, Htry.
Qed.

Lemma solve_route_reports_solver_result_witness :
  ({[ "cube" := scrambled_cube ]} : gmap string cube) !! "cube"
    = Some scrambled_cube ∧
  structurally_valid scrambled_cube ∧
  solve_route (Some {[ "cube" := scrambled_cube ]}) =
    {| resp_body :=
         {[ "solution" := JList [failure_entry];
            "sequence" := JStr failure_entry ]};
       resp_status := 200 |}.
Proof.
  assert (Hd : ({[ "cube" := scrambled_cube ]} : gmap string cube) !! "cube"
                 = Some scrambled_cube) by reflexivity.
  split; [exact Hd|]. split; [exact scrambled_cube_valid|].
  destruct (solve_route_reports_solver_result {[ "cube" := scrambled_cube ]}
              scrambled_cube Hd scrambled_cube_valid)
    as (s & moves & Hs & Hsolve & Hroute & _).
  rewrite Hroute.
  assert (Hm : solve_cube scrambled_cube = Ok [failure_entry])
    by (vm_compute; reflexivity).
  rewrite Hm in Hsolve. by injection Hsolve as <-.
Defined.
